(** * calbox: the calculator core (web/calculator.js, calculate-core.js)

    A shallow embedding of the expression compiler, the stack machine and the
    constant-folding optimizer, followed by the properties of the
    specification that were checked against it.

    Conventions of the embedding:
    - a JS string is a [string] of 8-bit characters, indexed from 0;
    - a JS Number is an element of an abstract number model ([JSNumber]),
      instantiated by IEEE binary64 ([Float64]) where concrete values matter;
    - objects that are shared and mutated (the calculation contexts) live in a
      store ([heap]) and are named by their index;
    - a JS exception is the [Throw] outcome of a computation. *)

From Stdlib Require Import ZArith String Ascii List Bool Lia.
From Stdlib Require Import DecimalString.
From Stdlib Require Import Floats.
From stdpp Require Import base option list gmap strings.

Local Open Scope string_scope.
Local Open Scope list_scope.
Local Open Scope nat_scope.

(** ** Numbers *)

(** The operations on Numbers that the source uses: [a + b], [-a], [a * b],
    [a / b], [a ** b], the literals [0] and [1], and unary [+] applied to a
    string (string to Number conversion). *)
Class JSNumber := {
  num : Type;
  num_add : num -> num -> num;
  num_neg : num -> num;
  num_mul : num -> num -> num;
  num_div : num -> num -> num;
  num_pow : num -> num -> num;
  num_zero : num;
  num_one : num;
  num_of_string : string -> num
}.

Module Float64.

(** Decimal digits of a string prefix: the digits read so far as a number,
    how many there were, and the rest of the string. *)
Definition digit_of (c : ascii) : option Z :=
  let n := nat_of_ascii c in
  if (48 <=? n) && (n <=? 57) then Some (Z.of_nat (n - 48)) else None.

Fixpoint digits (acc : Z) (count : nat) (s : string) : Z * nat * string :=
  match s with
  | String c rest =>
      match digit_of c with
      | Some d => digits (10 * acc + d) (S count) rest
      | None => (acc, count, s)
      end
  | EmptyString => (acc, count, s)
  end.

(** The binary64 nearest to [m * 10 ^ d] (ties to even). For a negative
    [d] the quotient is computed with 64 bits to spare and a sticky bit. *)
Definition round_decimal (m d : Z) : float :=
  if (0 <=? d)%Z then SF2Prim (binary_normalize prec emax (m * 10 ^ d) 0 false)
  else
    let den := (10 ^ (- d))%Z in
    let s := (Z.log2 den + 66)%Z in
    let '(q, r) := Z.div_eucl (m * 2 ^ s) den in
    let sticky := if (r =? 0)%Z then 0%Z else 1%Z in
    SF2Prim (binary_normalize prec emax (2 * q + sticky) (- s - 1) false).

(** Unary [+] on a string, for an optionally signed decimal literal
    [digits (. digits)? ([eE] [+-]? digits)?]; every other string reads as
    NaN here (JS reads a few more forms, such as hexadecimal literals and
    [Infinity], which the tokenizer's number pattern never yields). *)
Definition exponent_of (s : string) : option Z :=
  match s with
  | EmptyString => Some 0%Z
  | String c rest =>
      if (Ascii.eqb c "e" || Ascii.eqb c "E")%char then
        let '(neg, rest) :=
          match rest with
          | String "-"%char r => (true, r)
          | String "+"%char r => (false, r)
          | _ => (false, rest)
          end in
        match digits 0 0 rest with
        | (e, S _, EmptyString) => Some (if neg then (- e)%Z else e)
        | _ => None
        end
      else None
  end.

Definition of_unsigned (s : string) : option float :=
  match digits 0 0 s with
  | (_, O, _) => None
  | (i, S _, rest) =>
      let '(m, k, rest) :=
        match rest with
        | String "."%char r =>
            match digits i 0 r with
            | (_, O, _) => (i, O, rest)
            | (m, k, rest') => (m, k, rest')
            end
        | _ => (i, O, rest)
        end in
      match exponent_of rest with
      | Some e => Some (round_decimal m (e - Z.of_nat k))
      | None => None
      end
  end.

Definition of_string (s : string) : float :=
  match s with
  | String "-"%char r =>
      match of_unsigned r with Some f => PrimFloat.opp f | None => nan end
  | String "+"%char r =>
      match of_unsigned r with Some f => f | None => nan end
  | _ => match of_unsigned s with Some f => f | None => nan end
  end.

(** The integer a float denotes, when it denotes one. *)
Definition to_Z (f : float) : option Z :=
  match Prim2SF f with
  | S754_zero _ => Some 0%Z
  | S754_finite s m e =>
      let v :=
        if (0 <=? e)%Z then Some (Z.pos m * 2 ^ e)%Z
        else if (Z.pos m mod 2 ^ (- e) =? 0)%Z then Some (Z.pos m / 2 ^ (- e))%Z
        else None in
      if s then Z.opp <$> v else v
  | _ => None
  end.

(** [a ** b]. ECMAScript leaves the result "implementation-approximated";
    it is 1 for a zero exponent, and engines return the exact power
    when a non-zero integer base is raised to a positive integer exponent
    and the power stays below 2^53; that much is fixed here. The
    approximation used everywhere else is the parameter [approx]. *)
Definition pow (approx : float -> float -> float) (l r : float) : float :=
  match to_Z l, to_Z r with
  | Some b, Some e =>
      if (e =? 0)%Z then 1%float
      else if negb (b =? 0)%Z && (0 <? e)%Z && (e <=? 64)%Z
              && (Z.abs (b ^ e) <? 2 ^ 53)%Z
      then SF2Prim (binary_normalize prec emax (b ^ e) 0 false)
      else approx l r
  | _, _ => approx l r
  end.

Definition model (approx : float -> float -> float) : JSNumber := {|
  num := float;
  num_add := PrimFloat.add;
  num_neg := PrimFloat.opp;
  num_mul := PrimFloat.mul;
  num_div := PrimFloat.div;
  num_pow := pow approx;
  num_zero := 0%float;
  num_one := 1%float;
  num_of_string := of_string
|}.

End Float64.

(** ** Kinds, exceptions and outcomes *)

Inductive _Kind :=
| numberLiteral | opAdd | opSubtract | opMultiply | opDivide | opPower
| identifier | opAssign | openBracket | closeBracket.

#[global] Instance _Kind_eq_dec : EqDecision _Kind.
Proof. solve_decision. Defined.

Definition kindToString (kind : _Kind) : string :=
  match kind with
  | numberLiteral => "number" | opAdd => "add" | opSubtract => "subtract"
  | opMultiply => "multiply" | opDivide => "divide" | opPower => "power"
  | identifier => "identifier" | opAssign => "assign"
  | openBracket => "openBracket" | closeBracket => "closeBracket"
  end.

(** What a [throw] carries. [TypeError] is the host's own exception: a
    property read on [null] or [undefined], or a call of [undefined]. *)
Inductive exception :=
| CalculationException (message : string)
| CalculationParseException (message : string) (buffer : option string)
                            (offset : option nat)
| TypeError.

(** A computation returns, throws, or leaves the model: [Unmodelled] stands
    for an exhausted recursion budget, a context index that names no object,
    and an opcode whose payload has a type the source never stores there. *)
Inductive outcome (A : Type) :=
| Ok (a : A)
| Throw (e : exception)
| Unmodelled.
Arguments Ok {A} a.
Arguments Throw {A} e.
Arguments Unmodelled {A}.

Definition bindO {A B} (m : outcome A) (k : A -> outcome B) : outcome B :=
  match m with
  | Ok a => k a
  | Throw e => Throw e
  | Unmodelled => Unmodelled
  end.

Declare Scope parse_scope.
Delimit Scope parse_scope with parse.
Declare Scope exec_scope.
Delimit Scope exec_scope with exec.
Notation "'let!' x := m 'in' k" := (bindO m (fun x => k))
  (at level 10, x pattern, m at level 100, k at level 200) : parse_scope.

(** [Array.prototype.pop]: the last element and the array without it. *)
Definition pop_last {A} (l : list A) : option (list A * A) :=
  match rev l with
  | [] => None
  | x :: r => Some (rev r, x)
  end.

(** ** Strings and patterns *)

Fixpoint string_drop (n : nat) (s : string) : string :=
  match n, s with
  | S n, String _ rest => string_drop n rest
  | _, _ => s
  end.

(** [buffer.startsWith(symbol, i)]. *)
Definition startsWith (buffer symbol : string) (i : nat) : bool :=
  String.prefix symbol (string_drop i buffer).

(** A template literal prints [null] as the text null. *)
Definition template (value : option string) : string :=
  match value with
  | Some s => s
  | None => "null"
  end.

Definition string_of_nat (n : nat) : string :=
  NilEmpty.string_of_uint (Nat.to_uint n).

(** The regular expressions of the source: character classes, sequence,
    ordered alternative, greedy option and greedy repetition of a class,
    matched by backtracking as the host does. *)
Inductive regex :=
| Chars (p : ascii -> bool)
| Seq (r1 r2 : regex)
| Alt (r1 r2 : regex)
| Opt (r : regex)
| StarChars (p : ascii -> bool).

Fixpoint star_chars (p : ascii -> bool) (s : string)
  (k : string -> option string) : option string :=
  match s with
  | String c rest =>
      if p c
      then match star_chars p rest k with
           | Some r => Some r
           | None => k s
           end
      else k s
  | EmptyString => k s
  end.

(** [regex_match r s k]: match [r] at the start of [s], then hand what is
    left to [k]; the result is the text left after the whole match. *)
Fixpoint regex_match (r : regex) (s : string)
  (k : string -> option string) : option string :=
  match r with
  | Chars p =>
      match s with
      | String c rest => if p c then k rest else None
      | EmptyString => None
      end
  | Seq r1 r2 => regex_match r1 s (fun s' => regex_match r2 s' k)
  | Alt r1 r2 =>
      match regex_match r1 s k with
      | Some x => Some x
      | None => regex_match r2 s k
      end
  | Opt r =>
      match regex_match r s k with
      | Some x => Some x
      | None => k s
      end
  | StarChars p => star_chars p s k
  end.

(** [re.exec(buffer)] for a sticky pattern with [re.lastIndex = i]: the text
    matched at [i], if any. *)
Definition exec (re : regex) (buffer : string) (lastIndex : nat) : option string :=
  let s := string_drop lastIndex buffer in
  match regex_match re s Some with
  | Some rest =>
      Some (substring lastIndex (String.length s - String.length rest) buffer)
  | None => None
  end.

Definition in_range (lo hi c : ascii) : bool :=
  (nat_of_ascii lo <=? nat_of_ascii c) && (nat_of_ascii c <=? nat_of_ascii hi).

Definition is_char (a c : ascii) : bool := Ascii.eqb a c.

Definition digit : ascii -> bool := in_range "0" "9".

Definition identifier_start (c : ascii) : bool :=
  is_char "_" c || in_range "a" "z" c || in_range "A" "Z" c.

Definition identifier_part (c : ascii) : bool :=
  identifier_start c || digit c.

(** The number pattern of [_patternTokens] (flag y): [0], or a digit from
    1 to 9 and any digits; then, optionally, a dot and one digit or more;
    then, optionally, [e] or [E], an optional sign and one digit or more. *)
Definition number_pattern : regex :=
  Seq (Alt (Chars (is_char "0"))
           (Seq (Chars (in_range "1" "9")) (StarChars digit)))
 (Seq (Opt (Seq (Chars (is_char ".")) (Seq (Chars digit) (StarChars digit))))
      (Opt (Seq (Chars (fun c => is_char "e" c || is_char "E" c))
           (Seq (Opt (Chars (fun c => is_char "+" c || is_char "-" c)))
           (Seq (Chars digit) (StarChars digit)))))).

(** The identifier pattern of [_patternTokens] (flag y): a letter or [_],
    then any letters, digits and [_]. *)
Definition identifier_pattern : regex :=
  Seq (Chars identifier_start) (StarChars identifier_part).

Definition _patternTokens : list (_Kind * regex) :=
  [(numberLiteral, number_pattern); (identifier, identifier_pattern)].

Section Calculator.
Context {N : JSNumber}.

(** ** Tokens, opcodes, stack elements *)

(** The [value] of an opcode: [null], a Number or a string. *)
Inductive OpValue :=
| VNull
| VNumber (n : num)
| VString (s : string).

Record _Token := { token_kind : _Kind; token_value : option string }.

Record _Opcode := { opcode_kind : _Kind; opcode_value : OpValue }.

(** A context object is named by its index in the store. *)
Definition ctx_ref := nat.

Inductive _StackElement :=
| _Literal (_value : num)
| _VariableReference (name : string) (context : ctx_ref).

(** ** Calculation contexts *)

Record _DefaultCalculationContext := {
  default_stack : list _StackElement;
  _registers : gmap string num
}.

Record _OptimizationContext := {
  optimization_stack : list _StackElement;
  _popped : list _StackElement;
  _registerAccess : bool
}.

Inductive CalculationContext :=
| Default (c : _DefaultCalculationContext)
| Optimization (c : _OptimizationContext).

Definition heap := list CalculationContext.

(** The state and exception monad of the stack machine. The store is
    returned with a thrown exception as well: what was written before the
    failure stays written. *)
Definition M (A : Type) := heap -> outcome A * heap.

Definition ret {A} (a : A) : M A := fun h => (Ok a, h).
Definition throw {A} (e : exception) : M A := fun h => (Throw e, h).
Definition unmodelled {A} : M A := fun h => (Unmodelled, h).
Definition bindM {A B} (m : M A) (k : A -> M B) : M B := fun h =>
  match m h with
  | (Ok a, h') => k a h'
  | (Throw e, h') => (Throw e, h')
  | (Unmodelled, h') => (Unmodelled, h')
  end.

Notation "'let!' x := m 'in' k" := (bindM m (fun x => k))
  (at level 10, x pattern, m at level 100, k at level 200) : exec_scope.
Notation "'do!' m 'in' k" := (bindM m (fun _ => k))
  (at level 10, m at level 100, k at level 200) : exec_scope.

Definition _stack (c : CalculationContext) : list _StackElement :=
  match c with
  | Default d => default_stack d
  | Optimization o => optimization_stack o
  end.

Definition with_stack (c : CalculationContext) (s : list _StackElement)
  : CalculationContext :=
  match c with
  | Default d => Default {| default_stack := s; _registers := _registers d |}
  | Optimization o =>
      Optimization {| optimization_stack := s; _popped := _popped o;
                      _registerAccess := _registerAccess o |}
  end.

(** [_StackElement.bind(context)]. The reference that comes back keeps
    [this.context]; the argument is not used. *)
Definition bind (e : _StackElement) (context : ctx_ref) : _StackElement :=
  match e with
  | _Literal v => _Literal v
  | _VariableReference name this_context => _VariableReference name this_context
  end.

Local Open Scope exec_scope.

(** [_StackCalculationContext.popStack]: [this._stack.pop() || null]. *)
Definition super_popStack (this : ctx_ref) : M (option _StackElement) := fun h =>
  match h !! this with
  | None => (Unmodelled, h)
  | Some c =>
      match pop_last (_stack c) with
      | None => (Ok None, h)
      | Some (s, e) => (Ok (Some e), <[this := with_stack c s]> h)
      end
  end.

(** [_StackCalculationContext.pushStack]:
    [this._stack.push(newElement.bind(this))]. *)
Definition super_pushStack (this : ctx_ref) (newElement : _StackElement) : M unit :=
  fun h =>
  match h !! this with
  | None => (Unmodelled, h)
  | Some c =>
      (Ok tt, <[this := with_stack c (_stack c ++ [bind newElement this])]> h)
  end.

(** Reading and updating the fields of an optimization context. *)
Definition get_optimization (this : ctx_ref) : M _OptimizationContext := fun h =>
  match h !! this with
  | Some (Optimization o) => (Ok o, h)
  | _ => (Unmodelled, h)
  end.

Definition set_registerAccess (this : ctx_ref) (b : bool) : M unit := fun h =>
  match h !! this with
  | Some (Optimization o) =>
      (Ok tt, <[this := Optimization {| optimization_stack := optimization_stack o;
                                        _popped := _popped o;
                                        _registerAccess := b |}]> h)
  | _ => (Unmodelled, h)
  end.

Definition set_popped (this : ctx_ref) (p : list _StackElement) : M unit := fun h =>
  match h !! this with
  | Some (Optimization o) =>
      (Ok tt, <[this := Optimization {| optimization_stack := optimization_stack o;
                                        _popped := p;
                                        _registerAccess := _registerAccess o |}]> h)
  | _ => (Unmodelled, h)
  end.

Definition popStack (this : ctx_ref) : M (option _StackElement) := fun h =>
  match h !! this with
  | None => (Unmodelled, h)
  | Some (Default _) => super_popStack this h
  | Some (Optimization _) =>
      (let! result := super_popStack this in
       match result with
       | Some e =>
           let! o := get_optimization this in
           do! set_popped this (_popped o ++ [e]) in
           ret result
       | None => ret result
       end) h
  end.

Definition pushStack (this : ctx_ref) (newElement : _StackElement) : M unit := fun h =>
  match h !! this with
  | None => (Unmodelled, h)
  | Some (Default _) => super_pushStack this newElement h
  | Some (Optimization o) =>
      (let! elementToPush :=
         (if _registerAccess o
          then do! set_registerAccess this false in
               ret (_VariableReference "**unknown**" this)
          else ret newElement) in
       do! set_popped this [] in
       super_pushStack this elementToPush) h
  end.

Definition getRegister (this : ctx_ref) (name : string) : M (option num) := fun h =>
  match h !! this with
  | None => (Unmodelled, h)
  | Some (Default d) => (Ok (_registers d !! name), h)
  | Some (Optimization _) =>
      (do! set_registerAccess this true in ret (Some num_one)) h
  end.

Definition setRegister (this : ctx_ref) (name : string) (value : num) : M unit :=
  fun h =>
  match h !! this with
  | None => (Unmodelled, h)
  | Some (Default d) =>
      (Ok tt, <[this := Default {| default_stack := default_stack d;
                                   _registers := <[name := value]> (_registers d) |}]> h)
  | Some (Optimization _) => set_registerAccess this true h
  end.

(** [newCalculationContext()]: a fresh default context. *)
Definition newCalculationContext : M ctx_ref := fun h =>
  (Ok (length h), h ++ [Default {| default_stack := []; _registers := ∅ |}]).

(** ** Stack elements *)

(** The [value] getter: a literal's number, or the register of the
    reference's context, [?? 0]. *)
Definition get_value (e : _StackElement) : M num :=
  match e with
  | _Literal v => ret v
  | _VariableReference name context =>
      let! r := getRegister context name in
      ret (default num_zero r)
  end.

(** The [value] setter. *)
Definition set_value (e : _StackElement) (val : num) : M unit :=
  match e with
  | _Literal _ => throw (CalculationException "You can't set a value to a literal")
  | _VariableReference name context => setRegister context name val
  end.

Definition element_toOpcode (e : _StackElement) : _Opcode :=
  match e with
  | _Literal v => {| opcode_kind := numberLiteral; opcode_value := VNumber v |}
  | _VariableReference name _ =>
      {| opcode_kind := identifier; opcode_value := VString name |}
  end.

(** [n.popStack().value]: reading [value] from [null] is a [TypeError]. *)
Definition popStack_value (n : ctx_ref) : M num :=
  let! e := popStack n in
  match e with
  | Some e => get_value e
  | None => throw TypeError
  end.

(** ** Kind definitions *)

Record _KindDefinition := {
  kind : _Kind;
  symbol : option string;
  perform : option (_Opcode -> ctx_ref -> M unit);
  _toOpcodeOverride : option (_Token -> _Opcode)
}.

Definition value_of_token (value : option string) : OpValue :=
  match value with
  | Some s => VString s
  | None => VNull
  end.

Definition KindDefinition_toOpcode (this : _KindDefinition) (token : _Token)
  : _Opcode :=
  match _toOpcodeOverride this with
  | Some override => override token
  | None => {| opcode_kind := token_kind token;
               opcode_value := value_of_token (token_value token) |}
  end.

Definition _tokenDefinitions : list _KindDefinition := [
  {| kind := opAdd; symbol := Some "+";
     perform := Some (fun op n =>
       let! a := popStack_value n in
       let! b := popStack_value n in
       pushStack n (_Literal (num_add a b)));
     _toOpcodeOverride := None |};
  {| kind := opSubtract; symbol := Some "-";
     perform := Some (fun op n =>
       let! a := popStack_value n in
       let! b := popStack_value n in
       pushStack n (_Literal (num_add (num_neg a) b)));
     _toOpcodeOverride := None |};
  {| kind := opMultiply; symbol := Some "*";
     perform := Some (fun op n =>
       let! a := popStack_value n in
       let! b := popStack_value n in
       pushStack n (_Literal (num_mul a b)));
     _toOpcodeOverride := None |};
  {| kind := opDivide; symbol := Some "/";
     perform := Some (fun op n =>
       let! a := popStack_value n in
       let! b := popStack_value n in
       pushStack n (_Literal (num_div b a)));
     _toOpcodeOverride := None |};
  {| kind := opPower; symbol := Some "**";
     perform := Some (fun op n =>
       let! right' := popStack_value n in
       let! left' := popStack_value n in
       pushStack n (_Literal (num_pow left' right')));
     _toOpcodeOverride := None |};
  {| kind := numberLiteral; symbol := None;
     perform := Some (fun op n =>
       match opcode_value op with
       | VNumber v => pushStack n (_Literal v)
       | _ => unmodelled
       end);
     _toOpcodeOverride := Some (fun token =>
       {| opcode_kind := token_kind token;
          opcode_value :=
            VNumber (match token_value token with
                     | Some s => num_of_string s
                     | None => num_zero
                     end) |}) |};
  {| kind := identifier; symbol := None;
     perform := Some (fun op n =>
       match opcode_value op with
       | VString name => pushStack n (_VariableReference name n)
       | _ => unmodelled
       end);
     _toOpcodeOverride := None |};
  {| kind := opAssign; symbol := Some "=";
     perform := Some (fun op n =>
       let! value := popStack_value n in
       let! target := popStack n in
       do! match target with
           | Some target => set_value target value
           | None => throw TypeError
           end in
       pushStack n (_Literal value));
     _toOpcodeOverride := None |};
  {| kind := openBracket; symbol := Some "(";
     perform := None; _toOpcodeOverride := None |};
  {| kind := closeBracket; symbol := Some ")";
     perform := None; _toOpcodeOverride := None |}
].

(** [_kindDefs.get(k)]; the kinds of [_tokenDefinitions] are distinct. *)
Definition _kindDefs (k : _Kind) : option _KindDefinition :=
  find (fun def => bool_decide (kind def = k)) _tokenDefinitions.

(** [_startCharacterTokens.get(c)]: the definitions whose symbol starts with
    [c], in the order of [_kindDefs]; undefined when there is none. *)
Definition _startCharacterTokens (c : ascii) : option (list _KindDefinition) :=
  match List.filter (fun def =>
          match symbol def with
          | Some (String s _) => Ascii.eqb s c
          | _ => false
          end) _tokenDefinitions with
  | [] => None
  | a => Some a
  end.

Definition Token_toOpcode (this : _Token) : outcome _Opcode :=
  match _kindDefs (token_kind this) with
  | Some def => Ok (KindDefinition_toOpcode def this)
  | None => Throw TypeError
  end.

Definition Opcode_perform (this : _Opcode) (context : ctx_ref) : M unit :=
  match _kindDefs (opcode_kind this) with
  | Some def =>
      match perform def with
      | Some f => f this context
      | None => throw TypeError
      end
  | None => throw TypeError
  end.

Local Close Scope exec_scope.
Local Open Scope parse_scope.

(** ** Tokenizer *)

Definition symbol_length (def : _KindDefinition) : nat :=
  match symbol def with
  | Some s => String.length s
  | None => 0
  end.

Definition _findToken (candidates : option (list _KindDefinition))
  (buffer : string) (i : nat) : option _KindDefinition :=
  match candidates with
  | None => None
  | Some candidates =>
      fold_left (fun found def =>
        match symbol def with
        | Some (String _ _ as sym) =>
            if startsWith buffer sym i &&
               match found with
               | None => true
               | Some m => symbol_length m <? String.length sym
               end
            then Some def
            else found
        | _ => found
        end) candidates None
  end.

(** The inner loop over [_patternTokens.keys()]: the first pattern that
    matches at [i], with the text it matched. *)
Fixpoint first_pattern (patterns : list (_Kind * regex)) (buffer : string)
  (i : nat) : option (_Kind * string) :=
  match patterns with
  | [] => None
  | (k, re) :: patterns =>
      match exec re buffer i with
      | Some m => Some (k, m)
      | None => first_pattern patterns buffer i
      end
  end.

Definition strange_character (buffer : string) (i : nat) (c : ascii) : exception :=
  CalculationParseException
    ("Found a strange character in the source at " +:+ string_of_nat i
       +:+ ": " +:+ String c EmptyString)
    (Some buffer) (Some i).

(** The loop of [_tokenize] from index [i]; every turn moves [i] forward,
    so [String.length buffer] turns are enough. The tokens are what
    [Array.from] collects from the generator. *)
Fixpoint tokenize_from (fuel : nat) (buffer : string) (i : nat)
  : outcome (list _Token) :=
  match String.get i buffer with
  | None => Ok []
  | Some c =>
      match fuel with
      | 0 => Unmodelled
      | S fuel =>
          if Ascii.eqb c " " then tokenize_from fuel buffer (i + 1)
          else
            let candidates := _startCharacterTokens c in
            match _findToken candidates buffer i with
            | None =>
                match first_pattern _patternTokens buffer i with
                | Some (k, m) =>
                    let token := {| token_kind := k; token_value := Some m |} in
                    let! rest :=
                      tokenize_from fuel buffer (i + (String.length m - 1) + 1) in
                    Ok (token :: rest)
                | None => Throw (strange_character buffer i c)
                end
            | Some single =>
                let token := {| token_kind := kind single; token_value := None |} in
                let! rest :=
                  tokenize_from fuel buffer (i + (symbol_length single - 1) + 1) in
                Ok (token :: rest)
            end
      end
  end.

Definition _tokenize (buffer : string) : outcome (list _Token) :=
  tokenize_from (String.length buffer) buffer 0.

(** ** Compiler *)

(** The arrays a compile pass works on, and the cursor it returns. *)
Definition parsed : Type := list _Opcode * list _Token * nat.

Definition _valueExpression
  (top : list _Opcode -> list _Token -> nat -> outcome parsed)
  (ops : list _Opcode) (tokens : list _Token) (cursor : nat) : outcome parsed :=
  match tokens !! cursor with
  | None => Throw TypeError
  | Some current =>
      if decide (token_kind current = openBracket) then
        let! (ops, tokens, currentCursor) := top ops tokens (cursor + 1) in
        match tokens !! currentCursor with
        | None => Throw TypeError
        | Some closing =>
            if decide (token_kind closing <> closeBracket)
            then Throw (CalculationParseException "Ouch, no closing bracket" None None)
            else Ok (ops, tokens, currentCursor + 1)
        end
      else if decide (token_kind current = identifier) then
        let! op := Token_toOpcode current in
        Ok (ops ++ [op], tokens, cursor + 1)
      else
        let currentCursor :=
          if decide (token_kind current = opSubtract) then cursor + 1 else cursor in
        match tokens !! currentCursor with
        | None => Throw TypeError
        | Some operand =>
            let current :=
              {| token_kind := token_kind current;
                 token_value :=
                   Some ((if decide (token_kind current = opSubtract)
                          then "-" else "")
                         +:+ template (token_value operand)) |} in
            let tokens := <[cursor := current]> tokens in
            let! op := Token_toOpcode current in
            Ok (ops ++ [op], tokens, currentCursor + 1)
        end
  end.

#[warning="-register-all"]
Inductive _PrecedenceGroup :=
| PrecedenceGroup (kinds : list _Kind) (parent : option _PrecedenceGroup).

Definition kinds_has (kinds : list _Kind) (k : _Kind) : bool :=
  bool_decide (k ∈ kinds).

Definition halfExpression
  (expression : list _Opcode -> list _Token -> nat -> option _Token -> outcome parsed)
  (kinds : list _Kind)
  (ops : list _Opcode) (tokens : list _Token) (cursor : nat) : outcome parsed :=
  match tokens !! cursor with
  | None => Throw TypeError
  | Some opToken =>
      if kinds_has kinds (token_kind opToken)
      then expression ops tokens (cursor + 1) (Some opToken)
      else Ok (ops, tokens, cursor)
  end.

Definition over (this : _PrecedenceGroup) (kinds : list _Kind) : _PrecedenceGroup :=
  PrecedenceGroup kinds (Some this).

Definition _expression : _PrecedenceGroup :=
  over (over (over (PrecedenceGroup [opPower] None)
                   [opMultiply; opDivide])
             [opAdd; opSubtract])
       [opAssign].

(** [_PrecedenceGroup.expression]. A call into the parent group works on a
    smaller group; the two calls that do not (the one through
    [halfExpression] and the one through [_valueExpression]) move the cursor
    forward and take one unit of [fuel]. *)
Fixpoint expression (fuel : nat) (this : _PrecedenceGroup)
  (ops : list _Opcode) (tokens : list _Token) (cursor : nat)
  (lastTokenOp : option _Token) {struct fuel} : outcome parsed :=
  match fuel with
  | 0 => Unmodelled
  | S fuel =>
      (fix expression_in (this : _PrecedenceGroup)
         (ops : list _Opcode) (tokens : list _Token) (cursor : nat)
         (lastTokenOp : option _Token) {struct this} : outcome parsed :=
         match this with
         | PrecedenceGroup kinds parent =>
             let! (ops, tokens, afterTerm) :=
               match parent with
               | Some parent => expression_in parent ops tokens cursor None
               | None =>
                   _valueExpression
                     (fun ops tokens cursor =>
                        expression fuel _expression ops tokens cursor None)
                     ops tokens cursor
               end in
             let! ops :=
               match lastTokenOp with
               | Some lastTokenOp =>
                   let! op := Token_toOpcode lastTokenOp in Ok (ops ++ [op])
               | None => Ok ops
               end in
             if afterTerm <? length tokens
             then halfExpression (expression fuel this) kinds ops tokens afterTerm
             else Ok (ops, tokens, afterTerm)
         end) this ops tokens cursor lastTokenOp
  end.

(** [_parseTokens]; a pass from a cursor within the tokens needs no more
    than one unit of fuel per token and one to start. *)
Definition _parseTokens (ops : list _Opcode) (tokens : list _Token) (cursor : nat)
  : outcome parsed :=
  expression (S (length tokens)) _expression ops tokens cursor None.

(** ** Program *)

Record Program := { _ops : list _Opcode }.

(** [new Program(source)] for a string. *)
Definition newProgram (source : string) : outcome Program :=
  let! tokens := _tokenize source in
  let! (ops, _, _) := _parseTokens [] tokens 0 in
  Ok {| _ops := ops |}.

Definition numOpcodes (this : Program) : nat := length (_ops this).

Local Close Scope parse_scope.
Local Open Scope exec_scope.

Fixpoint perform_all (ops : list _Opcode) (context : ctx_ref) : M unit :=
  match ops with
  | [] => ret tt
  | op :: ops => do! Opcode_perform op context in perform_all ops context
  end.

(** [Program.execute(context)]; without a context a fresh one is made. *)
Definition execute (this : Program) (context : option ctx_ref) : M num :=
  let! realContext :=
    match context with
    | Some c => ret c
    | None => newCalculationContext
    end in
  do! perform_all (_ops this) realContext in
  popStack_value realContext.

(** ** Optimizer *)

(** [new _OptimizationContext()]. *)
Definition new_OptimizationContext : M ctx_ref := fun h =>
  (Ok (length h),
   h ++ [Optimization {| optimization_stack := []; _popped := [];
                         _registerAccess := false |}]).

Definition stackDepth (this : ctx_ref) : M nat :=
  let! o := get_optimization this in ret (length (optimization_stack o)).

Definition stackIsNotEmpty (this : ctx_ref) : M bool :=
  let! o := get_optimization this in
  ret (negb (length (optimization_stack o) =? 0)).

(** [this._stack[this._stack.length - 1]], undefined on an empty stack. *)
Definition _top (this : ctx_ref) : M (option _StackElement) :=
  let! o := get_optimization this in ret (last (optimization_stack o)).

Definition topIsLiteral (this : ctx_ref) : M bool :=
  let! top := _top this in
  ret match top with
      | Some (_Literal _) => true
      | _ => false
      end.

Definition topValue (this : ctx_ref) : M num :=
  let! top := _top this in
  match top with
  | Some e => get_value e
  | None => throw TypeError
  end.

(** [this._stack.slice(start)]. *)
Definition stackSince (this : ctx_ref) (start : nat) : M (list _StackElement) :=
  let! o := get_optimization this in ret (drop start (optimization_stack o)).

(** [stackSave.isNotEmpty]: a JS array has [length] but no property named
    [isNotEmpty], and none is defined anywhere in the source, so the read
    gives [undefined], which counts as false in a condition. *)
Definition isNotEmpty (stackSave : list _StackElement) : bool := false.

(** One turn of the loop of [optimize], on [newOps] and [stackBound];
    [stackSave] is assigned afresh at the start of every turn. *)
Definition optimize_turn (context : ctx_ref) (op : _Opcode)
  (newOps : list _Opcode) (stackBound : nat) : M (list _Opcode * nat) :=
  let! nonEmpty := stackIsNotEmpty context in
  let! literal := (if nonEmpty then topIsLiteral context else ret false) in
  let! stackSave :=
    (if nonEmpty && literal
     then let! saved := stackSince context stackBound in ret (Some saved)
     else ret None) in
  do! Opcode_perform op context in
  let! literal := topIsLiteral context in
  if negb literal then
    let newOps :=
      match stackSave with
      | Some saved =>
          if isNotEmpty saved then newOps ++ map element_toOpcode saved
          else newOps
      | None => newOps
      end in
    let newOps := newOps ++ [op] in
    let! depth := stackDepth context in
    ret (newOps, depth)
  else ret (newOps, stackBound).

Fixpoint optimize_loop (context : ctx_ref) (ops : list _Opcode)
  (newOps : list _Opcode) (stackBound : nat) : M (list _Opcode * nat) :=
  match ops with
  | [] => ret (newOps, stackBound)
  | op :: ops =>
      let! (newOps, stackBound) := optimize_turn context op newOps stackBound in
      optimize_loop context ops newOps stackBound
  end.

Definition optimize_with (context : ctx_ref) (this : Program) : M Program :=
  let! (newOps, _) := optimize_loop context (_ops this) [] 0 in
  let! literal := topIsLiteral context in
  if literal then
    let! value := topValue context in
    ret {| _ops := [{| opcode_kind := numberLiteral;
                       opcode_value := VNumber value |}] |}
  else if length newOps <? length (_ops this) then ret {| _ops := newOps |}
  else ret this.

(** [Program.optimize()]. The optimization context is a new object that
    nothing else refers to and that refers to nothing else, so the call runs
    in a store of its own. *)
Definition optimize (this : Program) : outcome Program :=
  fst ((let! context := new_OptimizationContext in
        optimize_with context this) []).

End Calculator.

Notation "'let!' x := m 'in' k" := (bindM m (fun x => k))
  (at level 10, x pattern, m at level 100, k at level 200) : exec_scope.
Notation "'do!' m 'in' k" := (bindM m (fun _ => k))
  (at level 10, m at level 100, k at level 200) : exec_scope.

(** ** Notions used in the statements *)

Section Notions.
Context {N : JSNumber}.

(** Where the loop of [_tokenize] continues after index [i], when [i] holds
    a space or the start of a token. *)
Definition next_index (buffer : string) (i : nat) : option nat :=
  match String.get i buffer with
  | None => None
  | Some c =>
      if Ascii.eqb c " " then Some (i + 1)
      else
        match _findToken (_startCharacterTokens c) buffer i with
        | Some single => Some (i + (symbol_length single - 1) + 1)
        | None =>
            match first_pattern _patternTokens buffer i with
            | Some (_, m) => Some (i + (String.length m - 1) + 1)
            | None => None
            end
        end
  end.

(** The indices at which the loop of [_tokenize] starts a turn. *)
Inductive reaches (buffer : string) : nat -> Prop :=
| reaches_start : reaches buffer 0
| reaches_next i j :
    reaches buffer i -> next_index buffer i = Some j -> reaches buffer j.

(** The kinds of a precedence group and of the groups above it. *)
Fixpoint group_kinds (g : _PrecedenceGroup) : list _Kind :=
  match g with
  | PrecedenceGroup kinds parent =>
      kinds ++ match parent with
               | Some parent => group_kinds parent
               | None => []
               end
  end.

(** A binary operator is a kind of one of the groups of [_expression]. *)
Definition is_operator (k : _Kind) : bool :=
  bool_decide (k ∈ group_kinds _expression).

(** Tokens that cannot continue an expression: none, or tokens the first of
    which is no binary operator. *)
Definition trailing (extra : list _Token) : Prop :=
  match extra with
  | [] => True
  | t :: _ => is_operator (token_kind t) = false
  end.

(** The classes of a pattern all refuse the character [c]. *)
Fixpoint rejects (re : regex) (c : ascii) : bool :=
  match re with
  | Chars p | StarChars p => negb (p c)
  | Seq r1 r2 | Alt r1 r2 => rejects r1 c && rejects r2 c
  | Opt r => rejects r c
  end.

(** A text at which a match of [re] cannot go on: the empty text, or one
    whose first character every class of [re] refuses. *)
Definition stops (re : regex) (t : string) : Prop :=
  match t with
  | EmptyString => True
  | String c _ => rejects re c = true
  end.

(** The text of an operand: a text that the number pattern, or the
    identifier pattern, matches as a whole. *)
Definition is_operand (k : _Kind) (text : string) : Prop :=
  match k with
  | numberLiteral => regex_match number_pattern text Some = Some EmptyString
  | identifier => regex_match identifier_pattern text Some = Some EmptyString
  | _ => False
  end.

(** The kinds of operand tokens. *)
Definition operand_kind (k : _Kind) : Prop := k = numberLiteral \/ k = identifier.

(** The token the tokenizer makes of an operand, and the opcode the
    compiler makes of that token. *)
Definition operand_token (k : _Kind) (text : string) : _Token :=
  {| token_kind := k; token_value := Some text |}.

Definition operand_of (k : _Kind) (text : string) : _Opcode :=
  {| opcode_kind := k;
     opcode_value := if decide (k = numberLiteral)
                     then VNumber (num_of_string text)
                     else VString text |}.

(** Opcodes that touch no register: every kind but [identifier] and
    [opAssign]. *)
Definition touches_no_register (op : _Opcode) : Prop :=
  opcode_kind op <> identifier /\ opcode_kind op <> opAssign.

(** A stack of literals. *)
Definition literals (vs : list num) : list _StackElement := map _Literal vs.

(** The two numbers a binary operator pops, the first popped first. *)
Definition pop2 (vs : list num) : option (list num * num * num) :=
  match pop_last vs with
  | Some (vs, a) =>
      match pop_last vs with
      | Some (vs, b) => Some (vs, a, b)
      | None => None
      end
  | None => None
  end.

Definition fold_binary (f : num -> num -> num) (vs : list num) : option (list num) :=
  match pop2 vs with
  | Some (vs, a, b) => Some (vs ++ [f a b])
  | None => None
  end.

(** What an opcode that touches no register does to a stack of numbers;
    [None] when it does not return. *)
Definition fold_opcode (op : _Opcode) (vs : list num) : option (list num) :=
  match opcode_kind op with
  | numberLiteral =>
      match opcode_value op with
      | VNumber v => Some (vs ++ [v])
      | _ => None
      end
  | opAdd => fold_binary (fun a b => num_add a b) vs
  | opSubtract => fold_binary (fun a b => num_add (num_neg a) b) vs
  | opMultiply => fold_binary (fun a b => num_mul a b) vs
  | opDivide => fold_binary (fun a b => num_div b a) vs
  | opPower => fold_binary (fun a b => num_pow b a) vs
  | _ => None
  end.

Fixpoint fold_opcodes (ops : list _Opcode) (vs : list num) : option (list num) :=
  match ops with
  | [] => Some vs
  | op :: ops =>
      match fold_opcode op vs with
      | Some vs => fold_opcodes ops vs
      | None => None
      end
  end.

(** The opcodes and tokens the statements name. *)
Definition Number (v : num) : _Opcode :=
  {| opcode_kind := numberLiteral; opcode_value := VNumber v |}.
Definition Identifier (name : string) : _Opcode :=
  {| opcode_kind := identifier; opcode_value := VString name |}.
Definition Operator (k : _Kind) : _Opcode :=
  {| opcode_kind := k; opcode_value := VNull |}.
Definition symbol_token (k : _Kind) : _Token :=
  {| token_kind := k; token_value := None |}.

(** What a compile pass that succeeded on [tokens] does on [tokens ++ extra]. *)
Definition extends (extra : list _Token)
  (f f' : list _Opcode -> list _Token -> nat -> outcome parsed) : Prop :=
  forall ops tokens cursor ops' tokens' cursor',
    f ops tokens cursor = Ok (ops', tokens', cursor') ->
    f' ops (tokens ++ extra) cursor = Ok (ops', tokens' ++ extra, cursor')
    /\ length tokens' = length tokens /\ cursor' <= length tokens.

(** A result of a pass from [cursor]: it throws, or it returns a cursor
    further on and within the tokens, whose number has not changed. *)
Definition within (tokens : list _Token) (cursor : nat) (r : outcome parsed) : Prop :=
  match r with
  | Ok (_, tokens', cursor') =>
      length tokens' = length tokens /\ cursor < cursor' <= length tokens
  | Throw _ => True
  | Unmodelled => False
  end.

(** The shape of the five arithmetic rules. *)
Definition binary (f : num -> num -> num) (n : ctx_ref) : M unit :=
  (let! a := popStack_value n in
   let! b := popStack_value n in
   pushStack n (_Literal (f a b)))%exec.

End Notions.

(** The binary64 model with any approximation of non-integer powers. *)
Definition binary64 (approx : float -> float -> float) : JSNumber :=
  Float64.model approx.

(** One such model, for the examples. *)
Definition binary64_nan : JSNumber := binary64 (fun _ _ => nan).

(** ** The registers of a context as a whole *)

Section Registers.
Context {N : JSNumber}.
Local Open Scope exec_scope.

(** [clearRegisters()]: the default context empties its map, the
    optimization context only notes the access. *)
Definition clearRegisters (this : ctx_ref) : M unit := fun h =>
  match h !! this with
  | None => (Unmodelled, h)
  | Some (Default d) =>
      (Ok tt, <[this := Default {| default_stack := default_stack d;
                                   _registers := ∅ |}]> h)
  | Some (Optimization _) => set_registerAccess this true h
  end.

(** The loop of [setRegisters] over [values.entries()]. *)
Fixpoint setRegisters_entries (this : ctx_ref) (entries : list (string * num))
  : M unit :=
  match entries with
  | [] => ret tt
  | (name, value) :: entries =>
      do! setRegister this name value in setRegisters_entries this entries
  end.

(** [setRegisters(values)]. A [Map] hands out its entries in the order of
    their insertion; the keys are distinct, so the order in which the
    entries are written does not show in the registers, and the entries are
    taken in the order of [map_to_list]. *)
Definition setRegisters (this : ctx_ref) (values : gmap string num) : M unit :=
  fun h =>
  match h !! this with
  | None => (Unmodelled, h)
  | Some (Default _) => setRegisters_entries this (map_to_list values) h
  | Some (Optimization _) => set_registerAccess this true h
  end.

(** [mergeInto(other)]: [other.setRegisters(this._registers)]. Only the
    default context has this method. *)
Definition mergeInto (this other : ctx_ref) : M unit := fun h =>
  match h !! this with
  | None => (Unmodelled, h)
  | Some (Default d) => setRegisters other (_registers d) h
  | Some (Optimization _) => (Throw TypeError, h)
  end.

End Registers.

(** ** The page *)

Section Page.
Context {N : JSNumber}.
Local Open Scope exec_scope.

(** [mergeInto(other)] as web/calculator.js has it: the loop over
    [this._registers.entries()] calls [other.setRegister] itself. *)
Definition mergeInto_web (this other : ctx_ref) : M unit := fun h =>
  match h !! this with
  | None => (Unmodelled, h)
  | Some (Default d) => setRegisters_entries other (map_to_list (_registers d)) h
  | Some (Optimization _) => (Throw TypeError, h)
  end.

(** What the handler of the Enter key computes with the text of the input
    line: it compiles the text, executes the program in the context of the
    page and stores the result in the register [last]. An exception ends the
    handler where it is thrown. The elements the handler adds to the page
    and the listing it logs hold no state of the calculator and are left
    out. *)
Definition on_enter (context : ctx_ref) (expression : string) : M num :=
  match newProgram expression with
  | Ok prog =>
      let! result := execute prog (Some context) in
      do! setRegister context "last" result in
      ret result
  | Throw e => throw e
  | Unmodelled => unmodelled
  end.

End Page.

(** ** More notions used in the statements *)

Section More_notions.
Context {N : JSNumber}.

(** A source without its spaces. *)
Fixpoint remove_spaces (s : string) : string :=
  match s with
  | EmptyString => EmptyString
  | String c rest =>
      if Ascii.eqb c " " then remove_spaces rest else String c (remove_spaces rest)
  end.

(** The characters a token stands for: the text of an operand, the symbol
    of the kind otherwise. *)
Definition token_text (t : _Token) : string :=
  match token_value t with
  | Some text => text
  | None =>
      match _kindDefs (token_kind t) with
      | Some def => default EmptyString (symbol def)
      | None => EmptyString
      end
  end.

Definition tokens_text (tokens : list _Token) : string :=
  foldr (fun t rest => token_text t +:+ rest) EmptyString tokens.

(** The number of groups between a group and the innermost one. *)
Fixpoint group_depth (g : _PrecedenceGroup) : nat :=
  match g with
  | PrecedenceGroup _ (Some parent) => S (group_depth parent)
  | PrecedenceGroup _ None => 0
  end.

(** How loosely an operator binds: the depth of the group of [g] or above
    that has the kind; 0 for the innermost group. *)
Fixpoint looseness_in (g : _PrecedenceGroup) (k : _Kind) : option nat :=
  match g with
  | PrecedenceGroup kinds parent =>
      if kinds_has kinds k then Some (group_depth g)
      else match parent with
           | Some parent => looseness_in parent k
           | None => None
           end
  end.

Definition looseness (k : _Kind) : nat := default 0 (looseness_in _expression k).

(** A pattern that can match the empty text. *)
Fixpoint nullable (re : regex) : bool :=
  match re with
  | Chars _ => false
  | Seq r1 r2 => nullable r1 && nullable r2
  | Alt r1 r2 => nullable r1 || nullable r2
  | Opt _ | StarChars _ => true
  end.

(** Every character of [s] is taken by some class of [re]. *)
Fixpoint accepted (re : regex) (s : string) : Prop :=
  match s with
  | EmptyString => True
  | String c rest => rejects re c = false /\ accepted re rest
  end.

(** A match takes a part [pre] of the text, made of characters of its
    classes, and hands the rest to the continuation. *)
Definition takes (re : regex) (s : string) (k : string -> option string)
  (r : string) : Prop :=
  exists pre rest, s = pre +:+ rest /\ accepted re pre
    /\ (nullable re = false -> pre <> EmptyString) /\ k rest = Some r.

(** The exceptions of a compile pass. *)
Definition compile_exception (e : exception) : Prop :=
  e = TypeError \/ e = CalculationParseException "Ouch, no closing bracket" None None.

(** A result of a pass from [cursor] on [ops], with [pending] operators to
    emit for tokens before [cursor]: the pass moves forward, leaves [ops] in
    place and adds at least one opcode and at most one for each token it
    passes and each pending operator. *)
Definition emits (ops : list _Opcode) (cursor pending : nat) (r : outcome parsed)
  : Prop :=
  match r with
  | Ok (ops', _, cursor') =>
      cursor < cursor'
      /\ exists new, ops' = ops ++ new
           /\ 1 <= length new <= cursor' - cursor + pending
  | Throw e => compile_exception e
  | Unmodelled => True
  end.

Definition pending (lastTokenOp : option _Token) : nat :=
  match lastTokenOp with
  | Some _ => 1
  | None => 0
  end.

(** A result of a pass on tokens that come after [pre]. *)
Definition shifted (pre : list _Token) (r : outcome parsed) : outcome parsed :=
  match r with
  | Ok (ops, tokens, cursor) => Ok (ops, pre ++ tokens, length pre + cursor)
  | Throw e => Throw e
  | Unmodelled => Unmodelled
  end.

(** A stack element that refers to no context but [n]. *)
Definition local_to (n : ctx_ref) (e : _StackElement) : Prop :=
  match e with
  | _Literal _ => True
  | _VariableReference _ context => context = n
  end.

(** No register is lost from [R] to [R']. *)
Definition keeps (R R' : gmap string num) : Prop :=
  forall name, is_Some (R !! name) -> is_Some (R' !! name).

(** A computation that, started in a store where the context [n] is a
    default context whose stack is local to [n], changes nothing but the
    stack and the registers of [n], keeps the stack local and loses no
    register; [Q] holds of what it returns. *)
Definition stays_in {A} (h : list CalculationContext) (n : nat) (Q : A -> Prop)
  (m : M A) : Prop :=
  forall s R, Forall (local_to n) s ->
    exists r s' R',
      m (<[n := Default {| default_stack := s; _registers := R |}]> h)
      = (r, <[n := Default {| default_stack := s'; _registers := R' |}]> h)
      /\ Forall (local_to n) s' /\ keeps R R'
      /\ match r with Ok a => Q a | _ => True end.

(** A stack element that refers to a register of the context [c]. *)
Definition refers_to (c : ctx_ref) (e : _StackElement) : Prop :=
  exists name, e = _VariableReference name c.

(** *** Expressions *)

(** Expressions: an operand, a binary operator between two expressions, an
    expression in brackets. *)
Inductive expr :=
| Operand (k : _Kind) (text : string)
| Binary (o : _Kind) (l r : expr)
| Bracketed (e : expr).

(** The tokens of an expression, from left to right. *)
Fixpoint tokens_of (e : expr) : list _Token :=
  match e with
  | Operand k text => [operand_token k text]
  | Binary o l r => tokens_of l ++ symbol_token o :: tokens_of r
  | Bracketed e =>
      symbol_token openBracket :: tokens_of e ++ [symbol_token closeBracket]
  end.

(** The opcodes of an expression: operands first, the operator last. *)
Fixpoint postfix (e : expr) : list _Opcode :=
  match e with
  | Operand k text => [operand_of k text]
  | Binary o l r => postfix l ++ postfix r ++ [Operator o]
  | Bracketed e => postfix e
  end.

(** How loosely the outermost operator of an expression binds, counted
    from 1; 0 for an operand and for brackets. *)
Definition rank (e : expr) : nat :=
  match e with
  | Binary o _ _ => S (looseness o)
  | _ => 0
  end.

(** An expression that needs no more brackets than it has: the left side
    of an operator binds at least as tightly as the operator, the right
    side more tightly. *)
Fixpoint well_formed (e : expr) : Prop :=
  match e with
  | Operand k _ => operand_kind k
  | Binary o l r =>
      is_operator o = true /\ well_formed l /\ well_formed r
      /\ rank l <= S (looseness o) /\ rank r <= looseness o
  | Bracketed e => well_formed e
  end.

(** An expression of operands and arithmetic operators. *)
Fixpoint arithmetic (e : expr) : Prop :=
  match e with
  | Operand k _ => operand_kind k
  | Binary o l r =>
      o ∈ [opAdd; opSubtract; opMultiply; opDivide; opPower]
      /\ arithmetic l /\ arithmetic r
  | Bracketed e => arithmetic e
  end.

(** The value of an arithmetic expression with the registers [R]. *)
Fixpoint eval (R : gmap string num) (e : expr) : num :=
  match e with
  | Operand k text =>
      if decide (k = numberLiteral) then num_of_string text
      else default num_zero (R !! text)
  | Binary o l r =>
      let a := eval R r in
      let b := eval R l in
      match o with
      | opAdd => num_add a b
      | opSubtract => num_add (num_neg a) b
      | opMultiply => num_mul a b
      | opDivide => num_div b a
      | opPower => num_pow b a
      | _ => num_zero
      end
  | Bracketed e => eval R e
  end.

(** What the opcodes of an expression leave on the stack of context [n]:
    a reference for an identifier, a literal otherwise. *)
Fixpoint result_element (n : ctx_ref) (R : gmap string num) (e : expr)
  : _StackElement :=
  match e with
  | Operand k text =>
      if decide (k = numberLiteral) then _Literal (num_of_string text)
      else _VariableReference text n
  | Binary _ _ _ => _Literal (eval R e)
  | Bracketed e => result_element n R e
  end.

(** A group and the groups further in. *)
Fixpoint ancestors (g : _PrecedenceGroup) : list _PrecedenceGroup :=
  g :: match g with
       | PrecedenceGroup _ (Some parent) => ancestors parent
       | PrecedenceGroup _ None => []
       end.

Definition kinds_of (g : _PrecedenceGroup) : list _Kind :=
  match g with PrecedenceGroup kinds _ => kinds end.

Definition inner_kinds (g : _PrecedenceGroup) : list _Kind :=
  match g with
  | PrecedenceGroup _ (Some parent) => group_kinds parent
  | PrecedenceGroup _ None => []
  end.

(** The first of the tokens [post], if any, is of none of the kinds [ks]. *)
Definition follows (ks : list _Kind) (post : list _Token) : Prop :=
  match post with
  | [] => True
  | t :: _ => token_kind t ∉ ks
  end.

(** The term of [expression]: the call into the parent group, or
    [_valueExpression]. *)
Definition term (fuel : nat) (g : _PrecedenceGroup)
  (ops : list _Opcode) (tokens : list _Token) (cursor : nat) : outcome parsed :=
  match g with
  | PrecedenceGroup _ (Some parent) =>
      expression (S fuel) parent ops tokens cursor None
  | PrecedenceGroup _ None =>
      _valueExpression
        (fun ops tokens cursor => expression fuel _expression ops tokens cursor None)
        ops tokens cursor
  end.

(** A chain: a first term and operators with further terms. *)
Fixpoint chain_tokens (first : expr) (rest : list (_Kind * expr)) : list _Token :=
  tokens_of first ++
  match rest with
  | [] => []
  | (o, next) :: rest => symbol_token o :: chain_tokens next rest
  end.

Definition operator_opcode (last : option _Kind) : list _Opcode :=
  match last with
  | Some o => [Operator o]
  | None => []
  end.

Fixpoint chain_postfix (last : option _Kind) (first : expr)
  (rest : list (_Kind * expr)) : list _Opcode :=
  postfix first ++ operator_opcode last ++
  match rest with
  | [] => []
  | (o, next) :: rest => chain_postfix (Some o) next rest
  end.

(** An expression as a chain of the operators of looseness [d]. *)
Fixpoint chain_of (d : nat) (e : expr) : expr * list (_Kind * expr) :=
  match e with
  | Binary o l r =>
      if looseness o =? d
      then let (first, rest) := chain_of d l in (first, rest ++ [(o, r)])
      else (e, [])
  | _ => (e, [])
  end.

(** The group [g] compiles the term [T] at the start of the tokens. *)
Definition term_compiles (g : _PrecedenceGroup) (T : expr) : Prop :=
  forall fuel ops post,
    follows (inner_kinds g) post -> length (tokens_of T) < S fuel ->
    term fuel g ops (tokens_of T ++ post) 0
    = Ok (ops ++ postfix T, tokens_of T ++ post, length (tokens_of T)).

(** The tokens written out, each followed by a space. *)
Definition spaced (tokens : list _Token) : string :=
  foldr (fun t rest => token_text t +:+ " " +:+ rest) EmptyString tokens.

(** A token as the tokenizer makes it: an operand with a text of its
    kind, or a token without text of a kind that has a symbol. *)
Definition token_ok (t : _Token) : Prop :=
  match token_value t with
  | Some text => is_operand (token_kind t) text
  | None => exists def sym, _kindDefs (token_kind t) = Some def
                            /\ symbol def = Some sym
  end.

(** An expression whose operands are texts of their kinds. *)
Fixpoint spelled (e : expr) : Prop :=
  match e with
  | Operand k text => is_operand k text
  | Binary _ l r => spelled l /\ spelled r
  | Bracketed e => spelled e
  end.

End More_notions.

(** ** Facts about the tokenizer *)

Section Tokenizer_facts.
Context {N : JSNumber}.

Lemma get_Some_lt (s : string) : forall i c,
  String.get i s = Some c -> i < String.length s.
Proof.
  induction s as [|a s IH]; intros [|i] c H; simpl in *; try discriminate; try lia.
  apply IH in H. lia.
Qed.

Lemma bindO_Ok {A B} (m : outcome A) (k : A -> outcome B) (b : B) :
  bindO m k = Ok b -> exists a, m = Ok a /\ k a = Ok b.
Proof. destruct m; simpl; intros H; try discriminate. eauto. Qed.

Lemma bindO_not_Unmodelled {A B} (m : outcome A) (k : A -> outcome B) :
  m <> Unmodelled -> (forall a, k a <> Unmodelled) -> bindO m k <> Unmodelled.
Proof. destruct m; simpl; intros Hm Hk; auto; discriminate. Qed.

(** The budget [_tokenize] gives the loop is never used up. *)
Lemma tokenize_from_enough (buffer : string) : forall fuel i,
  String.length buffer - i <= fuel -> tokenize_from fuel buffer i <> Unmodelled.
Proof.
  induction fuel as [|fuel IH]; intros i Hle; cbn [tokenize_from];
    destruct (String.get i buffer) as [c|] eqn:Hc; try discriminate.
  - apply get_Some_lt in Hc. lia.
  - apply get_Some_lt in Hc.
    destruct (Ascii.eqb c " "); [apply IH; lia|].
    destruct (_findToken _ buffer i) as [single|].
    + apply bindO_not_Unmodelled; [apply IH; lia | discriminate].
    + destruct (first_pattern _ buffer i) as [[k m]|]; [|discriminate].
      apply bindO_not_Unmodelled; [apply IH; lia | discriminate].
Qed.

(** More budget does not change a result. *)
Lemma tokenize_from_more (buffer : string) : forall fuel i r,
  tokenize_from fuel buffer i = r -> r <> Unmodelled ->
  forall fuel', fuel <= fuel' -> tokenize_from fuel' buffer i = r.
Proof.
  induction fuel as [|fuel IH]; intros i r Hr Hne fuel' Hle.
  - destruct fuel'; [exact Hr|].
    cbn [tokenize_from] in *. destruct (String.get i buffer); congruence.
  - destruct fuel' as [|fuel']; [lia|]. cbn [tokenize_from] in *.
    destruct (String.get i buffer) as [c|]; [|exact Hr].
    destruct (Ascii.eqb c " "); [apply IH; auto; lia|].
    destruct (_findToken _ buffer i) as [single|].
    + destruct (tokenize_from fuel buffer _) as [rest| |] eqn:Hrest.
      * rewrite (IH _ _ Hrest ltac:(discriminate) fuel' ltac:(lia)). exact Hr.
      * rewrite (IH _ _ Hrest ltac:(discriminate) fuel' ltac:(lia)). exact Hr.
      * cbn [bindO] in Hr. congruence.
    + destruct (first_pattern _ buffer i) as [[k m]|]; [|exact Hr].
      destruct (tokenize_from fuel buffer _) as [rest| |] eqn:Hrest.
      * rewrite (IH _ _ Hrest ltac:(discriminate) fuel' ltac:(lia)). exact Hr.
      * rewrite (IH _ _ Hrest ltac:(discriminate) fuel' ltac:(lia)). exact Hr.
      * cbn [bindO] in Hr. congruence.
Qed.

Lemma bindO_Ok_id {A} (m : outcome A) : bindO m Ok = m.
Proof. now destruct m. Qed.

(** A turn that does not throw emits no token (a space) or one token, and
    the loop goes on at [next_index]. *)
Lemma tokenize_from_next (buffer : string) (i j : nat) :
  next_index buffer i = Some j ->
  exists emitted, forall fuel,
    tokenize_from (S fuel) buffer i
    = (let! rest := tokenize_from fuel buffer j in Ok (emitted ++ rest))%parse.
Proof.
  unfold next_index. intros Hn.
  destruct (String.get i buffer) as [c|] eqn:Hc; [|discriminate].
  destruct (Ascii.eqb c " ") eqn:Hsp.
  - injection Hn as <-. exists []. intros fuel. cbn [tokenize_from].
    rewrite Hc, Hsp. cbn [app]. now rewrite bindO_Ok_id.
  - destruct (_findToken _ buffer i) as [single|] eqn:Hsym.
    + injection Hn as <-.
      exists [{| token_kind := kind single; token_value := None |}].
      intros fuel. cbn [tokenize_from]. now rewrite Hc, Hsp, Hsym.
    + destruct (first_pattern _ buffer i) as [[k m]|] eqn:Hpat; [|discriminate].
      injection Hn as <-. exists [{| token_kind := k; token_value := Some m |}].
      intros fuel. cbn [tokenize_from]. now rewrite Hc, Hsp, Hsym, Hpat.
Qed.

(** An exception thrown later in the scan is the result of the scan. *)
Lemma reaches_throw (buffer : string) (i : nat) (e : exception) :
  reaches buffer i ->
  forall fuel, tokenize_from fuel buffer i = Throw e ->
  exists fuel', tokenize_from fuel' buffer 0 = Throw e.
Proof.
  induction 1 as [|i j Hi IH Hn]; intros fuel Hf; [eauto|].
  apply (IH (S fuel)). destruct (tokenize_from_next buffer i j Hn) as [emitted Hstep].
  now rewrite Hstep, Hf.
Qed.

Lemma tokenize_reaches_throw (buffer : string) (i : nat) (e : exception) :
  reaches buffer i ->
  (forall fuel, tokenize_from (S fuel) buffer i = Throw e) ->
  _tokenize buffer = Throw e.
Proof.
  intros Hr Hs. destruct (reaches_throw buffer i e Hr 1 (Hs 0)) as [fuel' Hf].
  unfold _tokenize.
  pose proof (tokenize_from_enough buffer (String.length buffer) 0 ltac:(lia)) as Hne.
  rewrite <- Hf.
  destruct (Nat.le_ge_cases fuel' (String.length buffer)) as [Hle|Hle].
  - eapply tokenize_from_more; eauto. rewrite Hf. discriminate.
  - symmetry. eapply tokenize_from_more; eauto.
Qed.

(** The turn at an index where nothing matches. *)
Lemma tokenize_strange (buffer : string) (i : nat) (c : ascii) :
  String.get i buffer = Some c ->
  c <> " "%char ->
  _findToken (_startCharacterTokens c) buffer i = None ->
  exec number_pattern buffer i = None ->
  exec identifier_pattern buffer i = None ->
  forall fuel, tokenize_from (S fuel) buffer i = Throw (strange_character buffer i c).
Proof.
  intros Hc Hsp Hsym Hnum Hid fuel. cbn [tokenize_from]. rewrite Hc.
  destruct (Ascii.eqb c " ") eqn:E; [apply Ascii.eqb_eq in E; contradiction|].
  rewrite Hsym. cbn [first_pattern _patternTokens]. now rewrite Hnum, Hid.
Qed.

End Tokenizer_facts.

(** ** Facts about the compiler *)

Section Compiler_facts.
Context {N : JSNumber}.
Local Open Scope parse_scope.

Lemma group_induction (P : _PrecedenceGroup -> Prop) :
  (forall kinds, P (PrecedenceGroup kinds None)) ->
  (forall kinds parent, P parent -> P (PrecedenceGroup kinds (Some parent))) ->
  forall g, P g.
Proof.
  intros Hroot Hover. fix IH 1. intros [kinds [parent|]].
  - apply Hover, IH.
  - apply Hroot.
Qed.

(** One unfolding of [expression]. *)
Lemma expression_eq fuel kinds parent ops tokens cursor lastTokenOp :
  expression (S fuel) (PrecedenceGroup kinds parent) ops tokens cursor lastTokenOp =
  (let! (ops, tokens, afterTerm) :=
     match parent with
     | Some parent => expression (S fuel) parent ops tokens cursor None
     | None =>
         _valueExpression
           (fun ops tokens cursor => expression fuel _expression ops tokens cursor None)
           ops tokens cursor
     end in
   let! ops :=
     match lastTokenOp with
     | Some lastTokenOp => let! op := Token_toOpcode lastTokenOp in Ok (ops ++ [op])
     | None => Ok ops
     end in
   if afterTerm <? length tokens
   then halfExpression (expression fuel (PrecedenceGroup kinds parent))
          kinds ops tokens afterTerm
   else Ok (ops, tokens, afterTerm)).
Proof. destruct parent; reflexivity. Qed.

Lemma valueExpression_extends extra top top' :
  extends extra top top' ->
  extends extra (_valueExpression top) (_valueExpression top').
Proof.
  intros Htop ops tokens cursor ops' tokens' cursor'. unfold _valueExpression.
  destruct (tokens !! cursor) as [current|] eqn:Hcur; [|discriminate].
  pose proof (lookup_lt_Some _ _ _ Hcur) as Hlt.
  rewrite (lookup_app_l tokens extra cursor Hlt), Hcur.
  destruct (decide (token_kind current = openBracket)) as [Hb|Hb].
  - destruct (top ops tokens (cursor + 1)) as [[[o1 t1] c1]| |] eqn:Hin;
      cbn [bindO]; try discriminate.
    destruct (Htop _ _ _ _ _ _ Hin) as (Hin' & Hlen & Hc1). rewrite Hin'. cbn [bindO].
    destruct (t1 !! c1) as [closing|] eqn:Hcl; [|discriminate].
    pose proof (lookup_lt_Some _ _ _ Hcl) as Hlt1.
    rewrite (lookup_app_l t1 extra c1 Hlt1), Hcl.
    destruct (decide (token_kind closing <> closeBracket)); [discriminate|].
    intros [= <- <- <-]. repeat split; auto. lia.
  - destruct (decide (token_kind current = identifier)) as [Hi|Hi].
    + destruct (Token_toOpcode current) as [op| |]; cbn [bindO]; try discriminate.
      intros [= <- <- <-]. repeat split; auto. lia.
    + set (currentCursor :=
             if decide (token_kind current = opSubtract) then cursor + 1 else cursor).
      destruct (tokens !! currentCursor) as [operand|] eqn:Hop; [|discriminate].
      pose proof (lookup_lt_Some _ _ _ Hop) as Hlt2.
      rewrite (lookup_app_l tokens extra currentCursor Hlt2), Hop.
      destruct (Token_toOpcode _) as [op| |]; cbn [bindO]; try discriminate.
      intros [= <- <- <-]. rewrite insert_app_l by exact Hlt.
      repeat split; auto.
      * apply length_insert.
      * lia.
Qed.

Lemma kinds_has_operator (this : _PrecedenceGroup) kinds parent (t : _Token) :
  this = PrecedenceGroup kinds parent ->
  (forall k, k ∈ group_kinds this -> is_operator k = true) ->
  is_operator (token_kind t) = false ->
  kinds_has kinds (token_kind t) = false.
Proof.
  intros -> Hall Ht. unfold kinds_has. apply bool_decide_eq_false. intros Hin.
  rewrite Hall in Ht; [discriminate|]. cbn [group_kinds]. apply elem_of_app. now left.
Qed.

(** The part of [expression] after the term. *)
Lemma expression_tail_extends extra kinds
  (self self' : list _Opcode -> list _Token -> nat -> option _Token -> outcome parsed)
  lastTokenOp ops (tokens0 tokens : list _Token) afterTerm r :
  trailing extra ->
  (forall t, is_operator (token_kind t) = false -> kinds_has kinds (token_kind t) = false) ->
  (forall last, extends extra (fun o t c => self o t c last) (fun o t c => self' o t c last)) ->
  length tokens = length tokens0 -> afterTerm <= length tokens0 ->
  (let! ops :=
     match lastTokenOp with
     | Some lastTokenOp => let! op := Token_toOpcode lastTokenOp in Ok (ops ++ [op])
     | None => Ok ops
     end in
   if afterTerm <? length tokens
   then halfExpression self kinds ops tokens afterTerm
   else Ok (ops, tokens, afterTerm)) = Ok r ->
  exists ops' tokens' cursor', r = (ops', tokens', cursor') /\
  (let! ops :=
     match lastTokenOp with
     | Some lastTokenOp => let! op := Token_toOpcode lastTokenOp in Ok (ops ++ [op])
     | None => Ok ops
     end in
   if afterTerm <? length (tokens ++ extra)
   then halfExpression self' kinds ops (tokens ++ extra) afterTerm
   else Ok (ops, tokens ++ extra, afterTerm)) = Ok (ops', tokens' ++ extra, cursor')
  /\ length tokens' = length tokens0 /\ cursor' <= length tokens0.
Proof.
  intros Hextra Hkinds Hself Hlen Hafter H.
  apply bindO_Ok in H as (ops1 & -> & H). cbn [bindO].
  destruct r as [[ops' tokens'] cursor']. exists ops', tokens', cursor'.
  split; [reflexivity|]. rewrite length_app.
  destruct (afterTerm <? length tokens) eqn:Hlt.
  - apply Nat.ltb_lt in Hlt.
    replace (afterTerm <? length tokens + length extra) with true
      by (symmetry; apply Nat.ltb_lt; lia).
    unfold halfExpression in *. rewrite (lookup_app_l tokens extra afterTerm Hlt).
    destruct (tokens !! afterTerm) as [opToken|]; [|discriminate].
    destruct (kinds_has kinds (token_kind opToken)).
    + destruct (Hself (Some opToken) _ _ _ _ _ _ H) as (H' & Hl & Hc).
      rewrite H'. repeat split; lia.
    + injection H as <- <- <-. repeat split; auto.
  - apply Nat.ltb_ge in Hlt. injection H as <- <- <-.
    assert (afterTerm = length tokens) as -> by lia.
    destruct extra as [|t extra].
    + replace (length tokens <? length tokens + length (@nil _Token)) with false
        by (symmetry; apply Nat.ltb_ge; simpl; lia).
      repeat split; auto; lia.
    + replace (length tokens <? length tokens + length (t :: extra)) with true
        by (symmetry; apply Nat.ltb_lt; simpl; lia).
      unfold halfExpression. rewrite list_lookup_middle by reflexivity.
      rewrite (Hkinds t Hextra). repeat split; auto; lia.
Qed.

(** A pass that succeeds on [tokens] gives the same opcodes and the same
    cursor on [tokens ++ extra], with any budget that is not smaller, when
    [extra] does not start with a binary operator. *)
Lemma expression_extends extra : trailing extra ->
  forall fuel fuel', fuel <= fuel' ->
  forall this, (forall k, k ∈ group_kinds this -> is_operator k = true) ->
  forall last,
    extends extra (fun o t c => expression fuel this o t c last)
                  (fun o t c => expression fuel' this o t c last).
Proof.
  intros Hextra. induction fuel as [|fuel IHfuel]; intros fuel' Hle.
  - intros this _ last ops tokens cursor ops' tokens' cursor' H. discriminate.
  - destruct fuel' as [|fuel']; [lia|]. apply le_S_n in Hle.
    assert (Htop : forall k, k ∈ group_kinds _expression -> is_operator k = true).
    { intros k Hk. unfold is_operator. now apply bool_decide_eq_true. }
    induction this as [kinds|kinds parent IHthis] using group_induction;
      intros Hops last ops tokens cursor ops' tokens' cursor' H;
      rewrite expression_eq in H; rewrite expression_eq;
      apply bindO_Ok in H as ([[ops1 tokens1] afterTerm] & Hterm & H).
    + apply (valueExpression_extends extra _ _ (IHfuel fuel' Hle _expression Htop None))
        in Hterm as (Hterm' & Hlen & Hc).
      rewrite Hterm'. cbn [bindO].
      eapply (expression_tail_extends extra kinds _ (expression fuel' _)
                _ _ tokens) in H
        as (o & t & c & [= <- <- <-] & H' & Hl & Hc');
        [ rewrite H'; repeat split; auto; lia
        | exact Hextra
        | intros t Ht; eapply kinds_has_operator; eauto
        | intros last'; apply IHfuel; auto
        | eassumption
        | lia ].
    + apply IHthis in Hterm as (Hterm' & Hlen & Hc).
      2:{ intros k Hk. apply Hops. cbn [group_kinds]. apply elem_of_app. now right. }
      rewrite Hterm'. cbn [bindO].
      eapply (expression_tail_extends extra kinds _ (expression fuel' _)
                _ _ tokens) in H
        as (o & t & c & [= <- <- <-] & H' & Hl & Hc');
        [ rewrite H'; repeat split; auto; lia
        | exact Hextra
        | intros t Ht; eapply kinds_has_operator; eauto
        | intros last'; apply IHfuel; auto
        | eassumption
        | lia ].
Qed.

(** *** The compiler always returns or throws *)

Lemma Token_toOpcode_defined (t : _Token) : Token_toOpcode t <> Unmodelled.
Proof. unfold Token_toOpcode. destruct (_kindDefs (token_kind t)); discriminate. Qed.

Lemma valueExpression_within top ops tokens cursor :
  (cursor + 1 <= length tokens ->
   within tokens (cursor + 1) (top ops tokens (cursor + 1))) ->
  within tokens cursor (_valueExpression top ops tokens cursor).
Proof.
  intros Htop. unfold _valueExpression.
  destruct (tokens !! cursor) as [current|] eqn:Hcur; [|exact I].
  pose proof (lookup_lt_Some _ _ _ Hcur) as Hlt.
  destruct (decide (token_kind current = openBracket)).
  - specialize (Htop ltac:(lia)).
    destruct (top ops tokens (cursor + 1)) as [[[o1 t1] c1]| |]; cbn [bindO within] in *;
      auto.
    destruct Htop as (Hlen & Hc1 & Hc1').
    destruct (t1 !! c1) as [closing|] eqn:Hcl; [|exact I].
    pose proof (lookup_lt_Some _ _ _ Hcl) as Hlt1.
    destruct (decide (token_kind closing <> closeBracket)); [exact I|].
    cbn [within]. lia.
  - destruct (decide (token_kind current = identifier)).
    + pose proof (Token_toOpcode_defined current) as Hop.
      destruct (Token_toOpcode current); cbn [bindO within]; auto. lia.
    + set (currentCursor :=
             if decide (token_kind current = opSubtract) then cursor + 1 else cursor).
      assert (cursor <= currentCursor) by (unfold currentCursor; case_decide; lia).
      destruct (tokens !! currentCursor) as [operand|] eqn:Hop; [|exact I].
      pose proof (lookup_lt_Some _ _ _ Hop) as Hlt2.
      match goal with |- context [Token_toOpcode ?t] =>
        pose proof (Token_toOpcode_defined t) as Hdef;
        destruct (Token_toOpcode t) end; cbn [bindO within]; auto.
      rewrite length_insert. lia.
Qed.

(** With one unit of fuel per token left and one more, [expression] does
    not run out of fuel. *)
Lemma expression_within : forall fuel this ops tokens cursor last,
  cursor <= length tokens -> length tokens - cursor < fuel ->
  within tokens cursor (expression fuel this ops tokens cursor last).
Proof.
  induction fuel as [|fuel IHfuel]; [intros; lia|].
  induction this as [kinds|kinds parent IHthis] using group_induction;
    intros ops tokens cursor last Hle Hfuel; rewrite expression_eq.
  - pose proof (valueExpression_within
                  (fun ops tokens cursor => expression fuel _expression ops tokens cursor None)
                  ops tokens cursor
                  (fun H => IHfuel _ _ _ _ _ H ltac:(lia))) as Hterm.
    destruct (_valueExpression _ ops tokens cursor) as [[[o1 t1] c1]| |];
      cbn [bindO within] in *; auto.
    destruct Hterm as (Hlen & Hc1 & Hc1').
    pose proof (fun t => Token_toOpcode_defined t) as Hdef.
    destruct last as [lastTokenOp|];
      [specialize (Hdef lastTokenOp); destruct (Token_toOpcode lastTokenOp)|];
      cbn [bindO within]; auto; try contradiction.
    + destruct (c1 <? length t1) eqn:Hlt; [|cbn [within]; lia].
      apply Nat.ltb_lt in Hlt. unfold halfExpression.
      destruct (t1 !! c1) as [opToken|]; [|exact I].
      destruct (kinds_has kinds (token_kind opToken)); [|cbn [within]; lia].
      pose proof (IHfuel (PrecedenceGroup kinds None) (o1 ++ [a]) t1 (c1 + 1)
                    (Some opToken) ltac:(lia) ltac:(lia)) as Hrec.
      destruct (expression fuel _ _ t1 (c1 + 1) _) as [[[o2 t2] c2]| |];
        cbn [within] in *; auto. lia.
    + destruct (c1 <? length t1) eqn:Hlt; [|cbn [within]; lia].
      apply Nat.ltb_lt in Hlt. unfold halfExpression.
      destruct (t1 !! c1) as [opToken|]; [|exact I].
      destruct (kinds_has kinds (token_kind opToken)); [|cbn [within]; lia].
      pose proof (IHfuel (PrecedenceGroup kinds None) o1 t1 (c1 + 1)
                    (Some opToken) ltac:(lia) ltac:(lia)) as Hrec.
      destruct (expression fuel _ _ t1 (c1 + 1) _) as [[[o2 t2] c2]| |];
        cbn [within] in *; auto. lia.
  - pose proof (IHthis ops tokens cursor None Hle Hfuel) as Hterm.
    destruct (expression (S fuel) parent ops tokens cursor None) as [[[o1 t1] c1]| |];
      cbn [bindO within] in *; auto.
    destruct Hterm as (Hlen & Hc1 & Hc1').
    pose proof (fun t => Token_toOpcode_defined t) as Hdef.
    destruct last as [lastTokenOp|];
      [specialize (Hdef lastTokenOp); destruct (Token_toOpcode lastTokenOp)|];
      cbn [bindO within]; auto; try contradiction.
    + destruct (c1 <? length t1) eqn:Hlt; [|cbn [within]; lia].
      apply Nat.ltb_lt in Hlt. unfold halfExpression.
      destruct (t1 !! c1) as [opToken|]; [|exact I].
      destruct (kinds_has kinds (token_kind opToken)); [|cbn [within]; lia].
      pose proof (IHfuel (PrecedenceGroup kinds (Some parent)) (o1 ++ [a]) t1 (c1 + 1)
                    (Some opToken) ltac:(lia) ltac:(lia)) as Hrec.
      destruct (expression fuel _ _ t1 (c1 + 1) _) as [[[o2 t2] c2]| |];
        cbn [within] in *; auto. lia.
    + destruct (c1 <? length t1) eqn:Hlt; [|cbn [within]; lia].
      apply Nat.ltb_lt in Hlt. unfold halfExpression.
      destruct (t1 !! c1) as [opToken|]; [|exact I].
      destruct (kinds_has kinds (token_kind opToken)); [|cbn [within]; lia].
      pose proof (IHfuel (PrecedenceGroup kinds (Some parent)) o1 t1 (c1 + 1)
                    (Some opToken) ltac:(lia) ltac:(lia)) as Hrec.
      destruct (expression fuel _ _ t1 (c1 + 1) _) as [[[o2 t2] c2]| |];
        cbn [within] in *; auto. lia.
Qed.

(** [_parseTokens] and [newProgram] never leave the model. *)
Lemma parseTokens_defined ops tokens cursor :
  cursor <= length tokens -> _parseTokens ops tokens cursor <> Unmodelled.
Proof.
  intros Hle H. pose proof (expression_within (S (length tokens)) _expression ops
                              tokens cursor None Hle ltac:(lia)) as Hw.
  unfold _parseTokens in H. now rewrite H in Hw.
Qed.

Lemma newProgram_defined (source : string) : newProgram source <> Unmodelled.
Proof.
  unfold newProgram, _tokenize.
  pose proof (tokenize_from_enough source (String.length source) 0 ltac:(lia)) as Ht.
  destruct (tokenize_from _ source 0) as [tokens| |]; cbn [bindO];
    try discriminate; try contradiction.
  pose proof (parseTokens_defined [] tokens 0 ltac:(lia)) as Hp.
  destruct (_parseTokens [] tokens 0) as [[[o t] c]| |]; cbn [bindO];
    try discriminate; try contradiction.
Qed.

End Compiler_facts.

(** ** Facts about the stack machine *)

Section Machine_facts.
Context {N : JSNumber}.
Local Open Scope exec_scope.

Lemma pop_last_app {A} (l : list A) (x : A) : pop_last (l ++ [x]) = Some (l, x).
Proof. unfold pop_last. rewrite rev_app_distr. simpl. now rewrite rev_involutive. Qed.

Lemma pop_last_spec {A} (l : list A) :
  match pop_last l with
  | Some (l', x) => l = l' ++ [x]
  | None => l = []
  end.
Proof.
  destruct l as [|x l' _] using rev_ind; [reflexivity|]. now rewrite pop_last_app.
Qed.

Lemma heap_lookup (h : heap) (c : ctx_ref) (x : CalculationContext) :
  c < length h -> <[c := x]> h !! c = Some x.
Proof. apply list_lookup_insert_eq. Qed.

Lemma heap_insert (h : heap) (c : ctx_ref) (x y : CalculationContext) :
  <[c := y]> (<[c := x]> h) = <[c := y]> h.
Proof. apply list_insert_insert_eq. Qed.

Ltac heap_simpl Hc :=
  repeat first
    [ rewrite heap_insert
    | rewrite heap_lookup by (rewrite ?length_insert; exact Hc)
    | progress cbn [with_stack _stack default_stack optimization_stack
                    _popped _registerAccess _registers] ].

(** *** A default context *)

Lemma popStack_default h c s e R : c < length h ->
  popStack c (<[c := Default {| default_stack := s ++ [e]; _registers := R |}]> h)
  = (Ok (Some e), <[c := Default {| default_stack := s; _registers := R |}]> h).
Proof.
  intros Hc. unfold popStack, super_popStack. rewrite !heap_lookup by exact Hc.
  cbn [_stack default_stack]. rewrite pop_last_app. cbn [with_stack _registers].
  now rewrite heap_insert.
Qed.

Lemma popStack_default_empty h c R : c < length h ->
  popStack c (<[c := Default {| default_stack := []; _registers := R |}]> h)
  = (Ok None, <[c := Default {| default_stack := []; _registers := R |}]> h).
Proof.
  intros Hc. unfold popStack, super_popStack. now rewrite !heap_lookup by exact Hc.
Qed.

Lemma pushStack_default h c s e R : c < length h ->
  pushStack c e (<[c := Default {| default_stack := s; _registers := R |}]> h)
  = (Ok tt, <[c := Default {| default_stack := s ++ [bind e c]; _registers := R |}]> h).
Proof.
  intros Hc. unfold pushStack, super_pushStack. rewrite !heap_lookup by exact Hc.
  cbn [_stack default_stack with_stack _registers]. now rewrite heap_insert.
Qed.

Lemma setRegister_default h c s R name v : c < length h ->
  setRegister c name v (<[c := Default {| default_stack := s; _registers := R |}]> h)
  = (Ok tt, <[c := Default {| default_stack := s; _registers := <[name := v]> R |}]> h).
Proof.
  intros Hc. unfold setRegister. rewrite heap_lookup by exact Hc.
  cbn [default_stack _registers]. now rewrite heap_insert.
Qed.

Lemma popStack_value_default_literal h c vs v R : c < length h ->
  popStack_value c
    (<[c := Default {| default_stack := literals (vs ++ [v]); _registers := R |}]> h)
  = (Ok v, <[c := Default {| default_stack := literals vs; _registers := R |}]> h).
Proof.
  intros Hc. unfold popStack_value, bindM, literals. rewrite map_app. cbn [map].
  now rewrite popStack_default by exact Hc.
Qed.

Lemma popStack_value_default_empty h c R : c < length h ->
  popStack_value c (<[c := Default {| default_stack := []; _registers := R |}]> h)
  = (Throw TypeError, <[c := Default {| default_stack := []; _registers := R |}]> h).
Proof.
  intros Hc. unfold popStack_value, bindM.
  now rewrite popStack_default_empty by exact Hc.
Qed.

(** *** An optimization context *)

Lemma popStack_optimization h c s e P b : c < length h ->
  popStack c (<[c := Optimization {| optimization_stack := s ++ [e]; _popped := P;
                                     _registerAccess := b |}]> h)
  = (Ok (Some e),
     <[c := Optimization {| optimization_stack := s; _popped := P ++ [e];
                            _registerAccess := b |}]> h).
Proof.
  intros Hc. unfold popStack. rewrite heap_lookup by exact Hc.
  unfold bindM, super_popStack. rewrite heap_lookup by exact Hc.
  cbn [_stack optimization_stack]. rewrite pop_last_app.
  unfold get_optimization, set_popped, ret. now heap_simpl Hc.
Qed.

Lemma pushStack_optimization h c s e P : c < length h ->
  pushStack c e (<[c := Optimization {| optimization_stack := s; _popped := P;
                                        _registerAccess := false |}]> h)
  = (Ok tt,
     <[c := Optimization {| optimization_stack := s ++ [bind e c]; _popped := [];
                            _registerAccess := false |}]> h).
Proof.
  intros Hc. unfold pushStack. rewrite heap_lookup by exact Hc.
  cbn [_registerAccess]. unfold bindM, ret, set_popped, super_pushStack.
  now heap_simpl Hc.
Qed.

Lemma popStack_value_optimization_literal h c vs v P b : c < length h ->
  popStack_value c
    (<[c := Optimization {| optimization_stack := literals (vs ++ [v]); _popped := P;
                            _registerAccess := b |}]> h)
  = (Ok v,
     <[c := Optimization {| optimization_stack := literals vs;
                            _popped := P ++ [_Literal v];
                            _registerAccess := b |}]> h).
Proof.
  intros Hc. unfold popStack_value, bindM, literals. rewrite map_app. cbn [map].
  now rewrite popStack_optimization by exact Hc.
Qed.

(** *** Opcodes *)

(** [perform], by kind. *)
Lemma Opcode_perform_eq (op : _Opcode) (n : ctx_ref) :
  Opcode_perform op n =
  match opcode_kind op with
  | opAdd => binary (fun a b => num_add a b) n
  | opSubtract => binary (fun a b => num_add (num_neg a) b) n
  | opMultiply => binary (fun a b => num_mul a b) n
  | opDivide => binary (fun a b => num_div b a) n
  | opPower => binary (fun a b => num_pow b a) n
  | numberLiteral =>
      match opcode_value op with
      | VNumber v => pushStack n (_Literal v)
      | _ => unmodelled
      end
  | identifier =>
      match opcode_value op with
      | VString name => pushStack n (_VariableReference name n)
      | _ => unmodelled
      end
  | opAssign =>
      let! value := popStack_value n in
      let! target := popStack n in
      do! match target with
          | Some target => set_value target value
          | None => throw TypeError
          end in
      pushStack n (_Literal value)
  | openBracket | closeBracket => throw TypeError
  end.
Proof. destruct op as [[] v]; reflexivity. Qed.

Lemma literals_app vs v : literals (vs ++ [v]) = literals vs ++ [_Literal v].
Proof. unfold literals. now rewrite map_app. Qed.

Lemma binary_default f h c vs R : c < length h ->
  binary f c (<[c := Default {| default_stack := literals vs; _registers := R |}]> h)
  = match fold_binary f vs with
    | Some vs' =>
        (Ok tt, <[c := Default {| default_stack := literals vs'; _registers := R |}]> h)
    | None =>
        (Throw TypeError,
         <[c := Default {| default_stack := []; _registers := R |}]> h)
    end.
Proof.
  intros Hc. unfold binary, fold_binary, pop2.
  pose proof (pop_last_spec vs) as Hvs.
  destruct (pop_last vs) as [[vs1 a]|]; subst vs.
  - unfold bindM at 1. rewrite popStack_value_default_literal by exact Hc.
    pose proof (pop_last_spec vs1) as Hvs1.
    destruct (pop_last vs1) as [[vs2 b]|]; subst vs1.
    + unfold bindM. rewrite popStack_value_default_literal by exact Hc.
      rewrite pushStack_default by exact Hc. now rewrite literals_app.
    + unfold bindM. now rewrite popStack_value_default_empty by exact Hc.
  - unfold bindM. now rewrite popStack_value_default_empty by exact Hc.
Qed.

Lemma binary_optimization f h c vs vs' P : c < length h ->
  fold_binary f vs = Some vs' ->
  binary f c (<[c := Optimization {| optimization_stack := literals vs; _popped := P;
                                     _registerAccess := false |}]> h)
  = (Ok tt, <[c := Optimization {| optimization_stack := literals vs'; _popped := [];
                                   _registerAccess := false |}]> h).
Proof.
  intros Hc. unfold binary, fold_binary, pop2.
  pose proof (pop_last_spec vs) as Hvs.
  destruct (pop_last vs) as [[vs1 a]|]; [subst vs|discriminate].
  pose proof (pop_last_spec vs1) as Hvs1.
  destruct (pop_last vs1) as [[vs2 b]|]; [subst vs1|discriminate].
  intros [= <-]. unfold bindM.
  rewrite !popStack_value_optimization_literal by exact Hc.
  rewrite pushStack_optimization by exact Hc. now rewrite literals_app.
Qed.

(** In a default context an opcode that touches no register does what
    [fold_opcode] says, and returns only when [fold_opcode] does. *)
Lemma perform_default_fold op h c vs R :
  touches_no_register op -> c < length h ->
  match fold_opcode op vs with
  | Some vs' =>
      Opcode_perform op c
        (<[c := Default {| default_stack := literals vs; _registers := R |}]> h)
      = (Ok tt, <[c := Default {| default_stack := literals vs'; _registers := R |}]> h)
  | None =>
      fst (Opcode_perform op c
        (<[c := Default {| default_stack := literals vs; _registers := R |}]> h))
      <> Ok tt
  end.
Proof.
  intros [Hid Has] Hc. rewrite Opcode_perform_eq. unfold fold_opcode.
  destruct (opcode_kind op); try contradiction;
    try (rewrite binary_default by exact Hc;
         destruct (fold_binary _ vs); [reflexivity | discriminate]);
    try discriminate.
  destruct (opcode_value op); try discriminate.
  rewrite pushStack_default by exact Hc. now rewrite literals_app.
Qed.

(** In an optimization context whose stack holds literals, it does the
    same, and no register access is recorded. *)
Lemma perform_optimization_fold op h c vs vs' P :
  touches_no_register op -> c < length h ->
  fold_opcode op vs = Some vs' ->
  Opcode_perform op c
    (<[c := Optimization {| optimization_stack := literals vs; _popped := P;
                            _registerAccess := false |}]> h)
  = (Ok tt, <[c := Optimization {| optimization_stack := literals vs'; _popped := [];
                                   _registerAccess := false |}]> h).
Proof.
  intros [Hid Has] Hc. rewrite Opcode_perform_eq. unfold fold_opcode.
  destruct (opcode_kind op); try contradiction; try discriminate;
    try (now apply binary_optimization).
  destruct (opcode_value op); try discriminate. intros [= <-].
  rewrite pushStack_optimization by exact Hc. now rewrite literals_app.
Qed.

(** Every opcode that touches no register and returns leaves a value. *)
Lemma fold_opcode_nonempty op vs vs' :
  fold_opcode op vs = Some vs' -> exists vs'' v, vs' = vs'' ++ [v].
Proof.
  unfold fold_opcode, fold_binary.
  destruct (opcode_kind op); try discriminate;
    try (destruct (pop2 vs) as [[[vs2 a] b]|]; [|discriminate]; intros [= <-]; eauto).
  destruct (opcode_value op); try discriminate. intros [= <-]. eauto.
Qed.

Lemma perform_all_default_fold ops : forall h c vs R h',
  Forall touches_no_register ops -> c < length h ->
  perform_all ops c
    (<[c := Default {| default_stack := literals vs; _registers := R |}]> h)
  = (Ok tt, h') ->
  exists vs', fold_opcodes ops vs = Some vs' /\
    h' = <[c := Default {| default_stack := literals vs'; _registers := R |}]> h.
Proof.
  induction ops as [|op ops IH]; intros h c vs R h' Hall Hc H.
  - injection H as <-. now exists vs.
  - inversion Hall as [|? ? Hop Hops]; subst. cbn [perform_all fold_opcodes] in *.
    pose proof (perform_default_fold op h c vs R Hop Hc) as Hstep.
    unfold bindM in H.
    destruct (fold_opcode op vs) as [vs1|].
    + rewrite Hstep in H. eapply IH; eauto.
    + destruct (Opcode_perform op c _) as [[[]| |] h1]; cbn in *;
        try discriminate. contradiction.
Qed.

Lemma bindM_Ok {A B} (m : M A) (k : A -> M B) h a h' :
  m h = (Ok a, h') -> bindM m k h = k a h'.
Proof. unfold bindM. now intros ->. Qed.

(** *** The getters of an optimization context *)

Lemma stackIsNotEmpty_optimization h c o : c < length h ->
  stackIsNotEmpty c (<[c := Optimization o]> h)
  = (Ok (negb (length (optimization_stack o) =? 0)), <[c := Optimization o]> h).
Proof.
  intros Hc. unfold stackIsNotEmpty, get_optimization, bindM, ret.
  now rewrite heap_lookup by exact Hc.
Qed.

Lemma topIsLiteral_optimization h c o : c < length h ->
  topIsLiteral c (<[c := Optimization o]> h)
  = (Ok match last (optimization_stack o) with
        | Some (_Literal _) => true
        | _ => false
        end, <[c := Optimization o]> h).
Proof.
  intros Hc. unfold topIsLiteral, _top, get_optimization, bindM, ret.
  now rewrite heap_lookup by exact Hc.
Qed.

Lemma stackSince_optimization h c o start : c < length h ->
  stackSince c start (<[c := Optimization o]> h)
  = (Ok (drop start (optimization_stack o)), <[c := Optimization o]> h).
Proof.
  intros Hc. unfold stackSince, get_optimization, bindM, ret.
  now rewrite heap_lookup by exact Hc.
Qed.

Lemma stackDepth_optimization h c o : c < length h ->
  stackDepth c (<[c := Optimization o]> h)
  = (Ok (length (optimization_stack o)), <[c := Optimization o]> h).
Proof.
  intros Hc. unfold stackDepth, get_optimization, bindM, ret.
  now rewrite heap_lookup by exact Hc.
Qed.

Lemma topValue_optimization_literal h c o v : c < length h ->
  last (optimization_stack o) = Some (_Literal v) ->
  topValue c (<[c := Optimization o]> h) = (Ok v, <[c := Optimization o]> h).
Proof.
  intros Hc Hv. unfold topValue, _top, get_optimization, bindM, ret.
  rewrite heap_lookup by exact Hc. now rewrite Hv.
Qed.

(** A turn in which [op] returns, in terms of the context it leaves. *)
Lemma optimize_turn_eq h c op o o' newOps stackBound : c < length h ->
  Opcode_perform op c (<[c := Optimization o]> h) = (Ok tt, <[c := Optimization o']> h) ->
  optimize_turn c op newOps stackBound (<[c := Optimization o]> h)
  = (Ok match last (optimization_stack o') with
        | Some (_Literal _) => (newOps, stackBound)
        | _ => (newOps ++ [op], length (optimization_stack o'))
        end, <[c := Optimization o']> h).
Proof.
  intros Hc Hop. unfold optimize_turn.
  rewrite (bindM_Ok _ _ _ _ _ (stackIsNotEmpty_optimization h c o Hc)).
  destruct (negb (length (optimization_stack o) =? 0)).
  - rewrite (bindM_Ok _ _ _ _ _ (topIsLiteral_optimization h c o Hc)).
    destruct (last (optimization_stack o)) as [[]|]; cbn [andb].
    + rewrite (bindM_Ok _ _ _ _ _
                 (bindM_Ok _ _ _ _ _ (stackSince_optimization h c o stackBound Hc))).
      rewrite (bindM_Ok _ _ _ _ _ Hop).
      rewrite (bindM_Ok _ _ _ _ _ (topIsLiteral_optimization h c o' Hc)).
      destruct (last (optimization_stack o')) as [[]|]; cbn [negb isNotEmpty];
        try reflexivity;
        now rewrite (bindM_Ok _ _ _ _ _ (stackDepth_optimization h c o' Hc)).
    + unfold ret at 1. unfold bindM at 1.
      rewrite (bindM_Ok _ _ _ _ _ Hop).
      rewrite (bindM_Ok _ _ _ _ _ (topIsLiteral_optimization h c o' Hc)).
      destruct (last (optimization_stack o')) as [[]|]; cbn [negb isNotEmpty];
        try reflexivity;
        now rewrite (bindM_Ok _ _ _ _ _ (stackDepth_optimization h c o' Hc)).
    + unfold ret at 1. unfold bindM at 1.
      rewrite (bindM_Ok _ _ _ _ _ Hop).
      rewrite (bindM_Ok _ _ _ _ _ (topIsLiteral_optimization h c o' Hc)).
      destruct (last (optimization_stack o')) as [[]|]; cbn [negb isNotEmpty];
        try reflexivity;
        now rewrite (bindM_Ok _ _ _ _ _ (stackDepth_optimization h c o' Hc)).
  - unfold ret at 1. unfold bindM at 1. cbn [andb]. unfold ret at 1. unfold bindM at 1.
    rewrite (bindM_Ok _ _ _ _ _ Hop).
    rewrite (bindM_Ok _ _ _ _ _ (topIsLiteral_optimization h c o' Hc)).
    destruct (last (optimization_stack o')) as [[]|]; cbn [negb isNotEmpty];
      try reflexivity;
      now rewrite (bindM_Ok _ _ _ _ _ (stackDepth_optimization h c o' Hc)).
Qed.

(** The optimizer emits nothing while it replays opcodes that touch no
    register. *)
Lemma optimize_loop_fold ops : forall h c vs vs' P newOps stackBound,
  Forall touches_no_register ops -> c < length h ->
  fold_opcodes ops vs = Some vs' ->
  exists P',
    optimize_loop c ops newOps stackBound
      (<[c := Optimization {| optimization_stack := literals vs; _popped := P;
                              _registerAccess := false |}]> h)
    = (Ok (newOps, stackBound),
       <[c := Optimization {| optimization_stack := literals vs'; _popped := P';
                              _registerAccess := false |}]> h).
Proof.
  induction ops as [|op ops IH]; intros h c vs vs' P newOps stackBound Hall Hc H.
  - injection H as <-. now exists P.
  - inversion Hall as [|? ? Hop Hops]; subst. cbn [optimize_loop fold_opcodes] in *.
    destruct (fold_opcode op vs) as [vs1|] eqn:Hstep; [|discriminate].
    destruct (fold_opcode_nonempty _ _ _ Hstep) as (vs2 & v & ->).
    destruct (IH h c (vs2 ++ [v]) vs' [] newOps stackBound Hops Hc H) as [P' HP'].
    exists P'. rewrite <- HP'.
    erewrite bindM_Ok.
    2:{ apply optimize_turn_eq; [exact Hc|].
        apply perform_optimization_fold; eauto. }
    cbn [optimization_stack]. now rewrite literals_app, last_snoc.
Qed.

End Machine_facts.

(** ** Facts about the tokens of operands *)

Section Operand_facts.
Context {N : JSNumber}.
Local Open Scope parse_scope.

Lemma append_empty (s : string) : EmptyString +:+ s = s.
Proof. reflexivity. Qed.

Lemma append_String (c : ascii) (s t : string) :
  String c s +:+ t = String c (s +:+ t).
Proof. reflexivity. Qed.

Lemma string_drop_app (pre s : string) :
  string_drop (String.length pre) (pre +:+ s) = s.
Proof. induction pre as [|a pre IH]; [now destruct s | exact IH]. Qed.

Lemma string_get_app (pre s : string) :
  String.get (String.length pre) (pre +:+ s) = String.get 0 s.
Proof. induction pre as [|a pre IH]; [reflexivity | exact IH]. Qed.

Lemma string_length_app (s t : string) :
  String.length (s +:+ t) = String.length s + String.length t.
Proof. induction s as [|a s IH]; simpl; [reflexivity | now rewrite IH]. Qed.

Lemma substring_prefix (s t : string) :
  substring 0 (String.length s) (s +:+ t) = s.
Proof.
  induction s as [|a s IH]; simpl; [now destruct t | now rewrite IH].
Qed.

Lemma substring_app (pre s t : string) :
  substring (String.length pre) (String.length s) (pre +:+ s +:+ t) = s.
Proof. induction pre as [|a pre IH]; [exact (substring_prefix s t) | exact IH]. Qed.

Lemma prefix_app (s t : string) : String.prefix s (s +:+ t) = true.
Proof.
  induction s as [|a s IH]; simpl; [now destruct t|].
  destruct (ascii_dec a a); [exact IH | contradiction].
Qed.

Lemma startsWith_app (pre sym t : string) :
  startsWith (pre +:+ sym +:+ t) sym (String.length pre) = true.
Proof. unfold startsWith. rewrite string_drop_app. apply prefix_app. Qed.

(** *** Matching before a text at which the pattern stops *)

Lemma star_chars_app p t : stops (StarChars p) t ->
  forall s k k',
    (forall x, k' (x +:+ t) = (fun r => r +:+ t) <$> k x) ->
    star_chars p (s +:+ t) k' = (fun r => r +:+ t) <$> star_chars p s k.
Proof.
  intros Ht s k k' Hk. induction s as [|c s IH].
  - specialize (Hk EmptyString). rewrite append_empty in *.
    change (star_chars p EmptyString k) with (k EmptyString). rewrite <- Hk.
    destruct t as [|c0 t]; cbn [star_chars]; [reflexivity|]. cbn in Ht.
    destruct (p c0); [discriminate | reflexivity].
  - rewrite append_String. cbn [star_chars]. destruct (p c).
    + rewrite IH. destruct (star_chars p s k); [reflexivity|].
      cbn [fmap option_fmap option_map]. apply (Hk (String c s)).
    + apply (Hk (String c s)).
Qed.

Lemma regex_match_app t : forall re, stops re t ->
  forall s k k',
    (forall x, k' (x +:+ t) = (fun r => r +:+ t) <$> k x) ->
    regex_match re (s +:+ t) k' = (fun r => r +:+ t) <$> regex_match re s k.
Proof.
  assert (Hsplit : forall r1 r2, stops (Seq r1 r2) t -> stops r1 t /\ stops r2 t).
  { intros r1 r2. destruct t; cbn; [tauto|]. intros H. now apply andb_prop in H. }
  induction re as [p|r1 IH1 r2 IH2|r1 IH1 r2 IH2|r IH|p]; intros Ht s k k' Hk;
    cbn [regex_match].
  - destruct s as [|c s]; rewrite ?append_empty, ?append_String.
    + destruct t as [|c0 t]; [reflexivity|]. cbn in Ht.
      destruct (p c0); [discriminate | reflexivity].
    + destruct (p c); [apply Hk | reflexivity].
  - destruct (Hsplit _ _ Ht) as [H1 H2]. apply IH1; [exact H1|].
    intros x. now apply IH2.
  - destruct (Hsplit r1 r2 Ht) as [H1 H2].
    rewrite (IH1 H1 s k k' Hk), (IH2 H2 s k k' Hk).
    now destruct (regex_match r1 s k).
  - rewrite (IH Ht s k k' Hk). destruct (regex_match r s k); [reflexivity|].
    apply Hk.
  - now apply star_chars_app.
Qed.

(** A text matched as a whole is what [exec] finds when the pattern stops
    at the text after it. *)
Lemma exec_app re (pre s t : string) :
  stops re t -> regex_match re s Some = Some EmptyString ->
  exec re (pre +:+ s +:+ t) (String.length pre) = Some s.
Proof.
  intros Ht Hs. unfold exec. rewrite string_drop_app.
  rewrite (regex_match_app t re Ht s Some Some) by reflexivity.
  rewrite Hs. cbn [fmap option_fmap option_map]. rewrite append_empty.
  rewrite string_length_app.
  replace (String.length s + String.length t - String.length t)
    with (String.length s) by lia.
  now rewrite substring_app.
Qed.

(** *** The first character of an operand *)

Lemma first_digit (c : ascii) :
  is_char "0" c = true \/ in_range "1" "9" c = true -> digit c = true.
Proof.
  destruct c as [[] [] [] [] [] [] [] []]; vm_compute; intuition congruence.
Qed.

Lemma operand_first k text : is_operand k text ->
  exists c rest, text = String c rest
    /\ (if decide (k = numberLiteral) then digit c = true
        else identifier_start c = true).
Proof.
  destruct k; try contradiction; intros H; destruct text as [|c rest];
    try discriminate; exists c, rest; (split; [reflexivity|]);
    unfold is_operand, number_pattern, identifier_pattern in H;
    cbn [regex_match] in H.
  - apply first_digit. destruct (is_char "0" c); [now left|].
    destruct (in_range "1" "9" c); [now right | discriminate].
  - destruct (identifier_start c); [reflexivity | discriminate].
Qed.

(** A digit, a letter or [_] is no space and starts no symbol, and a letter
    or [_] is no digit. *)
Lemma operand_character (c : ascii) :
  digit c = true \/ identifier_start c = true ->
  Ascii.eqb c " " = false /\ _startCharacterTokens c = None.
Proof.
  destruct c as [[] [] [] [] [] [] [] []]; vm_compute; intuition congruence.
Qed.

Lemma identifier_start_no_digit (c : ascii) :
  identifier_start c = true ->
  is_char "0" c = false /\ in_range "1" "9" c = false.
Proof.
  destruct c as [[] [] [] [] [] [] [] []]; vm_compute; intuition congruence.
Qed.

Lemma number_pattern_needs_digit c rest k :
  identifier_start c = true ->
  regex_match number_pattern (String c rest) k = None.
Proof.
  intros H. destruct (identifier_start_no_digit c H) as [H0 H1].
  unfold number_pattern. cbn [regex_match]. now rewrite H0, H1.
Qed.

(** *** The turns of the tokenizer on an operand and on [**] *)

Lemma tokenize_operand k (pre text t : string) fuel :
  is_operand k text ->
  stops number_pattern t -> stops identifier_pattern t ->
  tokenize_from (S fuel) (pre +:+ text +:+ t) (String.length pre)
  = (let! rest := tokenize_from fuel (pre +:+ text +:+ t)
                    (String.length pre + String.length text) in
     Ok ({| token_kind := k; token_value := Some text |} :: rest)).
Proof.
  intros Hop Hnum Hid.
  destruct (operand_first k text Hop) as (c & rest & Htext & Hc).
  assert (Hchar : Ascii.eqb c " " = false /\ _startCharacterTokens c = None).
  { apply operand_character. destruct (decide (k = numberLiteral)); auto. }
  destruct Hchar as [Hsp Hsym].
  cbn [tokenize_from]. rewrite string_get_app.
  replace (String.get 0 (text +:+ t)) with (Some c) by now subst text.
  rewrite Hsp, Hsym. cbn [_findToken first_pattern _patternTokens].
  assert (Hlen : String.length pre + (String.length text - 1) + 1
                 = String.length pre + String.length text)
    by (subst text; simpl; lia).
  destruct k; try contradiction; cbn [is_operand] in Hop.
  - rewrite (exec_app number_pattern pre text t Hnum Hop). now rewrite Hlen.
  - replace (exec number_pattern (pre +:+ text +:+ t) (String.length pre))
      with (@None string).
    + rewrite (exec_app identifier_pattern pre text t Hid Hop). now rewrite Hlen.
    + unfold exec. rewrite string_drop_app. subst text. rewrite append_String.
      now rewrite number_pattern_needs_digit by exact Hc.
Qed.

Lemma tokenize_power (pre t : string) fuel :
  tokenize_from (S fuel) (pre +:+ "**" +:+ t) (String.length pre)
  = (let! rest := tokenize_from fuel (pre +:+ "**" +:+ t) (String.length pre + 2) in
     Ok (symbol_token opPower :: rest)).
Proof.
  cbn [tokenize_from]. rewrite string_get_app.
  change (String.get 0 ("**" +:+ t)) with (Some "*"%char).
  change (Ascii.eqb "*" " ") with false. cbv iota.
  replace (_findToken (_startCharacterTokens "*") (pre +:+ "**" +:+ t)
             (String.length pre))
    with (_kindDefs opPower).
  - replace (String.length pre + 2) with (String.length pre + (2 - 1) + 1) by lia.
    reflexivity.
  - pose proof (startsWith_app pre "*" (String "*" t)) as H1.
    pose proof (startsWith_app pre "**" t) as H2.
    change ("*" +:+ String "*" t) with ("**" +:+ t) in H1.
    unfold _findToken. cbn. now rewrite H1, H2.
Qed.

Lemma string_get_length (buffer : string) :
  String.get (String.length buffer) buffer = None.
Proof. induction buffer as [|a buffer IH]; [reflexivity | exact IH]. Qed.

Lemma tokenize_end (buffer : string) fuel :
  tokenize_from fuel buffer (String.length buffer) = Ok [].
Proof.
  destruct fuel; cbn [tokenize_from]; now rewrite string_get_length.
Qed.

Lemma append_assoc (s t u : string) : (s +:+ t) +:+ u = s +:+ t +:+ u.
Proof.
  induction s as [|a s IH]; [reflexivity|]. rewrite !append_String. now rewrite IH.
Qed.

Lemma append_empty_r (s : string) : s +:+ EmptyString = s.
Proof.
  induction s as [|a s IH]; [reflexivity|]. rewrite append_String. now rewrite IH.
Qed.

Lemma tokenize_operand_at k (buffer pre text t : string) i fuel :
  buffer = pre +:+ text +:+ t -> i = String.length pre ->
  is_operand k text -> stops number_pattern t -> stops identifier_pattern t ->
  tokenize_from (S fuel) buffer i
  = (let! rest := tokenize_from fuel buffer (i + String.length text) in
     Ok (operand_token k text :: rest)).
Proof. intros -> ->. apply tokenize_operand. Qed.

Lemma tokenize_power_at (buffer pre t : string) i fuel :
  buffer = pre +:+ "**" +:+ t -> i = String.length pre ->
  tokenize_from (S fuel) buffer i
  = (let! rest := tokenize_from fuel buffer (i + 2) in
     Ok (symbol_token opPower :: rest)).
Proof. intros -> ->. apply tokenize_power. Qed.

(** The tokens of [a**b**c] for operands [a], [b], [c]. *)
Lemma tokenize_power_chain ka kb kc (a b c : string) :
  is_operand ka a -> is_operand kb b -> is_operand kc c ->
  _tokenize (a +:+ "**" +:+ b +:+ "**" +:+ c)
  = Ok [operand_token ka a; symbol_token opPower; operand_token kb b;
        symbol_token opPower; operand_token kc c].
Proof.
  intros Ha Hb Hc. set (buffer := a +:+ "**" +:+ b +:+ "**" +:+ c).
  assert (Hrun : tokenize_from 6 buffer 0
                 = Ok [operand_token ka a; symbol_token opPower; operand_token kb b;
                       symbol_token opPower; operand_token kc c]).
  { rewrite (tokenize_operand_at ka buffer EmptyString a ("**" +:+ b +:+ "**" +:+ c)
               0 5 eq_refl eq_refl Ha eq_refl eq_refl).
    rewrite (tokenize_power_at buffer a (b +:+ "**" +:+ c) (0 + String.length a) 4
               eq_refl eq_refl).
    rewrite (tokenize_operand_at kb buffer (a +:+ "**") b ("**" +:+ c)
               (0 + String.length a + 2) 3);
      [ | unfold buffer; now rewrite !append_assoc
        | rewrite string_length_app; reflexivity
        | exact Hb | reflexivity | reflexivity ].
    rewrite (tokenize_power_at buffer (a +:+ "**" +:+ b) c
               (0 + String.length a + 2 + String.length b) 2);
      [ | unfold buffer; now rewrite !append_assoc
        | rewrite !string_length_app; simpl; lia ].
    rewrite (tokenize_operand_at kc buffer (a +:+ "**" +:+ b +:+ "**") c EmptyString
               (0 + String.length a + 2 + String.length b + 2) 1);
      [ | unfold buffer; now rewrite !append_assoc, append_empty_r
        | rewrite !string_length_app; simpl; lia
        | exact Hc | exact I | exact I ].
    replace (0 + String.length a + 2 + String.length b + 2 + String.length c)
      with (String.length buffer)
      by (unfold buffer; rewrite !string_length_app; simpl; lia).
    now rewrite tokenize_end. }
  unfold _tokenize.
  destruct (Nat.le_ge_cases 6 (String.length buffer)) as [Hle|Hle].
  - eapply tokenize_from_more; [exact Hrun | discriminate | exact Hle].
  - pose proof (tokenize_from_enough buffer (String.length buffer) 0 ltac:(lia)) as Hne.
    rewrite <- Hrun. symmetry. eapply tokenize_from_more; eauto.
Qed.

Lemma is_operand_kind k text : is_operand k text -> operand_kind k.
Proof. destruct k; try contradiction; intros _; [now left | now right]. Qed.

End Operand_facts.

(** ** Facts about references and assignment *)

Section Reference_facts.
Context {N : JSNumber}.
Local Open Scope exec_scope.

Lemma heap_insert_id (h : heap) (c : ctx_ref) (x : CalculationContext) :
  h !! c = Some x -> <[c := x]> h = h.
Proof. apply list_insert_id. Qed.

(** A push into a context that records no register access stores the
    element as [bind] returns it. *)
Lemma pushStack_bind h B e x :
  h !! B = Some x ->
  match x with Default _ => True | Optimization o => _registerAccess o = false end ->
  exists x', pushStack B e h = (Ok tt, <[B := x']> h)
             /\ _stack x' = _stack x ++ [bind e B].
Proof.
  intros HB Hx. pose proof (lookup_lt_Some _ _ _ HB) as Hlt.
  rewrite <- (heap_insert_id h B x HB). destruct x as [[s R]|[s P b]].
  - exists (Default {| default_stack := s ++ [bind e B]; _registers := R |}).
    rewrite heap_insert. split; [now apply pushStack_default | reflexivity].
  - cbn in Hx. subst b.
    exists (Optimization {| optimization_stack := s ++ [bind e B]; _popped := [];
                            _registerAccess := false |}).
    rewrite heap_insert. split; [now apply pushStack_optimization | reflexivity].
Qed.

Lemma popStack_value_default h c s e R : c < length h ->
  popStack_value c (<[c := Default {| default_stack := s ++ [e]; _registers := R |}]> h)
  = get_value e (<[c := Default {| default_stack := s; _registers := R |}]> h).
Proof.
  intros Hc. unfold popStack_value.
  now rewrite (bindM_Ok _ _ _ _ _ (popStack_default _ _ _ _ _ Hc)).
Qed.

Lemma popStack_literal_default h c s v R : c < length h ->
  popStack_value c
    (<[c := Default {| default_stack := s ++ [_Literal v]; _registers := R |}]> h)
  = (Ok v, <[c := Default {| default_stack := s; _registers := R |}]> h).
Proof. intros Hc. now rewrite popStack_value_default. Qed.

(** The assign opcode in a default context whose stack ends with a
    reference to a register of the same context and a literal. *)
Lemma assign_same_context h n s name v R : n < length h ->
  Opcode_perform {| opcode_kind := opAssign; opcode_value := VNull |} n
    (<[n := Default {| default_stack :=
                         s ++ [_VariableReference name n; _Literal v];
                       _registers := R |}]> h)
  = (Ok tt, <[n := Default {| default_stack := s ++ [_Literal v];
                              _registers := <[name := v]> R |}]> h).
Proof.
  intros Hn. rewrite Opcode_perform_eq. cbn [opcode_kind].
  replace (s ++ [_VariableReference name n; _Literal v])
    with ((s ++ [_VariableReference name n]) ++ [_Literal v])
    by now rewrite <- app_assoc.
  rewrite (bindM_Ok _ _ _ _ _ (popStack_literal_default _ _ _ _ _ Hn)).
  rewrite (bindM_Ok _ _ _ _ _ (popStack_default _ _ _ _ _ Hn)).
  cbn [set_value].
  rewrite (bindM_Ok _ _ _ _ _ (setRegister_default _ _ _ _ _ _ Hn)).
  now rewrite pushStack_default by exact Hn.
Qed.

(** The same with a reference into another default context [c]: the
    register of [c] is written. *)
Lemma assign_other_context h n c s name v R sc Rc :
  n < length h -> c <> n ->
  h !! c = Some (Default {| default_stack := sc; _registers := Rc |}) ->
  Opcode_perform {| opcode_kind := opAssign; opcode_value := VNull |} n
    (<[n := Default {| default_stack :=
                         s ++ [_VariableReference name c; _Literal v];
                       _registers := R |}]> h)
  = (Ok tt,
     <[n := Default {| default_stack := s ++ [_Literal v]; _registers := R |}]>
       (<[c := Default {| default_stack := sc;
                          _registers := <[name := v]> Rc |}]> h)).
Proof.
  intros Hn Hne Hc. pose proof (lookup_lt_Some _ _ _ Hc) as Hlt.
  rewrite Opcode_perform_eq. cbn [opcode_kind].
  replace (s ++ [_VariableReference name c; _Literal v])
    with ((s ++ [_VariableReference name c]) ++ [_Literal v])
    by now rewrite <- app_assoc.
  rewrite (bindM_Ok _ _ _ _ _ (popStack_literal_default _ _ _ _ _ Hn)).
  rewrite (bindM_Ok _ _ _ _ _ (popStack_default _ _ _ _ _ Hn)).
  cbn [set_value].
  assert (Hc' : <[n := Default {| default_stack := s; _registers := R |}]> h !! c
                = Some (Default {| default_stack := sc; _registers := Rc |}))
    by (rewrite list_lookup_insert_ne by auto; exact Hc).
  rewrite <- (heap_insert_id _ c _ Hc').
  rewrite (bindM_Ok _ _ _ _ _
             (setRegister_default _ _ _ _ _ _ ltac:(rewrite length_insert; exact Hlt))).
  rewrite (list_insert_insert_ne h c n) by auto.
  now rewrite pushStack_default by (rewrite length_insert; exact Hn).
Qed.

(** With a literal as the target the setter throws. *)
Lemma assign_to_literal h n s w v R : n < length h ->
  Opcode_perform {| opcode_kind := opAssign; opcode_value := VNull |} n
    (<[n := Default {| default_stack := s ++ [_Literal w; _Literal v];
                       _registers := R |}]> h)
  = (Throw (CalculationException "You can't set a value to a literal"),
     <[n := Default {| default_stack := s; _registers := R |}]> h).
Proof.
  intros Hn. rewrite Opcode_perform_eq. cbn [opcode_kind].
  replace (s ++ [_Literal w; _Literal v])
    with ((s ++ [_Literal w]) ++ [_Literal v])
    by now rewrite <- app_assoc.
  rewrite (bindM_Ok _ _ _ _ _ (popStack_literal_default _ _ _ _ _ Hn)).
  rewrite (bindM_Ok _ _ _ _ _ (popStack_default _ _ _ _ _ Hn)).
  reflexivity.
Qed.

(** With nothing under the value there is no target. *)
Lemma assign_without_target h n v R : n < length h ->
  Opcode_perform {| opcode_kind := opAssign; opcode_value := VNull |} n
    (<[n := Default {| default_stack := [_Literal v]; _registers := R |}]> h)
  = (Throw TypeError,
     <[n := Default {| default_stack := []; _registers := R |}]> h).
Proof.
  intros Hn. rewrite Opcode_perform_eq. cbn [opcode_kind].
  change [_Literal v] with ([] ++ [_Literal v]).
  rewrite (bindM_Ok _ _ _ _ _ (popStack_literal_default _ _ [] _ _ Hn)).
  rewrite (bindM_Ok _ _ _ _ _ (popStack_default_empty _ _ _ Hn)).
  reflexivity.
Qed.

End Reference_facts.

(** ** Facts about programs that touch no register *)

Section Constant_facts.
Context {N : JSNumber}.
Local Open Scope exec_scope.

Lemma execute_fresh (p : Program) (h : heap) :
  execute p None h
  = execute p (Some (length h))
      (h ++ [Default {| default_stack := []; _registers := ∅ |}]).
Proof. reflexivity. Qed.

Lemma execute_in (p : Program) (c : ctx_ref) (h : heap) :
  execute p (Some c) h = (do! perform_all (_ops p) c in popStack_value c) h.
Proof. reflexivity. Qed.

(** A program that touches no register and returns [v] on a fresh context
    leaves [v] on top of a stack of literals. *)
Lemma execute_constant (p : Program) (h : heap) (v : num) :
  Forall touches_no_register (_ops p) ->
  fst (execute p None h) = Ok v ->
  exists vs, fold_opcodes (_ops p) [] = Some (vs ++ [v]).
Proof.
  intros Hall Hv. rewrite execute_fresh, execute_in in Hv.
  set (c := length h) in *.
  set (h1 := h ++ [Default {| default_stack := []; _registers := ∅ |}]) in *.
  assert (Hc : c < length h1) by (unfold h1, c; rewrite length_app; simpl; lia).
  assert (Hh1 : h1 = <[c := Default {| default_stack := literals [];
                                       _registers := ∅ |}]> h1).
  { symmetry. apply list_insert_id. unfold h1, c. apply list_lookup_middle. reflexivity. }
  rewrite Hh1 in Hv. unfold bindM in Hv.
  destruct (perform_all (_ops p) c _) as [[[]| |] h2] eqn:Hrun;
    cbn [fst] in Hv; try discriminate.
  apply perform_all_default_fold in Hrun as (vs' & Hfold & ->); auto.
  pose proof (pop_last_spec vs') as Hvs'.
  destruct (pop_last vs') as [[vs v']|]; subst vs'.
  - rewrite popStack_value_default_literal in Hv by exact Hc.
    cbn [fst] in Hv. injection Hv as <-. eauto.
  - cbn [literals map] in Hv. rewrite popStack_value_default_empty in Hv by exact Hc.
    discriminate.
Qed.

(** The optimizer turns it into the one opcode that pushes [v]. *)
Lemma optimize_constant (p : Program) (vs : list num) (v : num) :
  Forall touches_no_register (_ops p) ->
  fold_opcodes (_ops p) [] = Some (vs ++ [v]) ->
  optimize p = Ok {| _ops := [{| opcode_kind := numberLiteral;
                                 opcode_value := VNumber v |}] |}.
Proof.
  intros Hall Hfold. unfold optimize, optimize_with.
  set (h0 := [Optimization {| optimization_stack := []; _popped := [];
                              _registerAccess := false |}]).
  assert (Hnew : new_OptimizationContext []
                 = (Ok 0, <[0 := Optimization {| optimization_stack := literals [];
                                                 _popped := [];
                                                 _registerAccess := false |}]> h0))
    by reflexivity.
  rewrite (bindM_Ok _ _ _ _ _ Hnew).
  assert (Hc : 0 < length h0) by (simpl; lia).
  destruct (optimize_loop_fold (_ops p) h0 0 [] (vs ++ [v]) [] [] 0 Hall Hc Hfold)
    as [P' Hloop].
  rewrite (bindM_Ok _ _ _ _ _ Hloop).
  rewrite (bindM_Ok _ _ _ _ _ (topIsLiteral_optimization _ _ _ Hc)).
  cbn [optimization_stack]. rewrite literals_app, last_snoc.
  erewrite bindM_Ok; [reflexivity|].
  apply topValue_optimization_literal; [exact Hc|].
  cbn [optimization_stack]. apply last_snoc.
Qed.

(** The one-opcode program returns [v] on every default context and leaves
    the context as it was. *)
Lemma execute_number (v : num) (h : heap) (c : ctx_ref)
  (d : _DefaultCalculationContext) :
  h !! c = Some (Default d) ->
  execute {| _ops := [{| opcode_kind := numberLiteral;
                         opcode_value := VNumber v |}] |} (Some c) h
  = (Ok v, h).
Proof.
  intros Hd. pose proof (lookup_lt_Some _ _ _ Hd) as Hc.
  rewrite execute_in. cbn [_ops perform_all].
  rewrite <- (list_insert_id h c _ Hd) at 1. destruct d as [s R].
  rewrite Opcode_perform_eq. cbn [opcode_kind opcode_value].
  rewrite (bindM_Ok _ _ _ _ _
             (bindM_Ok _ _ _ _ _ (pushStack_default _ _ _ _ _ Hc))).
  cbn [bind]. rewrite popStack_literal_default by exact Hc.
  now rewrite (list_insert_id h c _ Hd).
Qed.

Lemma execute_number_fresh (v : num) (h : heap) :
  fst (execute {| _ops := [{| opcode_kind := numberLiteral;
                              opcode_value := VNumber v |}] |} None h)
  = Ok v.
Proof.
  rewrite execute_fresh. erewrite execute_number; [reflexivity|].
  apply list_lookup_middle. reflexivity.
Qed.

End Constant_facts.

(** ** Facts about chains of powers *)

(** The opcodes of a chain of two [**] between operand tokens. *)
Lemma parse_power_chain {N : JSNumber} (ka kb kc : _Kind) (a b c : string) :
  operand_kind ka -> operand_kind kb -> operand_kind kc ->
  let tokens := [operand_token ka a; symbol_token opPower; operand_token kb b;
                 symbol_token opPower; operand_token kc c] in
  _parseTokens [] tokens 0
  = Ok ([operand_of ka a; operand_of kb b; Operator opPower;
         operand_of kc c; Operator opPower], tokens, 5).
Proof. intros [-> | ->] [-> | ->] [-> | ->]; reflexivity. Qed.

(** * The properties of the specification *)

(** C1, on the source ["a+1"]: the optimizer keeps the identifier and the
    add opcode and drops the literal 1 it held back, so the optimized program
    pops an empty stack; the program itself returns [1 + a] (with 0 for an
    unset [a]) and leaves the context as it was. In binary64 with [a = 10]
    the program returns 11. *)
Theorem optimized_sum_loses_its_literal :
  (forall (N : JSNumber) (R : gmap string num),
     let h := [Default {| default_stack := []; _registers := R |}] in
     exists p p',
       newProgram "a+1" = Ok p /\ optimize p = Ok p'
       /\ _ops p = [Identifier "a"; Number (num_of_string "1"); Operator opAdd]
       /\ _ops p' = [Identifier "a"; Operator opAdd]
       /\ execute p (Some 0) h
          = (Ok (num_add (num_of_string "1") (default num_zero (R !! "a"))), h)
       /\ execute p' (Some 0) h = (Throw TypeError, h))
  /\ (forall approx : float -> float -> float,
        let ten : @num (binary64 approx) := 10%float in
        let h : @heap (binary64 approx) :=
          [Default {| default_stack := []; _registers := {["a" := ten]} |}] in
        exists p p' : @Program (binary64 approx),
          newProgram "a+1" = Ok p /\ optimize p = Ok p'
          /\ fst (execute p (Some 0) h) = Ok 11%float
          /\ fst (execute p' (Some 0) h) = Throw TypeError).
Proof.
  split.
  - intros N R h.
    exists {| _ops := [Identifier "a"; Number (num_of_string "1"); Operator opAdd] |},
           {| _ops := [Identifier "a"; Operator opAdd] |}.
    repeat split; try reflexivity.
  - intros approx ten h.
    exists {| _ops := [Identifier "a"; Number (1%float : @num (binary64 approx));
                       Operator opAdd] |},
           {| _ops := [Identifier "a"; Operator opAdd] |}.
    repeat split; vm_compute; reflexivity.
Qed.

(** C2, on the source ["-3**2"]: the text of the literal becomes ["-3"], but
    the opcode is made from the minus token, so it is a subtract opcode; the
    program pops an empty stack when it runs. *)
Theorem leading_minus_compiles_to_subtract :
  forall N : JSNumber,
    newProgram "-3**2"
    = Ok {| _ops := [{| opcode_kind := opSubtract; opcode_value := VString "-3" |};
                     Number (num_of_string "2"); Operator opPower] |}
    /\ exists p, newProgram "-3**2" = Ok p
                 /\ fst (execute p None []) = Throw TypeError.
Proof.
  intros N. split; [reflexivity|]. eexists. split; reflexivity.
Qed.

(** C3, on a reference made against a context [A] and pushed into another
    context [B]: [bind] returns a reference that keeps [A], so the element on
    the stack of [B] names [A]; its value is read from, and written to, the
    registers of [A]. *)
Theorem pushed_reference_keeps_its_origin :
  (forall (N : JSNumber) (h : heap) (A B : ctx_ref) (name : string)
          (x : CalculationContext),
     h !! B = Some x ->
     match x with Default _ => True | Optimization o => _registerAccess o = false end ->
     exists x', pushStack B (_VariableReference name A) h = (Ok tt, <[B := x']> h)
                /\ last (_stack x') = Some (_VariableReference name A))
  /\ (forall (N : JSNumber) (x y v : num),
        let A := 0 in
        let B := 1 in
        let h := [Default {| default_stack := []; _registers := {["a" := x]} |};
                  Default {| default_stack := []; _registers := {["a" := y]} |}] in
        (do! pushStack B (_VariableReference "a" A) in popStack_value B)%exec h
        = (Ok x, h)
        /\ (do! pushStack B (_VariableReference "a" A) in
            let! e := popStack B in
            match e with
            | Some e => set_value e v
            | None => throw TypeError
            end)%exec h
           = (Ok tt,
              [Default {| default_stack := []; _registers := {["a" := v]} |};
               Default {| default_stack := []; _registers := {["a" := y]} |}])).
Proof.
  split.
  - intros N h A B name x HB Hx.
    destruct (pushStack_bind h B (_VariableReference name A) x HB Hx)
      as (x' & Hpush & Hstack).
    exists x'. split; [exact Hpush|]. rewrite Hstack. cbn [bind]. apply last_snoc.
  - intros N x y v. split; vm_compute; reflexivity.
Qed.

Lemma pushed_reference_keeps_its_origin_witness :
  exists x',
    @pushStack binary64_nan 1 (_VariableReference "a" 0)
      [Default {| default_stack := []; _registers := ∅ |};
       Default {| default_stack := []; _registers := ∅ |}]
    = (Ok tt, <[1 := x']> [Default {| default_stack := []; _registers := ∅ |};
                           Default {| default_stack := []; _registers := ∅ |}])
    /\ last (_stack x') = Some (_VariableReference "a" 0).
Proof.
  refine (proj1 pushed_reference_keeps_its_origin binary64_nan _ 0 1 "a" _ _ _).
  - reflexivity.
  - exact I.
Defined.

(** C4, as amended: a program none of whose opcodes is an identifier or an
    assign opcode, and which has a value [v] (it returns [v] on a fresh
    context), is optimized to the single opcode [Number v]; that program has
    one opcode and returns [v]. ["2+3"] is such a program: its optimized
    form is the one opcode that pushes [3 + 2], which is 5 in binary64. *)
Theorem constant_program_folds_to_one_number :
  (forall (N : JSNumber) (p : Program) (h : heap) (v : num),
     Forall touches_no_register (_ops p) ->
     fst (execute p None h) = Ok v ->
     optimize p = Ok {| _ops := [Number v] |}
     /\ numOpcodes {| _ops := [Number v] |} = 1
     /\ (forall h', fst (execute {| _ops := [Number v] |} None h') = Ok v)
     /\ (forall h' c d, h' !! c = Some (Default d) ->
           execute {| _ops := [Number v] |} (Some c) h' = (Ok v, h')))
  /\ (forall N : JSNumber,
        exists p,
          newProgram "2+3" = Ok p
          /\ Forall touches_no_register (_ops p)
          /\ fst (execute p None [])
             = Ok (num_add (num_of_string "3") (num_of_string "2"))
          /\ optimize p
             = Ok {| _ops := [Number (num_add (num_of_string "3")
                                              (num_of_string "2"))] |})
  /\ (forall approx : float -> float -> float,
        exists p p' : @Program (binary64 approx),
          newProgram "2+3" = Ok p /\ optimize p = Ok p'
          /\ numOpcodes p' = 1
          /\ fst (execute p' None []) = Ok 5%float).
Proof.
  split; [|split].
  - intros N p h v Hall Hv.
    destruct (execute_constant p h v Hall Hv) as [vs Hfold].
    split; [exact (optimize_constant p vs v Hall Hfold)|].
    split; [reflexivity|].
    split; [intros h'; apply execute_number_fresh|].
    intros h' c d Hd. exact (execute_number v h' c d Hd).
  - intros N.
    exists {| _ops := [Number (num_of_string "2"); Number (num_of_string "3");
                       Operator opAdd] |}.
    split; [reflexivity|]. split.
    + repeat constructor; discriminate.
    + split; reflexivity.
  - intros approx.
    exists {| _ops := [Number (2%float : @num (binary64 approx));
                       Number (3%float : @num (binary64 approx)); Operator opAdd] |},
           {| _ops := [Number (5%float : @num (binary64 approx))] |}.
    repeat split; vm_compute; reflexivity.
Qed.

Lemma constant_program_folds_to_one_number_witness :
  let p : @Program binary64_nan :=
    {| _ops := [Number (2%float : @num binary64_nan);
                Number (3%float : @num binary64_nan); Operator opAdd] |} in
  optimize p = Ok {| _ops := [Number (5%float : @num binary64_nan)] |}.
Proof.
  refine (proj1 (proj1 constant_program_folds_to_one_number binary64_nan _ [] _ _ _)).
  - repeat constructor; discriminate.
  - reflexivity.
Defined.

(** C4 as stated fails on the program with no opcode: none of its opcodes
    touches a register, and [optimize] returns it as it is. *)
Lemma empty_program_is_not_folded :
  let p : @Program binary64_nan := {| _ops := [] |} in
  Forall touches_no_register (_ops p)
  /\ optimize p = Ok p
  /\ numOpcodes p = 0.
Proof. repeat split. constructor. Qed.

(** C5, on the source ["a+1"]: the first pass returns the identifier and
    the add opcode; the second pass replays them, and the add opcode pops an
    empty stack. *)
Theorem second_pass_fails_on_optimized_sum :
  forall N : JSNumber,
    exists p p',
      newProgram "a+1" = Ok p /\ optimize p = Ok p'
      /\ _ops p' = [Identifier "a"; Operator opAdd]
      /\ optimize p' = Throw TypeError.
Proof.
  intros N.
  exists {| _ops := [Identifier "a"; Number (num_of_string "1"); Operator opAdd] |},
         {| _ops := [Identifier "a"; Operator opAdd] |}.
  repeat split; reflexivity.
Qed.

(** C6: for operands [a], [b], [c] (texts that the number pattern or the
    identifier pattern matches as a whole) the source [a**b**c] compiles to
    the opcodes of [a], [b], power, [c], power, that is to [(a ** b) ** c];
    so does every chain of two power tokens between number or identifier
    tokens. ["2**3**2"] compiles so, evaluates to [(2 ** 3) ** 2] in every
    number model, and to 64 in binary64. *)
Theorem power_chain_is_left_associative :
  (forall (N : JSNumber) (ka kb kc : _Kind) (a b c : string),
     is_operand ka a -> is_operand kb b -> is_operand kc c ->
     newProgram (a +:+ "**" +:+ b +:+ "**" +:+ c)
     = Ok {| _ops := [operand_of ka a; operand_of kb b; Operator opPower;
                      operand_of kc c; Operator opPower] |})
  /\ (forall (N : JSNumber) (ka kb kc : _Kind) (a b c : string),
        operand_kind ka -> operand_kind kb -> operand_kind kc ->
        let tokens := [operand_token ka a; symbol_token opPower; operand_token kb b;
                       symbol_token opPower; operand_token kc c] in
        _parseTokens [] tokens 0
        = Ok ([operand_of ka a; operand_of kb b; Operator opPower;
               operand_of kc c; Operator opPower], tokens, 5))
  /\ (forall N : JSNumber,
        newProgram "a**b**c"
        = Ok {| _ops := [Identifier "a"; Identifier "b"; Operator opPower;
                         Identifier "c"; Operator opPower] |}
        /\ newProgram "2**3**2"
           = Ok {| _ops := [Number (num_of_string "2"); Number (num_of_string "3");
                            Operator opPower;
                            Number (num_of_string "2"); Operator opPower] |}
        /\ exists p, newProgram "2**3**2" = Ok p
             /\ fst (execute p None [])
                = Ok (num_pow (num_pow (num_of_string "2") (num_of_string "3"))
                              (num_of_string "2")))
  /\ (forall approx : float -> float -> float,
        exists p : @Program (binary64 approx),
          newProgram "2**3**2" = Ok p
          /\ fst (execute p None []) = Ok 64%float).
Proof.
  split; [|split; [|split]].
  - intros N ka kb kc a b c Ha Hb Hc. unfold newProgram.
    rewrite (tokenize_power_chain ka kb kc a b c Ha Hb Hc). cbn [bindO].
    now rewrite (parse_power_chain ka kb kc a b c (is_operand_kind _ _ Ha)
                   (is_operand_kind _ _ Hb) (is_operand_kind _ _ Hc)).
  - intros N ka kb kc a b c Ha Hb Hc. now apply parse_power_chain.
  - intros N. split; [reflexivity|]. split; [reflexivity|].
    eexists. split; reflexivity.
  - intros approx. eexists. split; reflexivity.
Qed.

Lemma power_chain_is_left_associative_witness :
  @newProgram binary64_nan ("2" +:+ "**" +:+ "3" +:+ "**" +:+ "2")
  = Ok {| _ops := [operand_of numberLiteral "2"; operand_of numberLiteral "3";
                   Operator opPower; operand_of numberLiteral "2";
                   Operator opPower] |}.
Proof.
  refine (proj1 power_chain_is_left_associative binary64_nan
            numberLiteral numberLiteral numberLiteral "2" "3" "2" _ _ _);
    reflexivity.
Defined.

(** C7: on a fresh context ["a=5"] returns 5 and leaves 5 in register [a],
    and ["a+1"] then returns 6 on the same context. The assign opcode pops
    the value and then the target; a reference as target has the register
    of its own context written and the value is pushed back as a literal; a
    literal as target makes the setter throw, and a missing target is a
    [TypeError]. *)
Theorem assignment_writes_the_register :
  (forall N : JSNumber,
     exists p1 p2 h1,
       newProgram "a=5" = Ok p1 /\ newProgram "a+1" = Ok p2
       /\ execute p1 None [] = (Ok (num_of_string "5"), h1)
       /\ getRegister 0 "a" h1 = (Ok (Some (num_of_string "5")), h1)
       /\ fst (execute p2 (Some 0) h1)
          = Ok (num_add (num_of_string "1") (num_of_string "5")))
  /\ (forall approx : float -> float -> float,
        exists (p1 p2 : @Program (binary64 approx)) h1,
          newProgram "a=5" = Ok p1 /\ newProgram "a+1" = Ok p2
          /\ execute p1 None [] = (Ok 5%float, h1)
          /\ getRegister 0 "a" h1 = (Ok (Some 5%float), h1)
          /\ fst (execute p2 (Some 0) h1) = Ok 6%float)
  /\ (forall (N : JSNumber) (h : heap) (n : ctx_ref) (s : list _StackElement)
             (name : string) (v : num) (R : gmap string num),
        n < length h ->
        Opcode_perform (Operator opAssign) n
          (<[n := Default {| default_stack :=
                               s ++ [_VariableReference name n; _Literal v];
                             _registers := R |}]> h)
        = (Ok tt, <[n := Default {| default_stack := s ++ [_Literal v];
                                    _registers := <[name := v]> R |}]> h))
  /\ (forall (N : JSNumber) (h : heap) (n c : ctx_ref) (s sc : list _StackElement)
             (name : string) (v : num) (R Rc : gmap string num),
        n < length h -> c <> n ->
        h !! c = Some (Default {| default_stack := sc; _registers := Rc |}) ->
        Opcode_perform (Operator opAssign) n
          (<[n := Default {| default_stack :=
                               s ++ [_VariableReference name c; _Literal v];
                             _registers := R |}]> h)
        = (Ok tt,
           <[n := Default {| default_stack := s ++ [_Literal v]; _registers := R |}]>
             (<[c := Default {| default_stack := sc;
                                _registers := <[name := v]> Rc |}]> h)))
  /\ (forall (N : JSNumber) (h : heap) (n : ctx_ref) (s : list _StackElement)
             (w v : num) (R : gmap string num),
        n < length h ->
        Opcode_perform (Operator opAssign) n
          (<[n := Default {| default_stack := s ++ [_Literal w; _Literal v];
                             _registers := R |}]> h)
        = (Throw (CalculationException "You can't set a value to a literal"),
           <[n := Default {| default_stack := s; _registers := R |}]> h))
  /\ (forall (N : JSNumber) (h : heap) (n : ctx_ref) (v : num) (R : gmap string num),
        n < length h ->
        Opcode_perform (Operator opAssign) n
          (<[n := Default {| default_stack := [_Literal v]; _registers := R |}]> h)
        = (Throw TypeError,
           <[n := Default {| default_stack := []; _registers := R |}]> h)).
Proof.
  repeat split.
  - intros N.
    exists {| _ops := [Identifier "a"; Number (num_of_string "5"); Operator opAssign] |},
           {| _ops := [Identifier "a"; Number (num_of_string "1"); Operator opAdd] |},
           [Default {| default_stack := [];
                       _registers := {["a" := num_of_string "5"]} |}].
    repeat split; vm_compute; reflexivity.
  - intros approx.
    exists {| _ops := [Identifier "a"; Number (5%float : @num (binary64 approx));
                       Operator opAssign] |},
           {| _ops := [Identifier "a"; Number (1%float : @num (binary64 approx));
                       Operator opAdd] |},
           [Default {| default_stack := [];
                       _registers := {["a" := (5%float : @num (binary64 approx))]} |}].
    repeat split; vm_compute; reflexivity.
  - intros. now apply assign_same_context.
  - intros. now apply assign_other_context.
  - intros. now apply assign_to_literal.
  - intros. now apply assign_without_target.
Qed.

Lemma assignment_writes_the_register_witness :
  let five : @num binary64_nan := 5%float in
  let h : @heap binary64_nan := [Default {| default_stack := []; _registers := ∅ |}] in
  Opcode_perform (Operator opAssign) 0
    (<[0 := Default {| default_stack := [] ++ [_VariableReference "a" 0; _Literal five];
                       _registers := ∅ |}]> h)
  = (Ok tt, <[0 := Default {| default_stack := [] ++ [_Literal five];
                              _registers := <["a" := five]> ∅ |}]> h).
Proof.
  refine (proj1 (proj2 (proj2 assignment_writes_the_register))
            binary64_nan _ 0 [] "a" _ ∅ _).
  simpl. lia.
Defined.

(** C8, on the source ["(1+2"]: the compiler reads the token after the last
    one, which is a [TypeError]; the parse exception for a missing bracket is
    thrown when a token that is no closing bracket follows, as in ["(1 2"]. *)
Theorem unclosed_bracket_at_end_is_a_TypeError :
  forall N : JSNumber,
    newProgram "(1+2" = Throw TypeError
    /\ newProgram "(1 2"
       = Throw (CalculationParseException "Ouch, no closing bracket" None None).
Proof. intros N. split; reflexivity. Qed.

(** C9: when the tokenizer starts a turn at an index that holds no space
    and where no symbol, no number and no identifier matches, tokenizing
    (and so [newProgram]) throws a parse exception that carries the
    character at that index in its message, the whole buffer, and the index;
    [newProgram "1+@"] throws it with offset 2. *)
Theorem strange_character_is_reported :
  (forall (N : JSNumber) (buffer : string) (i : nat) (c : ascii),
     reaches buffer i ->
     String.get i buffer = Some c -> c <> " "%char ->
     _findToken (_startCharacterTokens c) buffer i = None ->
     exec number_pattern buffer i = None ->
     exec identifier_pattern buffer i = None ->
     let e := CalculationParseException
                ("Found a strange character in the source at " +:+ string_of_nat i
                   +:+ ": " +:+ String c EmptyString)
                (Some buffer) (Some i) in
     _tokenize buffer = Throw e /\ newProgram buffer = Throw e)
  /\ (forall N : JSNumber,
        newProgram "1+@"
        = Throw (CalculationParseException
                   "Found a strange character in the source at 2: @"
                   (Some "1+@") (Some 2))).
Proof.
  split.
  - intros N buffer i c Hr Hc Hsp Hsym Hnum Hid e.
    assert (Ht : _tokenize buffer = Throw e).
    { eapply tokenize_reaches_throw; [exact Hr|].
      intros fuel. now apply tokenize_strange. }
    split; [exact Ht|]. unfold newProgram. now rewrite Ht.
  - intros N. reflexivity.
Qed.

Lemma strange_character_is_reported_witness :
  @_tokenize binary64_nan "1+@"
  = Throw (CalculationParseException
             "Found a strange character in the source at 2: @"
             (Some "1+@") (Some 2)).
Proof.
  refine (proj1 (proj1 strange_character_is_reported
                   binary64_nan "1+@" 2 "@"%char _ _ _ _ _ _)).
  - eapply reaches_next; [eapply reaches_next; [apply reaches_start|]|]; reflexivity.
  - reflexivity.
  - discriminate.
  - reflexivity.
  - reflexivity.
  - reflexivity.
Defined.

(** C10, as amended: when the tokens of a source are a complete expression
    (the compiler, given these tokens alone, consumes all of them) followed
    by further tokens the first of which is not a binary operator,
    [newProgram] returns the program of the leading expression and throws
    nothing; the sources ["1 2"] and ["1)"] give the program of ["1"]. *)
Theorem trailing_tokens_are_discarded :
  (forall (N : JSNumber) (source : string) (tokens extra : list _Token)
          (ops : list _Opcode) (tokens' : list _Token),
     _tokenize source = Ok (tokens ++ extra) ->
     _parseTokens [] tokens 0 = Ok (ops, tokens', length tokens) ->
     extra <> [] -> trailing extra ->
     newProgram source = Ok {| _ops := ops |})
  /\ (forall N : JSNumber,
        newProgram "1" = Ok {| _ops := [Number (num_of_string "1")] |}
        /\ newProgram "1 2" = newProgram "1"
        /\ newProgram "1)" = newProgram "1").
Proof.
  split.
  - intros N source tokens extra ops tokens' Htok Hparse _ Hextra.
    unfold newProgram. rewrite Htok. cbn [bindO]. unfold _parseTokens in *.
    destruct (expression_extends extra Hextra (S (length tokens))
                (S (length (tokens ++ extra)))
                ltac:(rewrite length_app; lia) _expression
                ltac:(intros k Hk; now apply bool_decide_eq_true) None
                _ _ _ _ _ _ Hparse) as (H' & _ & _).
    now rewrite H'.
  - intros N. repeat split; reflexivity.
Qed.

Lemma trailing_tokens_are_discarded_witness :
  @newProgram binary64_nan "1 2" = Ok {| _ops := [@Number binary64_nan 1%float] |}.
Proof.
  refine (proj1 trailing_tokens_are_discarded binary64_nan "1 2"
            [{| token_kind := numberLiteral; token_value := Some "1" |}]
            [{| token_kind := numberLiteral; token_value := Some "2" |}]
            _ [{| token_kind := numberLiteral; token_value := Some "1" |}] _ _ _ _).
  - reflexivity.
  - reflexivity.
  - discriminate.
  - reflexivity.
Defined.

(** C10 as stated fails on ["1 -"]: the tokens are the complete expression
    [1] followed by one more token, and [newProgram] throws. *)
Lemma trailing_operator_is_not_discarded :
  let one : @_Token := {| token_kind := numberLiteral; token_value := Some "1" |} in
  @_tokenize binary64_nan "1 -" = Ok ([one] ++ [symbol_token opSubtract])
  /\ @_parseTokens binary64_nan [] [one] 0
     = Ok ([@Number binary64_nan 1%float], [one], length [one])
  /\ @newProgram binary64_nan "1 -" = Throw TypeError.
Proof. repeat split. Qed.

(** * Further properties of the code *)

(** X1. Tokenizing and compiling always come to an end: the tokenizer moves on
    by at least one character in every turn and the compiler by at least one
    token in every call that is not a call into the parent group, so
    [newProgram] returns a program or throws for every source. *)
Theorem newProgram_returns_or_throws :
  forall (N : JSNumber) (source : string),
    (exists p, newProgram source = Ok p) \/ (exists e, newProgram source = Throw e).
Proof.
  intros N source. pose proof (newProgram_defined source) as H.
  destruct (newProgram source) as [p|e|]; [left; eauto | right; eauto | contradiction].
Qed.

(** X2. The arithmetic rules pop the right operand [r] first and the left
    operand [l] second, and push [r + l], [-r + l], [r * l], [l / r] and
    [l ** r]. *)
Theorem arithmetic_rules_pop_right_then_left :
  forall (N : JSNumber) (h : heap) (n : ctx_ref) (vs : list num) (l r : num)
         (R : gmap string num),
    n < length h ->
    let before := <[n := Default {| default_stack := literals (vs ++ [l; r]);
                                    _registers := R |}]> h in
    let after v := <[n := Default {| default_stack := literals (vs ++ [v]);
                                     _registers := R |}]> h in
    Opcode_perform (Operator opAdd) n before = (Ok tt, after (num_add r l))
    /\ Opcode_perform (Operator opSubtract) n before
       = (Ok tt, after (num_add (num_neg r) l))
    /\ Opcode_perform (Operator opMultiply) n before = (Ok tt, after (num_mul r l))
    /\ Opcode_perform (Operator opDivide) n before = (Ok tt, after (num_div l r))
    /\ Opcode_perform (Operator opPower) n before = (Ok tt, after (num_pow l r)).
Proof.
  intros N h n vs l r R Hn before after.
  assert (Hfold : forall f, fold_binary f (vs ++ [l; r]) = Some (vs ++ [f r l])).
  { intros f. unfold fold_binary, pop2.
    replace (vs ++ [l; r]) with ((vs ++ [l]) ++ [r]) by now rewrite <- app_assoc.
    now rewrite !pop_last_app. }
  repeat split; rewrite Opcode_perform_eq; cbn [Operator opcode_kind];
    unfold before, after;
    (etransitivity; [apply binary_default; exact Hn|]); now rewrite Hfold.
Qed.

Lemma arithmetic_rules_pop_right_then_left_witness :
  let seven : @num binary64_nan := 7%float in
  let two : @num binary64_nan := 2%float in
  let h : @heap binary64_nan := [Default {| default_stack := []; _registers := ∅ |}] in
  Opcode_perform (Operator opSubtract) 0
    (<[0 := Default {| default_stack := literals ([] ++ [seven; two]);
                       _registers := ∅ |}]> h)
  = (Ok tt, <[0 := Default {| default_stack :=
                                literals ([] ++ [num_add (num_neg two) seven]);
                              _registers := ∅ |}]> h).
Proof.
  refine (proj1 (proj2 (arithmetic_rules_pop_right_then_left binary64_nan _ 0 [] _ _ ∅ _))).
  simpl. lia.
Defined.

(** X3. A register that was never set reads as 0, and a program that leaves
    nothing on the stack makes [execute] throw a [TypeError]. *)
Theorem unset_register_and_empty_stack :
  (forall (N : JSNumber) (h : heap) (c : ctx_ref) (s : list _StackElement)
          (R : gmap string num) (name : string),
     h !! c = Some (Default {| default_stack := s; _registers := R |}) ->
     R !! name = None ->
     get_value (_VariableReference name c) h = (Ok num_zero, h))
  /\ (forall N : JSNumber, fst (execute {| _ops := [] |} None []) = Throw TypeError).
Proof.
  split.
  - intros N h c s R name Hc Hname. unfold get_value, bindM, getRegister.
    rewrite Hc. cbn [_registers]. now rewrite Hname.
  - intros N. reflexivity.
Qed.

Lemma unset_register_and_empty_stack_witness :
  let h : @heap binary64_nan := [Default {| default_stack := []; _registers := ∅ |}] in
  get_value (_VariableReference "a" 0) h = (Ok 0%float, h).
Proof.
  refine (proj1 unset_register_and_empty_stack binary64_nan _ 0 [] ∅ "a" _ _);
    reflexivity.
Defined.

(** ** The tokenizer *)

(** *** Facts about the texts of tokens *)

Section Text_facts.
Context {N : JSNumber}.
Local Open Scope parse_scope.

Lemma accepted_app re (s t : string) :
  accepted re s -> accepted re t -> accepted re (s +:+ t).
Proof.
  induction s as [|c s IH]; [now rewrite append_empty|].
  rewrite append_String. cbn [accepted]. intuition.
Qed.

Lemma accepted_impl re re' (s : string) :
  (forall c, rejects re c = false -> rejects re' c = false) ->
  accepted re s -> accepted re' s.
Proof. intros Hc. induction s as [|c s IH]; cbn [accepted]; intuition. Qed.

Lemma append_nonempty (s t : string) :
  s <> EmptyString \/ t <> EmptyString -> s +:+ t <> EmptyString.
Proof.
  destruct s as [|c s]; [rewrite append_empty; tauto|].
  rewrite append_String. discriminate.
Qed.

Lemma star_chars_takes p : forall s k r,
  star_chars p s k = Some r -> takes (StarChars p) s k r.
Proof.
  assert (Hnone : forall s k r, k s = Some r -> takes (StarChars p) s k r).
  { intros s k r Hk. exists EmptyString, s. repeat split; auto; discriminate. }
  induction s as [|c s IH]; intros k r H; cbn [star_chars] in H; [now apply Hnone|].
  destruct (p c) eqn:Hp; [|now apply Hnone].
  destruct (star_chars p s k) as [r'|] eqn:Hs; [|now apply Hnone].
  injection H as <-. destruct (IH _ _ Hs) as (pre & rest & -> & Hacc & _ & Hk).
  exists (String c pre), rest. repeat split; auto; try discriminate.
  cbn [rejects]. now rewrite Hp.
Qed.

Lemma regex_match_takes : forall re s k r,
  regex_match re s k = Some r -> takes re s k r.
Proof.
  induction re as [p|r1 IH1 r2 IH2|r1 IH1 r2 IH2|re IH|p]; intros s k r H;
    cbn [regex_match] in H.
  - destruct s as [|c rest]; [discriminate|]. destruct (p c) eqn:Hp; [|discriminate].
    exists (String c EmptyString), rest. repeat split; auto; try discriminate.
    cbn [rejects]. now rewrite Hp.
  - destruct (IH1 _ _ _ H) as (pre1 & mid & -> & Ha1 & Hn1 & H2).
    destruct (IH2 _ _ _ H2) as (pre2 & rest & -> & Ha2 & Hn2 & Hk).
    exists (pre1 +:+ pre2), rest. rewrite append_assoc. repeat split; auto.
    + apply accepted_app; [eapply accepted_impl, Ha1 | eapply accepted_impl, Ha2];
        intros c Hc; cbn [rejects]; rewrite Hc; [reflexivity | apply andb_false_r].
    + cbn [nullable]. intros Hn. apply append_nonempty.
      apply andb_false_iff in Hn. tauto.
  - destruct (regex_match r1 s k) as [x|] eqn:E1.
    + injection H as <-. destruct (IH1 _ _ _ E1) as (pre & rest & -> & Ha & Hn & Hk).
      exists pre, rest. repeat split; auto.
      * eapply accepted_impl, Ha. intros c Hc. cbn [rejects]. now rewrite Hc.
      * cbn [nullable]. intros Hz. apply orb_false_iff in Hz. tauto.
    + destruct (IH2 _ _ _ H) as (pre & rest & -> & Ha & Hn & Hk).
      exists pre, rest. repeat split; auto.
      * eapply accepted_impl, Ha. intros c Hc. cbn [rejects]. rewrite Hc.
        apply andb_false_r.
      * cbn [nullable]. intros Hz. apply orb_false_iff in Hz. tauto.
  - destruct (regex_match re s k) as [x|] eqn:E.
    + injection H as <-. destruct (IH _ _ _ E) as (pre & rest & -> & Ha & Hn & Hk).
      exists pre, rest. repeat split; auto. eapply accepted_impl, Ha; auto.
    + exists EmptyString, s. repeat split; auto; discriminate.
  - now apply star_chars_takes.
Qed.

Lemma substring_drop (s : string) : forall i n,
  substring i n s = substring 0 n (string_drop i s).
Proof.
  induction s as [|c s IH]; intros [|i] n; cbn [string_drop]; try reflexivity.
  - now destruct n.
  - cbn [substring]. apply IH.
Qed.

Lemma string_drop_drop (s : string) : forall i n,
  string_drop n (string_drop i s) = string_drop (i + n) s.
Proof.
  induction s as [|c s IH]; intros [|i] n; cbn [string_drop plus]; try reflexivity.
  - now destruct n.
  - apply IH.
Qed.

(** The text [exec] returns is the part the match took: the buffer goes
    on from [i] with that text, which is made of characters of the pattern
    and is not empty unless the pattern can match nothing. *)
Lemma exec_takes re (buffer : string) (i : nat) (m : string) :
  exec re buffer i = Some m ->
  string_drop i buffer = m +:+ string_drop (i + String.length m) buffer
  /\ accepted re m /\ (nullable re = false -> m <> EmptyString).
Proof.
  unfold exec. intros H.
  destruct (regex_match re (string_drop i buffer) Some) as [rest|] eqn:E;
    [|discriminate].
  injection H as <-.
  destruct (regex_match_takes _ _ _ _ E) as (pre & rest' & Hs & Ha & Hn & Hk).
  injection Hk as ->. rewrite substring_drop, Hs, string_length_app.
  replace (String.length pre + String.length rest - String.length rest)
    with (String.length pre) by lia.
  rewrite substring_prefix. repeat split; auto.
  rewrite <- string_drop_drop, Hs, string_drop_app. reflexivity.
Qed.

Lemma string_drop_end (s : string) : forall i,
  String.get i s = None -> string_drop i s = EmptyString.
Proof.
  induction s as [|c s IH]; intros [|i] H; cbn in *; try reflexivity;
    try discriminate. now apply IH.
Qed.

Lemma string_drop_get (s : string) : forall i c,
  String.get i s = Some c -> string_drop i s = String c (string_drop (i + 1) s).
Proof.
  induction s as [|a s IH]; intros [|i] c H; cbn in *; try discriminate.
  - injection H as ->. now destruct s.
  - now apply IH.
Qed.

Lemma prefix_drop (sym : string) : forall s,
  String.prefix sym s = true -> s = sym +:+ string_drop (String.length sym) s.
Proof.
  induction sym as [|a sym IH]; intros s H.
  - rewrite append_empty. now destruct s.
  - destruct s as [|b s]; [discriminate|]. cbn [String.prefix] in H.
    destruct (ascii_dec a b) as [->|]; [|discriminate].
    rewrite append_String. cbn [String.length string_drop]. f_equal. now apply IH.
Qed.

Lemma startsWith_drop (buffer sym : string) (i : nat) :
  startsWith buffer sym i = true ->
  string_drop i buffer = sym +:+ string_drop (i + String.length sym) buffer.
Proof.
  unfold startsWith. intros H. rewrite <- string_drop_drop. now apply prefix_drop.
Qed.

(** *** The symbol [_findToken] returns *)

Lemma findToken_spec (buffer : string) (i : nat) : forall candidates,
  match _findToken (Some candidates) buffer i with
  | Some single =>
      single ∈ candidates
      /\ exists sym, symbol single = Some sym /\ sym <> EmptyString
         /\ startsWith buffer sym i = true
         /\ forall def sym', def ∈ candidates -> symbol def = Some sym' ->
              startsWith buffer sym' i = true ->
              String.length sym' <= String.length sym
  | None =>
      forall def sym', def ∈ candidates -> symbol def = Some sym' ->
        startsWith buffer sym' i = true -> sym' = EmptyString
  end.
Proof.
  induction candidates as [|x l IH] using rev_ind.
  - cbn. intros def sym' H. now apply elem_of_nil in H.
  - unfold _findToken in *. rewrite fold_left_app. cbn [fold_left].
    destruct (fold_left _ l None) as [found|] eqn:Hfound.
    + destruct IH as (Hin & sym & Hsym & Hne & Hstarts & Hmax).
      destruct (symbol x) as [[|a sx]|] eqn:Hx.
      * split; [apply elem_of_app; auto|]. exists sym. repeat split; auto.
        intros def sym' Hdef Hs Hst. apply elem_of_app in Hdef as [Hdef|Hdef]; eauto.
        apply list_elem_of_singleton in Hdef as ->. rewrite Hx in Hs.
        injection Hs as <-. cbn. lia.
      * unfold symbol_length. rewrite Hsym.
        destruct (startsWith buffer (String a sx) i) eqn:Hst; cbn [andb].
        -- destruct (String.length sym <? String.length (String a sx)) eqn:Hlt.
           ++ apply Nat.ltb_lt in Hlt. split; [apply elem_of_app; right; constructor|].
              exists (String a sx). repeat split; auto; try discriminate.
              intros def sym' Hdef Hs Hst'.
              apply elem_of_app in Hdef as [Hdef|Hdef].
              ** specialize (Hmax _ _ Hdef Hs Hst'). lia.
              ** apply list_elem_of_singleton in Hdef as ->. rewrite Hx in Hs.
                 injection Hs as <-. lia.
           ++ apply Nat.ltb_ge in Hlt. split; [apply elem_of_app; auto|].
              exists sym. repeat split; auto.
              intros def sym' Hdef Hs Hst'.
              apply elem_of_app in Hdef as [Hdef|Hdef]; eauto.
              apply list_elem_of_singleton in Hdef as ->. rewrite Hx in Hs.
              now injection Hs as <-.
        -- split; [apply elem_of_app; auto|]. exists sym. repeat split; auto.
           intros def sym' Hdef Hs Hst'.
           apply elem_of_app in Hdef as [Hdef|Hdef]; eauto.
           apply list_elem_of_singleton in Hdef as ->. rewrite Hx in Hs.
           injection Hs as <-. congruence.
      * split; [apply elem_of_app; auto|]. exists sym. repeat split; auto.
        intros def sym' Hdef Hs Hst. apply elem_of_app in Hdef as [Hdef|Hdef]; eauto.
        apply list_elem_of_singleton in Hdef as ->. congruence.
    + destruct (symbol x) as [[|a sx]|] eqn:Hx.
      * intros def sym' Hdef Hs Hst. apply elem_of_app in Hdef as [Hdef|Hdef]; eauto.
        apply list_elem_of_singleton in Hdef as ->. congruence.
      * destruct (startsWith buffer (String a sx) i) eqn:Hst; cbn [andb].
        -- split; [apply elem_of_app; right; constructor|].
           exists (String a sx). repeat split; auto; try discriminate.
           intros def sym' Hdef Hs Hst'.
           apply elem_of_app in Hdef as [Hdef|Hdef].
           ++ rewrite (IH _ _ Hdef Hs Hst'). cbn. lia.
           ++ apply list_elem_of_singleton in Hdef as ->. rewrite Hx in Hs.
              injection Hs as <-. lia.
        -- intros def sym' Hdef Hs Hst'.
           apply elem_of_app in Hdef as [Hdef|Hdef]; eauto.
           apply list_elem_of_singleton in Hdef as ->. rewrite Hx in Hs.
           injection Hs as <-. congruence.
      * intros def sym' Hdef Hs Hst. apply elem_of_app in Hdef as [Hdef|Hdef]; eauto.
        apply list_elem_of_singleton in Hdef as ->. congruence.
Qed.

Lemma startCharacterTokens_spec (c : ascii) (candidates : list _KindDefinition) :
  _startCharacterTokens c = Some candidates ->
  forall def, def ∈ candidates <->
    def ∈ _tokenDefinitions
    /\ exists rest, symbol def = Some (String c rest).
Proof.
  unfold _startCharacterTokens. intros H def.
  destruct (List.filter _ _tokenDefinitions) as [|a l] eqn:Hf; [discriminate|].
  injection H as <-. rewrite <- Hf, !list_elem_of_In, filter_In.
  split; intros [Hin Hs]; split; auto.
  - destruct (symbol def) as [[|a' rest]|]; try discriminate.
    apply Ascii.eqb_eq in Hs as ->. eauto.
  - destruct Hs as [rest ->]. apply Ascii.eqb_refl.
Qed.

Lemma startCharacterTokens_none (c : ascii) :
  _startCharacterTokens c = None ->
  forall def rest, def ∈ _tokenDefinitions -> symbol def <> Some (String c rest).
Proof.
  unfold _startCharacterTokens. intros H def rest Hin Hs.
  destruct (List.filter _ _tokenDefinitions) as [|a l] eqn:Hf; [|discriminate].
  assert (Hd : In def []); [|destruct Hd].
  rewrite <- Hf. apply filter_In. split; [now apply list_elem_of_In|].
  rewrite Hs. apply Ascii.eqb_refl.
Qed.

Lemma startsWith_get (buffer : string) (i : nat) (a : ascii) (rest : string) :
  startsWith buffer (String a rest) i = true -> String.get i buffer = Some a.
Proof.
  intros H. apply startsWith_drop in H. rewrite append_String in H.
  revert i H. induction buffer as [|b buffer IH]; intros [|i] H; cbn in *;
    try discriminate.
  - now injection H as -> _.
  - now apply (IH i).
Qed.

(** The symbols of [_tokenDefinitions] have no space, and the kind of a
    definition leads back to its symbol. *)
Lemma symbol_text (def : _KindDefinition) (sym : string) :
  def ∈ _tokenDefinitions -> symbol def = Some sym ->
  token_text (symbol_token (kind def)) = sym
  /\ forall t, remove_spaces (sym +:+ t) = sym +:+ remove_spaces t.
Proof.
  intros Hin Hs. apply list_elem_of_In in Hin. cbn [_tokenDefinitions In] in Hin.
  repeat (destruct Hin as [<-|Hin];
    [cbn in Hs;
     first [discriminate
           | injection Hs as <-; split; [reflexivity | intros t; reflexivity]]|]).
  destruct Hin.
Qed.

Lemma accepted_no_space re (m t : string) :
  rejects re " " = true -> accepted re m ->
  remove_spaces (m +:+ t) = m +:+ remove_spaces t.
Proof.
  intros Hsp. induction m as [|c m IH]; intros Ha; [now rewrite !append_empty|].
  destruct Ha as [Hc Ha]. rewrite !append_String. cbn [remove_spaces].
  destruct (Ascii.eqb c " ") eqn:E; [apply Ascii.eqb_eq in E; congruence|].
  now rewrite IH.
Qed.

Lemma first_pattern_spec (buffer : string) (i : nat) (k : _Kind) (m : string) :
  first_pattern _patternTokens buffer i = Some (k, m) ->
  exists re, (k, re) ∈ _patternTokens /\ exec re buffer i = Some m
    /\ nullable re = false /\ rejects re " " = true.
Proof.
  cbn [first_pattern _patternTokens].
  destruct (exec number_pattern buffer i) as [m1|] eqn:E1.
  - intros H. injection H as <- <-. exists number_pattern.
    repeat split; auto. constructor.
  - destruct (exec identifier_pattern buffer i) as [m2|] eqn:E2; [|discriminate].
    intros H. injection H as <- <-. exists identifier_pattern.
    repeat split; auto. constructor. constructor.
Qed.

(** What a turn of the loop of [_tokenize] that emits a token takes from
    the buffer: the text of the token, which is not empty and has no space. *)
Lemma findToken_text (buffer : string) (i : nat) (c : ascii)
  (single : _KindDefinition) :
  _findToken (_startCharacterTokens c) buffer i = Some single ->
  let text := token_text (symbol_token (kind single)) in
  1 <= symbol_length single
  /\ string_drop i buffer
     = text +:+ string_drop (i + (symbol_length single - 1) + 1) buffer
  /\ forall t, remove_spaces (text +:+ t) = text +:+ remove_spaces t.
Proof.
  intros H text. destruct (_startCharacterTokens c) as [candidates|] eqn:Hc;
    [|discriminate].
  pose proof (findToken_spec buffer i candidates) as Hspec. rewrite H in Hspec.
  destruct Hspec as (Hin & sym & Hsym & Hne & Hst & _).
  apply (startCharacterTokens_spec _ _ Hc) in Hin as [Hin _].
  destruct (symbol_text _ _ Hin Hsym) as [Htext Hsp]. subst text. rewrite Htext.
  unfold symbol_length. rewrite Hsym.
  assert (1 <= String.length sym) by (destruct sym; [congruence | cbn; lia]).
  repeat split; auto.
  replace (i + (String.length sym - 1) + 1) with (i + String.length sym) by lia.
  now apply startsWith_drop.
Qed.

Lemma first_pattern_text (buffer : string) (i : nat) (k : _Kind) (m : string) :
  first_pattern _patternTokens buffer i = Some (k, m) ->
  1 <= String.length m
  /\ string_drop i buffer = m +:+ string_drop (i + (String.length m - 1) + 1) buffer
  /\ forall t, remove_spaces (m +:+ t) = m +:+ remove_spaces t.
Proof.
  intros H. destruct (first_pattern_spec _ _ _ _ H) as (re & _ & He & Hn & Hsp).
  destruct (exec_takes _ _ _ _ He) as (Hd & Ha & Hne). specialize (Hne Hn).
  assert (1 <= String.length m) by (destruct m; [congruence | cbn; lia]).
  repeat split; auto.
  - replace (i + (String.length m - 1) + 1) with (i + String.length m) by lia.
    exact Hd.
  - intros t. now apply accepted_no_space with re.
Qed.

(** The texts of the tokens, one after the other, are what the buffer
    holds from [i] on, without the spaces. *)
Lemma tokenize_from_text (buffer : string) : forall fuel i tokens,
  tokenize_from fuel buffer i = Ok tokens ->
  tokens_text tokens = remove_spaces (string_drop i buffer)
  /\ length tokens <= String.length buffer - i.
Proof.
  induction fuel as [|fuel IH]; intros i tokens H; cbn [tokenize_from] in H;
    destruct (String.get i buffer) as [c|] eqn:Hc; try discriminate;
    try (injection H as <-; rewrite (string_drop_end _ _ Hc); cbn; split;
         [reflexivity | lia]).
  pose proof (get_Some_lt _ _ _ Hc) as Hlt.
  destruct (Ascii.eqb c " ") eqn:Hsp.
  { rewrite (string_drop_get _ _ _ Hc). cbn [remove_spaces]. rewrite Hsp.
    destruct (IH _ _ H) as [IH1 IH2]. split; [exact IH1 | lia]. }
  destruct (_findToken _ buffer i) as [single|] eqn:Hsym.
  - apply bindO_Ok in H as (rest & Hrest & H). injection H as <-.
    destruct (findToken_text _ _ _ _ Hsym) as (Hlen & Hd & Hs).
    destruct (IH _ _ Hrest) as [IH1 IH2]. split; [|cbn [length]; lia].
    cbn [tokens_text foldr]. fold (tokens_text rest).
    rewrite IH1, Hd, Hs. reflexivity.
  - destruct (first_pattern _ buffer i) as [[k m]|] eqn:Hpat; [|discriminate].
    apply bindO_Ok in H as (rest & Hrest & H). injection H as <-.
    destruct (first_pattern_text _ _ _ _ Hpat) as (Hlen & Hd & Hs).
    destruct (IH _ _ Hrest) as [IH1 IH2]. split; [|cbn [length]; lia].
    cbn [tokens_text foldr]. fold (tokens_text rest).
    rewrite IH1, Hd, Hs. reflexivity.
Qed.

End Text_facts.

Section Tokenizer_more_facts.
Context {N : JSNumber}.
Local Open Scope parse_scope.

Lemma tokenize_blank (buffer : string) : forall fuel i,
  remove_spaces (string_drop i buffer) = EmptyString ->
  String.length buffer - i <= fuel ->
  tokenize_from fuel buffer i = Ok [].
Proof.
  induction fuel as [|fuel IH]; intros i Hb Hle; cbn [tokenize_from];
    destruct (String.get i buffer) as [c|] eqn:Hc; try reflexivity;
    pose proof (get_Some_lt _ _ _ Hc) as Hlt; [lia|].
  rewrite (string_drop_get _ _ _ Hc) in Hb. cbn [remove_spaces] in Hb.
  destruct (Ascii.eqb c " "); [|discriminate]. apply IH; [exact Hb | lia].
Qed.

(** An exception of the scan from an index the loop reaches comes from an
    index the loop reaches. *)
Lemma tokenize_from_throws (buffer : string) (e : exception) : forall fuel i,
  reaches buffer i -> tokenize_from fuel buffer i = Throw e ->
  exists j c, reaches buffer j /\ String.get j buffer = Some c /\ c <> " "%char
    /\ _findToken (_startCharacterTokens c) buffer j = None
    /\ first_pattern _patternTokens buffer j = None
    /\ e = strange_character buffer j c.
Proof.
  induction fuel as [|fuel IH]; intros i Hi H; cbn [tokenize_from] in H;
    destruct (String.get i buffer) as [c|] eqn:Hc; try discriminate.
  destruct (Ascii.eqb c " ") eqn:Hsp.
  { apply (IH (i + 1)); [|exact H]. apply reaches_next with i; [exact Hi|].
    unfold next_index. now rewrite Hc, Hsp. }
  destruct (_findToken _ buffer i) as [single|] eqn:Hsym.
  - destruct (tokenize_from fuel buffer _) as [rest|e'|] eqn:Hrest;
      cbn [bindO] in H; try discriminate.
    injection H as ->. refine (IH _ _ Hrest).
    apply reaches_next with i; [exact Hi|].
    unfold next_index. now rewrite Hc, Hsp, Hsym.
  - destruct (first_pattern _ buffer i) as [[k m]|] eqn:Hpat.
    + destruct (tokenize_from fuel buffer _) as [rest|e'|] eqn:Hrest;
        cbn [bindO] in H; try discriminate.
      injection H as ->. refine (IH _ _ Hrest).
      apply reaches_next with i; [exact Hi|].
      unfold next_index. now rewrite Hc, Hsp, Hsym, Hpat.
    + injection H as <-. exists i, c. repeat split; auto.
      intros ->. discriminate.
Qed.

Lemma symbols_not_empty (def : _KindDefinition) :
  def ∈ _tokenDefinitions -> symbol def <> Some EmptyString.
Proof.
  intros Hin. apply list_elem_of_In in Hin. cbn [_tokenDefinitions In] in Hin.
  repeat (destruct Hin as [<-|Hin]; [discriminate|]). destruct Hin.
Qed.

End Tokenizer_more_facts.

(** X4. The tokens spell the source: their texts, one after the other, are the
    source without its spaces; no token is made of nothing, so there are no
    more tokens than characters. *)
Theorem tokens_spell_the_source :
  forall (N : JSNumber) (source : string) (tokens : list _Token),
    _tokenize source = Ok tokens ->
    tokens_text tokens = remove_spaces source
    /\ length tokens <= String.length source.
Proof.
  intros N source tokens H. apply tokenize_from_text in H as [H1 H2].
  split; [exact H1 | lia].
Qed.

Lemma tokens_spell_the_source_witness :
  exists tokens : list _Token,
    @_tokenize binary64_nan "2 * (a+1)" = Ok tokens
    /\ @tokens_text binary64_nan tokens = "2*(a+1)" /\ length tokens <= 9.
Proof.
  eexists. split; [reflexivity|].
  exact (tokens_spell_the_source binary64_nan "2 * (a+1)" _ eq_refl).
Defined.

(** X5. The only exception of [_tokenize] is the one for a strange character:
    it names an index [i] of the buffer that the scan reaches, holding a
    character that is no space and at which no symbol and no pattern matches. *)
Theorem tokenizer_throws_only_for_a_strange_character :
  forall (N : JSNumber) (buffer : string) (e : exception),
    _tokenize buffer = Throw e ->
    exists (i : nat) (c : ascii),
      reaches buffer i /\ String.get i buffer = Some c /\ c <> " "%char
      /\ _findToken (_startCharacterTokens c) buffer i = None
      /\ exec number_pattern buffer i = None
      /\ exec identifier_pattern buffer i = None
      /\ e = strange_character buffer i c.
Proof.
  intros N buffer e H.
  destruct (tokenize_from_throws buffer e _ 0 (reaches_start buffer) H)
    as (i & c & Hi & Hc & Hsp & Hsym & Hpat & He).
  exists i, c. cbn [first_pattern _patternTokens] in Hpat.
  destruct (exec number_pattern buffer i); [discriminate|].
  destruct (exec identifier_pattern buffer i); [discriminate|].
  repeat split; auto.
Qed.

Lemma tokenizer_throws_only_for_a_strange_character_witness :
  exists (i : nat) (c : ascii),
    @reaches binary64_nan "1+@" i /\ String.get i "1+@" = Some c /\ c <> " "%char
    /\ @_findToken binary64_nan (_startCharacterTokens c) "1+@" i = None
    /\ exec number_pattern "1+@" i = None
    /\ exec identifier_pattern "1+@" i = None
    /\ strange_character "1+@" 2 "@" = strange_character "1+@" i c.
Proof.
  exact (tokenizer_throws_only_for_a_strange_character binary64_nan "1+@" _ eq_refl).
Defined.

(** X6. At an index of the buffer [_findToken] returns the longest symbol of
    [_tokenDefinitions] that the buffer has there, and nothing only when the
    buffer has none of the symbols there. *)
Theorem tokenizer_takes_the_longest_symbol :
  forall (N : JSNumber) (buffer : string) (i : nat) (c : ascii),
    String.get i buffer = Some c ->
    match _findToken (_startCharacterTokens c) buffer i with
    | Some single =>
        single ∈ _tokenDefinitions
        /\ exists sym, symbol single = Some sym
           /\ startsWith buffer sym i = true
           /\ forall def sym', def ∈ _tokenDefinitions -> symbol def = Some sym' ->
                startsWith buffer sym' i = true ->
                String.length sym' <= String.length sym
    | None =>
        forall def sym', def ∈ _tokenDefinitions -> symbol def = Some sym' ->
          startsWith buffer sym' i = false
    end.
Proof.
  intros N buffer i c Hc.
  destruct (_startCharacterTokens c) as [candidates|] eqn:Hcands.
  - pose proof (findToken_spec buffer i candidates) as Hspec.
    assert (Hin : forall def sym', def ∈ _tokenDefinitions ->
              symbol def = Some sym' -> startsWith buffer sym' i = true ->
              def ∈ candidates).
    { intros def sym' Hdef Hs Hst. apply (startCharacterTokens_spec _ _ Hcands).
      split; [exact Hdef|]. destruct sym' as [|a rest].
      - now apply symbols_not_empty in Hs.
      - apply startsWith_get in Hst. rewrite Hc in Hst. injection Hst as ->. eauto. }
    destruct (_findToken (Some candidates) buffer i) as [single|].
    + destruct Hspec as (Hsingle & sym & Hsym & _ & Hst & Hmax).
      split; [now apply (startCharacterTokens_spec _ _ Hcands) in Hsingle|].
      exists sym. repeat split; auto. intros def sym' Hdef Hs Hst'. eauto.
    + intros def sym' Hdef Hs. destruct (startsWith buffer sym' i) eqn:Hst; [|easy].
      rewrite (Hspec def sym') in Hs; eauto. now apply symbols_not_empty in Hs.
  - cbn [_findToken]. intros def sym' Hdef Hs.
    destruct (startsWith buffer sym' i) eqn:Hst; [|easy]. destruct sym' as [|a rest].
    + now apply symbols_not_empty in Hs.
    + apply startsWith_get in Hst. rewrite Hc in Hst. injection Hst as ->.
      now apply (startCharacterTokens_none _ Hcands) in Hs.
Qed.

Lemma tokenizer_takes_the_longest_symbol_witness :
  match @_findToken binary64_nan (_startCharacterTokens "*") "2**3" 1 with
  | Some single =>
      single ∈ @_tokenDefinitions binary64_nan
      /\ exists sym, symbol single = Some sym
         /\ startsWith "2**3" sym 1 = true
         /\ forall (def : @_KindDefinition binary64_nan) sym',
              def ∈ @_tokenDefinitions binary64_nan -> symbol def = Some sym' ->
              startsWith "2**3" sym' 1 = true ->
              String.length sym' <= String.length sym
  | None =>
      forall (def : @_KindDefinition binary64_nan) sym',
        def ∈ @_tokenDefinitions binary64_nan -> symbol def = Some sym' ->
        startsWith "2**3" sym' 1 = false
  end.
Proof.
  exact (tokenizer_takes_the_longest_symbol binary64_nan "2**3" 1 "*" eq_refl).
Defined.

(** X7. A source tokenizes to no token exactly when it holds nothing but
    spaces, and then [newProgram] throws a [TypeError]: the compiler reads
    the kind of a first token that is not there. *)
Theorem blank_source_is_a_TypeError :
  forall (N : JSNumber) (source : string),
    (_tokenize source = Ok [] <-> remove_spaces source = EmptyString)
    /\ (remove_spaces source = EmptyString -> newProgram source = Throw TypeError).
Proof.
  intros N source.
  assert (Ht : remove_spaces source = EmptyString -> _tokenize source = Ok [])
    by (intros H; apply tokenize_blank; [exact H | lia]).
  repeat split.
  - intros H. apply tokenize_from_text in H as [H _]. symmetry. exact H.
  - exact Ht.
  - intros H. unfold newProgram. now rewrite (Ht H).
Qed.

Lemma blank_source_is_a_TypeError_witness :
  @_tokenize binary64_nan "   " = Ok []
  /\ @newProgram binary64_nan "   " = Throw TypeError.
Proof.
  destruct (blank_source_is_a_TypeError binary64_nan "   ") as [[_ Ht] Hp].
  split; [exact (Ht eq_refl) | exact (Hp eq_refl)].
Defined.

(** ** The compiler *)

(** *** More facts about the compiler *)

Section Compiler_more_facts.
Context {N : JSNumber}.
Local Open Scope parse_scope.

Lemma Token_toOpcode_Ok (t : _Token) : exists op, Token_toOpcode t = Ok op.
Proof. unfold Token_toOpcode. destruct (token_kind t); eexists; reflexivity. Qed.

Lemma valueExpression_emits top ops tokens cursor :
  (forall o, emits o (cursor + 1) 0 (top o tokens (cursor + 1))) ->
  emits ops cursor 0 (_valueExpression top ops tokens cursor).
Proof.
  intros Htop. unfold _valueExpression.
  destruct (tokens !! cursor) as [current|]; [|now left].
  destruct (decide (token_kind current = openBracket)).
  - specialize (Htop ops).
    destruct (top ops tokens (cursor + 1)) as [[[o1 t1] c1]| |];
      cbn [bindO emits] in *; auto.
    destruct Htop as (Hc1 & new & -> & Hnew).
    destruct (t1 !! c1) as [closing|]; [|now left].
    destruct (decide (token_kind closing <> closeBracket)); [now right|].
    cbn [emits]. split; [lia|]. exists new. split; [reflexivity | lia].
  - destruct (decide (token_kind current = identifier)).
    + destruct (Token_toOpcode_Ok current) as [op ->]. cbn [bindO emits].
      split; [lia|]. exists [op]. split; [reflexivity | cbn; lia].
    + set (currentCursor :=
             if decide (token_kind current = opSubtract) then cursor + 1 else cursor).
      assert (cursor <= currentCursor) by (unfold currentCursor; case_decide; lia).
      destruct (tokens !! currentCursor) as [operand|]; [|now left].
      match goal with |- context [Token_toOpcode ?t] =>
        destruct (Token_toOpcode_Ok t) as [op ->] end.
      cbn [bindO emits]. split; [lia|]. exists [op]. split; [reflexivity | cbn; lia].
Qed.

(** The part of [expression] after the term. *)
Lemma expression_tail_emits kinds
  (self : list _Opcode -> list _Token -> nat -> option _Token -> outcome parsed)
  lastTokenOp ops cursor o1 (t1 : list _Token) c1 :
  (forall o t c l, emits o c 1 (self o t c (Some l))) ->
  emits ops cursor 0 (Ok (o1, t1, c1)) ->
  emits ops cursor (pending lastTokenOp)
    (let! pushed :=
       match lastTokenOp with
       | Some lastTokenOp => let! op := Token_toOpcode lastTokenOp in Ok (o1 ++ [op])
       | None => Ok o1
       end in
     if c1 <? length t1
     then halfExpression self kinds pushed t1 c1
     else Ok (pushed, t1, c1)).
Proof.
  intros Hself (Hc1 & new1 & -> & Hnew1).
  assert (Hpush : exists pushed, length pushed = pending lastTokenOp /\
            match lastTokenOp with
            | Some lastTokenOp =>
                let! op := Token_toOpcode lastTokenOp in Ok ((ops ++ new1) ++ [op])
            | None => Ok (ops ++ new1)
            end = Ok (ops ++ new1 ++ pushed)).
  { destruct lastTokenOp as [l|].
    - destruct (Token_toOpcode_Ok l) as [op ->]. exists [op].
      cbn [bindO]. now rewrite <- app_assoc.
    - exists []. now rewrite app_nil_r. }
  destruct Hpush as (pushed & Hpushed & Hpush). rewrite Hpush. cbn [bindO].
  assert (Hstay : emits ops cursor (pending lastTokenOp)
                    (Ok (ops ++ new1 ++ pushed, t1, c1))).
  { cbn [emits]. split; [lia|]. exists (new1 ++ pushed).
    split; [reflexivity | rewrite length_app; lia]. }
  destruct (c1 <? length t1); [|exact Hstay]. unfold halfExpression.
  destruct (t1 !! c1) as [opToken|]; [|now left].
  destruct (kinds_has kinds (token_kind opToken)); [|exact Hstay].
  specialize (Hself (ops ++ new1 ++ pushed) t1 (c1 + 1) opToken).
  destruct (self _ t1 (c1 + 1) _) as [[[o2 t2] c2]| |]; cbn [emits] in *; auto.
  destruct Hself as (Hc2 & new2 & -> & Hnew2). split; [lia|].
  exists (new1 ++ pushed ++ new2). rewrite <- !app_assoc. split; [reflexivity|].
  rewrite !length_app. lia.
Qed.

Lemma expression_emits : forall fuel this ops tokens cursor last,
  emits ops cursor (pending last) (expression fuel this ops tokens cursor last).
Proof.
  induction fuel as [|fuel IHfuel]; [intros; exact I|].
  induction this as [kinds|kinds parent IHthis] using group_induction;
    intros ops tokens cursor last; rewrite expression_eq.
  - pose proof (valueExpression_emits
                  (fun ops tokens cursor => expression fuel _expression ops tokens cursor None)
                  ops tokens cursor
                  (fun o => IHfuel _expression o tokens (cursor + 1) None)) as Hterm.
    destruct (_valueExpression _ ops tokens cursor) as [[[o1 t1] c1]|e|];
      cbn [bindO]; [|destruct last; exact Hterm|exact I].
    apply expression_tail_emits; [|exact Hterm].
    intros o t c l. apply (IHfuel _ o t c (Some l)).
  - pose proof (IHthis ops tokens cursor None) as Hterm.
    destruct (expression (S fuel) parent ops tokens cursor None) as [[[o1 t1] c1]|e|];
      cbn [bindO]; [|destruct last; exact Hterm|exact I].
    apply expression_tail_emits; [|exact Hterm].
    intros o t c l. apply (IHfuel _ o t c (Some l)).
Qed.

(** *** A pass on tokens that come after others *)

Lemma valueExpression_shift pre top top' ops tokens cursor :
  (forall o t c, top' o (pre ++ t) (length pre + c) = shifted pre (top o t c)) ->
  _valueExpression top' ops (pre ++ tokens) (length pre + cursor)
  = shifted pre (_valueExpression top ops tokens cursor).
Proof.
  intros Htop. unfold _valueExpression.
  rewrite lookup_app_r by lia.
  replace (length pre + cursor - length pre) with cursor by lia.
  destruct (tokens !! cursor) as [current|]; [|reflexivity].
  destruct (decide (token_kind current = openBracket)).
  - rewrite <- Nat.add_assoc, Htop.
    destruct (top ops tokens (cursor + 1)) as [[[o1 t1] c1]| |];
      cbn [bindO shifted]; try reflexivity.
    rewrite lookup_app_r by lia.
    replace (length pre + c1 - length pre) with c1 by lia.
    destruct (t1 !! c1) as [closing|]; [|reflexivity].
    destruct (decide (token_kind closing <> closeBracket)); [reflexivity|].
    cbn [shifted]. now rewrite Nat.add_assoc.
  - destruct (decide (token_kind current = identifier)).
    + destruct (Token_toOpcode current); cbn [bindO shifted]; try reflexivity.
      now rewrite Nat.add_assoc.
    + replace (if decide (token_kind current = opSubtract)
               then length pre + cursor + 1 else length pre + cursor)
        with (length pre + (if decide (token_kind current = opSubtract)
                            then cursor + 1 else cursor))
        by (case_decide; lia).
      set (currentCursor :=
             if decide (token_kind current = opSubtract) then cursor + 1 else cursor).
      rewrite lookup_app_r by lia.
      replace (length pre + currentCursor - length pre) with currentCursor by lia.
      destruct (tokens !! currentCursor) as [operand|]; [|reflexivity].
      destruct (Token_toOpcode _); cbn [bindO shifted]; try reflexivity.
      rewrite insert_app_r_alt by lia.
      replace (length pre + cursor - length pre) with cursor by lia.
      now rewrite Nat.add_assoc.
Qed.

Lemma expression_shift pre : forall fuel this ops tokens cursor last,
  expression fuel this ops (pre ++ tokens) (length pre + cursor) last
  = shifted pre (expression fuel this ops tokens cursor last).
Proof.
  induction fuel as [|fuel IHfuel]; [reflexivity|].
  assert (Htail : forall this kinds last o1 t1 c1,
    (let! pushed :=
       match last with
       | Some lastTokenOp => let! op := Token_toOpcode lastTokenOp in Ok (o1 ++ [op])
       | None => Ok o1
       end in
     if length pre + c1 <? length (pre ++ t1)
     then halfExpression (expression fuel this) kinds pushed (pre ++ t1)
            (length pre + c1)
     else Ok (pushed, pre ++ t1, length pre + c1))
    = shifted pre
        (let! pushed :=
           match last with
           | Some lastTokenOp =>
               let! op := Token_toOpcode lastTokenOp in Ok (o1 ++ [op])
           | None => Ok o1
           end in
         if c1 <? length t1
         then halfExpression (expression fuel this) kinds pushed t1 c1
         else Ok (pushed, t1, c1))).
  { intros this kinds last o1 t1 c1.
    destruct (match last with Some _ => _ | None => _ end) as [pushed| |];
      cbn [bindO shifted]; try reflexivity.
    rewrite length_app.
    replace (length pre + c1 <? length pre + length t1) with (c1 <? length t1)
      by (destruct (c1 <? length t1) eqn:E; symmetry;
          [apply Nat.ltb_lt; apply Nat.ltb_lt in E | apply Nat.ltb_ge; apply Nat.ltb_ge in E];
          lia).
    destruct (c1 <? length t1); [|reflexivity]. unfold halfExpression.
    rewrite lookup_app_r by lia.
    replace (length pre + c1 - length pre) with c1 by lia.
    destruct (t1 !! c1) as [opToken|]; [|reflexivity].
    destruct (kinds_has kinds (token_kind opToken)); [|reflexivity].
    rewrite <- Nat.add_assoc. apply IHfuel. }
  induction this as [kinds|kinds parent IHthis] using group_induction;
    intros ops tokens cursor last; rewrite !expression_eq.
  - rewrite (valueExpression_shift pre
               (fun ops tokens cursor => expression fuel _expression ops tokens cursor None))
      by (intros o t c; apply IHfuel).
    destruct (_valueExpression _ ops tokens cursor) as [[[o1 t1] c1]| |];
      cbn [bindO shifted]; try reflexivity.
    apply Htail.
  - rewrite IHthis.
    destruct (expression (S fuel) parent ops tokens cursor None) as [[[o1 t1] c1]| |];
      cbn [bindO shifted]; try reflexivity.
    apply Htail.
Qed.

End Compiler_more_facts.

Section Bracket_facts.
Context {N : JSNumber}.
Local Open Scope parse_scope.

(** When the term takes all tokens that are left, every group returns what
    the term returned. *)
Lemma expression_to_the_end fuel ops tokens cursor o1 t1 :
  _valueExpression
    (fun ops tokens cursor => expression fuel _expression ops tokens cursor None)
    ops tokens cursor = Ok (o1, t1, length t1) ->
  forall this,
    expression (S fuel) this ops tokens cursor None = Ok (o1, t1, length t1).
Proof.
  intros H. induction this as [kinds|kinds parent IH] using group_induction;
    rewrite expression_eq; [rewrite H | rewrite IH]; cbn [bindO];
    now rewrite Nat.ltb_irrefl.
Qed.

Lemma operators_of_expression (k : _Kind) :
  k ∈ group_kinds _expression -> is_operator k = true.
Proof. intros Hk. unfold is_operator. now apply bool_decide_eq_true. Qed.

End Bracket_facts.

(** X8. Brackets around a whole expression change nothing: when the compiler
    takes all of [tokens], it takes all of the tokens in brackets and emits
    the same opcodes. *)
Theorem brackets_around_an_expression :
  forall (N : JSNumber) (tokens tokens' : list _Token) (ops0 ops : list _Opcode),
    _parseTokens ops0 tokens 0 = Ok (ops, tokens', length tokens) ->
    _parseTokens ops0
      (symbol_token openBracket :: tokens ++ [symbol_token closeBracket]) 0
    = Ok (ops, symbol_token openBracket :: tokens' ++ [symbol_token closeBracket],
          length tokens + 2).
Proof.
  intros N tokens tokens' ops0 ops H. unfold _parseTokens in *.
  set (open := symbol_token openBracket). set (close := symbol_token closeBracket).
  remember (length (open :: tokens ++ [close])) as fuel eqn:Hfuel.
  assert (Hle : S (length tokens) <= fuel)
    by (subst fuel; cbn [length]; rewrite length_app; cbn [length]; lia).
  clear Hfuel.
  destruct (expression_extends [close] eq_refl (S (length tokens)) fuel Hle
              _expression operators_of_expression None _ _ _ _ _ _ H)
    as (H' & Hlen & _).
  replace (length tokens + 2) with (length (open :: tokens' ++ [close]))
    by (cbn [length]; rewrite length_app, Hlen; cbn [length]; lia).
  apply expression_to_the_end. unfold _valueExpression.
  cbn [lookup list_lookup]. cbn [open symbol_token token_kind].
  destruct (decide (openBracket = openBracket)) as [_|]; [|contradiction].
  fold open.
  change (open :: tokens ++ [close]) with ([open] ++ (tokens ++ [close])).
  change (0 + 1) with (length [open] + 0).
  rewrite expression_shift, H'. cbn [shifted bindO].
  change ([open] ++ tokens' ++ [close]) with ((open :: tokens') ++ [close]).
  rewrite list_lookup_middle by (cbn [length]; lia).
  cbn [close symbol_token token_kind].
  destruct (decide (closeBracket <> closeBracket)) as [|_]; [contradiction|].
  cbn [length app]. rewrite length_app, Hlen. cbn [length].
  repeat f_equal.
Qed.

Lemma brackets_around_an_expression_witness :
  let one := operand_token numberLiteral "1" in
  let two := operand_token numberLiteral "2" in
  let one' := {| token_kind := numberLiteral; token_value := Some "1" |} in
  @_parseTokens binary64_nan []
    [symbol_token openBracket; one; symbol_token opAdd; two;
     symbol_token closeBracket] 0
  = Ok ([Number (num_of_string "1"); Number (num_of_string "2"); Operator opAdd],
        [symbol_token openBracket; one'; symbol_token opAdd; two;
         symbol_token closeBracket], 5).
Proof.
  exact (brackets_around_an_expression binary64_nan
           [operand_token numberLiteral "1"; symbol_token opAdd;
            operand_token numberLiteral "2"] _ [] _ eq_refl).
Defined.

(** X9. A program that [newProgram] returns has at least one opcode, and no
    more opcodes than the source has tokens, which are no more than its
    characters. *)
Theorem compiled_program_size :
  forall (N : JSNumber) (source : string) (p : Program),
    newProgram source = Ok p ->
    exists tokens,
      _tokenize source = Ok tokens
      /\ 1 <= numOpcodes p <= length tokens
      /\ length tokens <= String.length source.
Proof.
  intros N source p H. unfold newProgram in H.
  apply bindO_Ok in H as (tokens & Htok & H). exists tokens.
  apply bindO_Ok in H as ([[ops tokens'] cursor] & Hparse & [= <-]).
  split; [exact Htok|]. unfold _parseTokens in Hparse.
  pose proof (expression_emits (S (length tokens)) _expression [] tokens 0 None) as He.
  pose proof (expression_within (S (length tokens)) _expression [] tokens 0 None
                ltac:(lia) ltac:(lia)) as Hw.
  rewrite Hparse in He, Hw. cbn [emits within pending] in He, Hw.
  destruct He as (_ & new & -> & Hnew). destruct Hw as (_ & Hcursor).
  apply tokenize_from_text in Htok as [_ Hlen].
  unfold numOpcodes. cbn [_ops app]. lia.
Qed.

Lemma compiled_program_size_witness :
  exists tokens,
    @_tokenize binary64_nan "(1 + 2)" = Ok tokens
    /\ 1 <= 3 <= length tokens /\ length tokens <= 7.
Proof.
  exact (compiled_program_size binary64_nan "(1 + 2)"
           {| _ops := [Number (num_of_string "1"); Number (num_of_string "2");
                       Operator opAdd] |} eq_refl).
Defined.

(** X10. [newProgram] throws nothing but the exception of the tokenizer for a
    strange character, a [TypeError] and the exception for a bracket that
    is not closed. *)
Theorem newProgram_exceptions :
  forall (N : JSNumber) (source : string) (e : exception),
    newProgram source = Throw e ->
    (exists i c, String.get i source = Some c /\ e = strange_character source i c)
    \/ compile_exception e.
Proof.
  intros N source e H. unfold newProgram in H.
  destruct (_tokenize source) as [tokens|e'|] eqn:Htok; cbn [bindO] in H;
    try discriminate.
  - right. unfold _parseTokens in H.
    pose proof (expression_emits (S (length tokens)) _expression [] tokens 0 None) as He.
    destruct (expression _ _expression [] tokens 0 None) as [[[ops t] c]|e'|];
      cbn [bindO] in H; try discriminate.
    injection H as <-. exact He.
  - injection H as <-. left.
    destruct (tokenize_from_throws source e' _ 0 (reaches_start source) Htok)
      as (i & c & _ & Hc & _ & _ & _ & He).
    eauto.
Qed.

Lemma newProgram_exceptions_witness :
  (exists i c, String.get i "(1 2" = Some c
               /\ CalculationParseException "Ouch, no closing bracket" None None
                  = strange_character "(1 2" i c)
  \/ compile_exception (CalculationParseException "Ouch, no closing bracket" None None).
Proof.
  exact (newProgram_exceptions binary64_nan "(1 2" _ eq_refl).
Defined.

(** ** The contexts and the stack machine *)

(** *** Facts about the registers of a context *)

Section Register_facts.
Context {N : JSNumber}.
Local Open Scope exec_scope.

Lemma setRegisters_entries_default entries :
  forall (h : heap) (c : ctx_ref) s (R : gmap string num),
  c < length h ->
  setRegisters_entries c entries
    (<[c := Default {| default_stack := s; _registers := R |}]> h)
  = (Ok tt,
     <[c := Default {| default_stack := s;
                       _registers := foldl (fun R e => <[e.1 := e.2]> R) R entries |}]> h).
Proof.
  induction entries as [|[name value] entries IH]; intros h c s R Hc; [reflexivity|].
  cbn [setRegisters_entries foldl].
  rewrite (bindM_Ok _ _ _ _ _ (setRegister_default _ _ _ _ _ _ Hc)). now apply IH.
Qed.

(** Writing entries with distinct names one after the other gives the
    union of the entries and the registers, the entries first. *)
Lemma foldl_insert_union (entries : list (string * num)) :
  NoDup entries.*1 ->
  forall R : gmap string num,
    foldl (fun R e => <[e.1 := e.2]> R) R entries = list_to_map entries ∪ R.
Proof.
  induction entries as [|[name value] entries IH]; intros Hnd R; cbn [foldl].
  - now rewrite list_to_map_nil, (left_id_L ∅ (∪)).
  - cbn [fmap list_fmap fst] in Hnd. apply NoDup_cons in Hnd as [Hname Hnd].
    rewrite (IH Hnd), list_to_map_cons. cbn [fst snd].
    rewrite <- insert_union_l. symmetry. apply insert_union_r.
    now apply not_elem_of_list_to_map_1.
Qed.

Lemma setRegisters_default (h : heap) (c : ctx_ref) s (R values : gmap string num) :
  c < length h ->
  setRegisters c values (<[c := Default {| default_stack := s; _registers := R |}]> h)
  = (Ok tt, <[c := Default {| default_stack := s; _registers := values ∪ R |}]> h).
Proof.
  intros Hc. unfold setRegisters. rewrite heap_lookup by exact Hc.
  rewrite setRegisters_entries_default by exact Hc.
  rewrite foldl_insert_union by apply NoDup_fst_map_to_list.
  now rewrite list_to_map_to_list.
Qed.

Lemma clearRegisters_default (h : heap) (c : ctx_ref) s (R : gmap string num) :
  c < length h ->
  clearRegisters c (<[c := Default {| default_stack := s; _registers := R |}]> h)
  = (Ok tt, <[c := Default {| default_stack := s; _registers := ∅ |}]> h).
Proof.
  intros Hc. unfold clearRegisters. rewrite heap_lookup by exact Hc.
  cbn [default_stack]. now rewrite heap_insert.
Qed.

Lemma heap_lookup_ne (h : heap) (c n : ctx_ref) (x : CalculationContext) :
  c <> n -> <[n := x]> h !! c = h !! c.
Proof. intros Hne. apply list_lookup_insert_ne. congruence. Qed.

End Register_facts.

(** X11. [a.mergeInto(b)] on default contexts writes every register of [a] into
    [b], in calculate-core.js and in web/calculator.js alike: afterwards a
    register of [b] reads as in [a] when [a] has it and as before otherwise;
    the stack of [b] and everything else in the store stay as they were.
    After [b.clearRegisters()] the registers of another context [b] become
    those of [a]. *)
Theorem mergeInto_copies_the_registers :
  forall (N : JSNumber) (h : heap) (a b : ctx_ref) (sa sb : list _StackElement)
         (Ra Rb : gmap string num),
    h !! a = Some (Default {| default_stack := sa; _registers := Ra |}) ->
    h !! b = Some (Default {| default_stack := sb; _registers := Rb |}) ->
    let h' := <[b := Default {| default_stack := sb; _registers := Ra ∪ Rb |}]> h in
    mergeInto a b h = (Ok tt, h')
    /\ mergeInto_web a b h = (Ok tt, h')
    /\ (forall name,
          getRegister b name h'
          = (Ok (match Ra !! name with
                 | Some v => Some v
                 | None => Rb !! name
                 end), h'))
    /\ (a <> b ->
        (do! clearRegisters b in mergeInto a b)%exec h
        = (Ok tt, <[b := Default {| default_stack := sb; _registers := Ra |}]> h)).
Proof.
  intros N h a b sa sb Ra Rb Ha Hb h'.
  pose proof (lookup_lt_Some _ _ _ Hb) as Hlt. repeat split.
  - unfold mergeInto. rewrite Ha. cbn [_registers].
    rewrite <- (heap_insert_id h b _ Hb) at 1.
    rewrite setRegisters_default by exact Hlt. reflexivity.
  - unfold mergeInto_web. rewrite Ha. cbn [_registers].
    rewrite <- (heap_insert_id h b _ Hb) at 1.
    rewrite setRegisters_entries_default by exact Hlt.
    rewrite foldl_insert_union by apply NoDup_fst_map_to_list.
    now rewrite list_to_map_to_list.
  - intros name. unfold getRegister, h'. rewrite heap_lookup by exact Hlt.
    cbn [_registers]. rewrite lookup_union.
    destruct (Ra !! name), (Rb !! name); reflexivity.
  - intros Hab. rewrite <- (heap_insert_id h b _ Hb) at 1.
    rewrite (bindM_Ok _ _ _ _ _ (clearRegisters_default _ _ _ _ Hlt)).
    unfold mergeInto. rewrite heap_lookup_ne by exact Hab. rewrite Ha.
    cbn [_registers]. rewrite setRegisters_default by exact Hlt.
    now rewrite (right_id_L ∅ (∪)).
Qed.

Lemma mergeInto_copies_the_registers_witness :
  let A : @CalculationContext binary64_nan :=
    Default {| default_stack := []; _registers := {[ "x" := 1%float ]} |} in
  let B : @CalculationContext binary64_nan :=
    Default {| default_stack := [@_Literal binary64_nan 7%float];
               _registers := {[ "x" := 2%float; "y" := 3%float ]} |} in
  let B' : @CalculationContext binary64_nan :=
    Default {| default_stack := [@_Literal binary64_nan 7%float];
               _registers := {[ "x" := 1%float ]} ∪ {[ "x" := 2%float; "y" := 3%float ]} |} in
  mergeInto 0 1 [A; B] = (Ok tt, [A; B'])
  /\ getRegister 1 "x" [A; B'] = (Ok (Some 1%float), [A; B'])
  /\ getRegister 1 "y" [A; B'] = (Ok (Some 3%float), [A; B']).
Proof.
  intros A B B'.
  pose proof (mergeInto_copies_the_registers binary64_nan [A; B] 0 1 _ _ _ _
                eq_refl eq_refl) as (Hm & _ & Hg & _).
  split; [exact Hm|]. split; [exact (Hg "x") | exact (Hg "y")].
Defined.

(** *** Facts about execution in a default context *)

Section Local_facts.
Context {N : JSNumber}.
Local Open Scope exec_scope.

Variable h : list CalculationContext.
Variable n : nat.
Hypothesis Hn : n < length h.

Lemma keeps_refl (R : gmap string num) : keeps R R.
Proof. now intros name. Qed.

Lemma keeps_trans (R1 R2 R3 : gmap string num) :
  keeps R1 R2 -> keeps R2 R3 -> keeps R1 R3.
Proof. intros H1 H2 name. auto. Qed.

Lemma stays_in_ret {A} (Q : A -> Prop) (a : A) : Q a -> stays_in h n Q (ret a).
Proof.
  intros Ha s R Hs. exists (Ok a), s, R. repeat split; auto using keeps_refl.
Qed.

Lemma stays_in_throw {A} (Q : A -> Prop) e : stays_in h n Q (throw e).
Proof.
  intros s R Hs. exists (Throw e), s, R. repeat split; auto using keeps_refl.
Qed.

Lemma stays_in_unmodelled {A} (Q : A -> Prop) : stays_in h n Q unmodelled.
Proof.
  intros s R Hs. exists Unmodelled, s, R. repeat split; auto using keeps_refl.
Qed.

Lemma stays_in_bind {A B} (Q : A -> Prop) (Q' : B -> Prop) (m : M A) (k : A -> M B) :
  stays_in h n Q m -> (forall a, Q a -> stays_in h n Q' (k a)) ->
  stays_in h n Q' (bindM m k).
Proof.
  intros Hm Hk s R Hs. destruct (Hm s R Hs) as (r & s1 & R1 & Hrun & Hs1 & HR1 & Hr).
  unfold bindM. rewrite Hrun. destruct r as [a|e|].
  - destruct (Hk a Hr s1 R1 Hs1) as (r' & s2 & R2 & Hrun' & Hs2 & HR2 & Hr').
    exists r', s2, R2. repeat split; eauto using keeps_trans.
  - exists (Throw e), s1, R1. repeat split; auto.
  - exists Unmodelled, s1, R1. repeat split; auto.
Qed.

Lemma stays_in_popStack :
  stays_in h n (fun e => match e with Some e => local_to n e | None => True end)
    (popStack n).
Proof.
  intros s R Hs. destruct s as [|e s _] using rev_ind.
  - exists (Ok None), [], R. rewrite popStack_default_empty by exact Hn.
    repeat split; auto using keeps_refl.
  - apply Forall_app in Hs as [Hs He]. exists (Ok (Some e)), s, R.
    rewrite popStack_default by exact Hn. repeat split; auto using keeps_refl.
    now inversion He.
Qed.

Lemma stays_in_pushStack e : local_to n e -> stays_in h n (fun _ => True) (pushStack n e).
Proof.
  intros He s R Hs. exists (Ok tt), (s ++ [bind e n]), R.
  rewrite pushStack_default by exact Hn. repeat split; auto using keeps_refl.
  apply Forall_app. split; [exact Hs|]. constructor; [|constructor].
  now destruct e.
Qed.

Lemma stays_in_getRegister name : stays_in h n (fun _ => True) (getRegister n name).
Proof.
  intros s R Hs. exists (Ok (R !! name)), s, R. unfold getRegister.
  rewrite (@heap_lookup N) by exact Hn. repeat split; auto using keeps_refl.
Qed.

Lemma stays_in_setRegister name v : stays_in h n (fun _ => True) (setRegister n name v).
Proof.
  intros s R Hs. exists (Ok tt), s, (<[name := v]> R).
  rewrite setRegister_default by exact Hn. repeat split; auto.
  intros name' H. apply lookup_insert_is_Some. destruct (decide (name = name')); auto.
Qed.

Lemma stays_in_get_value e : local_to n e -> stays_in h n (fun _ => True) (get_value e).
Proof.
  intros He. destruct e as [v|name c]; cbn [get_value].
  - now apply stays_in_ret.
  - cbn in He. subst c. eapply stays_in_bind; [apply stays_in_getRegister|].
    intros r _. now apply stays_in_ret.
Qed.

Lemma stays_in_set_value e v : local_to n e -> stays_in h n (fun _ => True) (set_value e v).
Proof.
  intros He. destruct e as [w|name c]; cbn [set_value].
  - apply stays_in_throw.
  - cbn in He. subst c. apply stays_in_setRegister.
Qed.

Lemma stays_in_popStack_value : stays_in h n (fun _ => True) (popStack_value n).
Proof.
  eapply stays_in_bind; [apply stays_in_popStack|].
  intros [e|] He; [now apply stays_in_get_value | apply stays_in_throw].
Qed.

Lemma stays_in_binary f : stays_in h n (fun _ => True) (binary f n).
Proof.
  eapply stays_in_bind; [apply stays_in_popStack_value|]. intros a _.
  eapply stays_in_bind; [apply stays_in_popStack_value|]. intros b _.
  now apply stays_in_pushStack.
Qed.

Lemma stays_in_perform op : stays_in h n (fun _ => True) (Opcode_perform op n).
Proof.
  rewrite Opcode_perform_eq.
  destruct (opcode_kind op); try apply stays_in_binary; try apply stays_in_throw.
  - destruct (opcode_value op); try apply stays_in_unmodelled.
    now apply stays_in_pushStack.
  - destruct (opcode_value op); try apply stays_in_unmodelled.
    now apply stays_in_pushStack.
  - eapply stays_in_bind; [apply stays_in_popStack_value|]. intros value _.
    eapply stays_in_bind; [apply stays_in_popStack|]. intros target Ht.
    eapply stays_in_bind with (Q := fun _ => True).
    + destruct target; [now apply stays_in_set_value | apply stays_in_throw].
    + intros _ _. now apply stays_in_pushStack.
Qed.

Lemma stays_in_perform_all ops : stays_in h n (fun _ => True) (perform_all ops n).
Proof.
  induction ops as [|op ops IH]; cbn [perform_all]; [now apply stays_in_ret|].
  eapply stays_in_bind; [apply stays_in_perform|]. intros _ _. exact IH.
Qed.

Lemma stays_in_execute (p : Program) :
  stays_in h n (fun _ => True) (execute p (Some n)).
Proof.
  unfold execute. eapply stays_in_bind with (Q := fun c => c = n).
  - now apply stays_in_ret.
  - intros c ->. eapply stays_in_bind; [apply stays_in_perform_all|].
    intros _ _. apply stays_in_popStack_value.
Qed.

End Local_facts.

Section Composition_facts.
Context {N : JSNumber}.
Local Open Scope exec_scope.

Lemma perform_all_app (ops1 ops2 : list _Opcode) (c : ctx_ref) (h : heap) :
  perform_all (ops1 ++ ops2) c h
  = (do! perform_all ops1 c in perform_all ops2 c) h.
Proof.
  revert h. induction ops1 as [|op ops1 IH]; intros h; cbn [perform_all app].
  - reflexivity.
  - unfold bindM in *. destruct (Opcode_perform op c h) as [[[]| |] h1];
      try reflexivity. apply IH.
Qed.

End Composition_facts.

(** X12. Executing a program in a default context whose stack refers to no
    other context changes nothing in the store but the stack and the
    registers of that context, and removes no register, whether it returns
    or throws. *)
Theorem execute_stays_in_its_context :
  forall (N : JSNumber) (p : Program) (h : heap) (n : ctx_ref)
         (s : list _StackElement) (R : gmap string num),
    h !! n = Some (Default {| default_stack := s; _registers := R |}) ->
    Forall (local_to n) s ->
    exists r s' R',
      execute p (Some n) h
      = (r, <[n := Default {| default_stack := s'; _registers := R' |}]> h)
      /\ Forall (local_to n) s' /\ keeps R R'.
Proof.
  intros N p h n s R Hn Hs. pose proof (lookup_lt_Some _ _ _ Hn) as Hlt.
  destruct (stays_in_execute h n Hlt p s R Hs) as (r & s' & R' & Hrun & Hs' & HR & _).
  exists r, s', R'. repeat split; auto.
  etransitivity; [|exact Hrun]. f_equal. symmetry. now apply list_insert_id.
Qed.

Lemma execute_stays_in_its_context_witness :
  let A : @CalculationContext binary64_nan :=
    Default {| default_stack := []; _registers := {[ "x" := 1%float ]} |} in
  let B : @CalculationContext binary64_nan :=
    Default {| default_stack := []; _registers := ∅ |} in
  exists r s' R',
    execute {| _ops := [Identifier "y"; @Number binary64_nan 2%float;
                        Operator opAssign] |}
      (Some 1) [A; B]
    = (r, <[1 := Default {| default_stack := s'; _registers := R' |}]> [A; B])
    /\ Forall (local_to 1) s' /\ keeps ∅ R'.
Proof.
  intros A B.
  exact (execute_stays_in_its_context binary64_nan _ [A; B] 1 [] ∅ eq_refl
           (Forall_nil_2 _)).
Defined.

(** X13. Without a context [execute] works in a new default context that it
    adds to the store; the contexts that were there stay as they were. *)
Theorem execute_without_context_adds_one :
  forall (N : JSNumber) (p : Program) (h : heap),
    exists r s' R',
      execute p None h
      = (r, h ++ [Default {| default_stack := s'; _registers := R' |}]).
Proof.
  intros N p h. rewrite execute_fresh.
  set (fresh := Default {| default_stack := []; _registers := ∅ |}).
  assert (Hn : length h < length (h ++ [fresh]))
    by (rewrite length_app; cbn; lia).
  destruct (stays_in_execute (h ++ [fresh]) (length h) Hn p [] ∅ (Forall_nil_2 _))
    as (r & s' & R' & Hrun & _).
  exists r, s', R'.
  assert (Hfresh : forall x : CalculationContext,
            <[length h := x]> (h ++ [fresh]) = h ++ [x]).
  { intros x. rewrite insert_app_r_alt by lia. now rewrite Nat.sub_diag. }
  rewrite !Hfresh in Hrun. exact Hrun.
Qed.

(** X14. Execution is not rolled back: running [ops1 ++ ops2] is running [ops2]
    in the store that [ops1] left, so what [ops1] wrote stays written when
    [ops2] throws. *)
Theorem execution_goes_on_from_what_was_written :
  forall (N : JSNumber) (ops1 ops2 : list _Opcode) (c : ctx_ref) (h h1 : heap),
    perform_all ops1 c h = (Ok tt, h1) ->
    execute {| _ops := ops1 ++ ops2 |} (Some c) h
    = execute {| _ops := ops2 |} (Some c) h1.
Proof.
  intros N ops1 ops2 c h h1 H. rewrite !execute_in. cbn [_ops].
  unfold bindM at 1. rewrite perform_all_app.
  now rewrite (bindM_Ok _ _ _ _ _ H).
Qed.

Lemma execution_goes_on_from_what_was_written_witness :
  let fresh : @CalculationContext binary64_nan :=
    Default {| default_stack := []; _registers := ∅ |} in
  let written : @CalculationContext binary64_nan :=
    Default {| default_stack := [@_Literal binary64_nan 5%float];
               _registers := {[ "a" := 5%float ]} |} in
  execute {| _ops := [Identifier "a"; @Number binary64_nan 5%float; Operator opAssign]
                     ++ [@Number binary64_nan 1%float; Operator opAssign] |} (Some 0) [fresh]
  = execute {| _ops := [@Number binary64_nan 1%float; Operator opAssign] |} (Some 0) [written].
Proof.
  intros fresh written.
  exact (execution_goes_on_from_what_was_written binary64_nan
           [Identifier "a"; @Number binary64_nan 5%float; Operator opAssign]
           [@Number binary64_nan 1%float; Operator opAssign] 0 [fresh] [written] eq_refl).
Defined.

Section Chain_facts.
Context {N : JSNumber}.
Local Open Scope exec_scope.

Lemma getRegister_default h c s (R : gmap string num) name : c < length h ->
  getRegister c name (<[c := Default {| default_stack := s; _registers := R |}]> h)
  = (Ok (R !! name), <[c := Default {| default_stack := s; _registers := R |}]> h).
Proof. intros Hc. unfold getRegister. now rewrite (@heap_lookup N) by exact Hc. Qed.

Lemma identifier_default h c s (R : gmap string num) name : c < length h ->
  Opcode_perform (Identifier name) c
    (<[c := Default {| default_stack := s; _registers := R |}]> h)
  = (Ok tt, <[c := Default {| default_stack := s ++ [_VariableReference name c];
                              _registers := R |}]> h).
Proof.
  intros Hc. rewrite Opcode_perform_eq. cbn [Identifier opcode_kind opcode_value].
  now rewrite pushStack_default by exact Hc.
Qed.

Lemma popStack_reference_default h c s (R : gmap string num) name : c < length h ->
  popStack_value c
    (<[c := Default {| default_stack := s ++ [_VariableReference name c];
                       _registers := R |}]> h)
  = (Ok (default num_zero (R !! name)),
     <[c := Default {| default_stack := s; _registers := R |}]> h).
Proof.
  intros Hc. rewrite popStack_value_default by exact Hc. cbn [get_value].
  now rewrite (bindM_Ok _ _ _ _ _ (getRegister_default _ _ _ _ _ Hc)).
Qed.

(** The assign opcode on two references of a default context: the
    register of the second is read, the register of the first is written
    and the value is left as a literal. *)
Lemma assign_reference_default h c s (R : gmap string num) a b : c < length h ->
  Opcode_perform (Operator opAssign) c
    (<[c := Default {| default_stack :=
                         s ++ [_VariableReference a c; _VariableReference b c];
                       _registers := R |}]> h)
  = (Ok tt,
     <[c := Default {| default_stack := s ++ [_Literal (default num_zero (R !! b))];
                       _registers := <[a := default num_zero (R !! b)]> R |}]> h).
Proof.
  intros Hc. rewrite Opcode_perform_eq. cbn [Operator opcode_kind].
  replace (s ++ [_VariableReference a c; _VariableReference b c])
    with ((s ++ [_VariableReference a c]) ++ [_VariableReference b c])
    by now rewrite <- app_assoc.
  rewrite (bindM_Ok _ _ _ _ _ (popStack_reference_default _ _ _ _ _ Hc)).
  rewrite (bindM_Ok _ _ _ _ _ (popStack_default _ _ _ _ _ Hc)). cbn [set_value].
  rewrite (bindM_Ok _ _ _ _ _ (setRegister_default _ _ _ _ _ _ Hc)).
  now rewrite pushStack_default by exact Hc.
Qed.

Lemma chained_assignment h n (R : gmap string num) a b c : n < length h ->
  execute {| _ops := [Identifier a; Identifier b; Operator opAssign;
                      Identifier c; Operator opAssign] |} (Some n)
    (<[n := Default {| default_stack := []; _registers := R |}]> h)
  = (Throw (CalculationException "You can't set a value to a literal"),
     <[n := Default {| default_stack := [];
                       _registers := <[a := default num_zero (R !! b)]> R |}]> h).
Proof.
  intros Hn. rewrite execute_in. cbn [_ops]. unfold bindM at 1.
  match goal with |- context [perform_all ?ops n ?h0] =>
    assert (Hall : perform_all ops n h0
                   = (Throw (CalculationException "You can't set a value to a literal"),
                      <[n := Default {| default_stack := [];
                                        _registers :=
                                          <[a := default num_zero (R !! b)]> R |}]> h))
  end; [|now rewrite Hall].
  cbn [perform_all].
  rewrite (bindM_Ok _ _ _ _ _ (identifier_default _ _ _ _ _ Hn)).
  rewrite (bindM_Ok _ _ _ _ _ (identifier_default _ _ _ _ _ Hn)).
  cbn [app].
  change [_VariableReference a n; _VariableReference b n]
    with ([] ++ [_VariableReference a n; _VariableReference b n]).
  rewrite (bindM_Ok _ _ _ _ _ (assign_reference_default _ _ [] _ _ _ Hn)).
  rewrite (bindM_Ok _ _ _ _ _ (identifier_default _ _ _ _ _ Hn)).
  cbn [app]. unfold bindM at 1.
  rewrite Opcode_perform_eq. cbn [Operator opcode_kind].
  change [_Literal (default num_zero (R !! b)); _VariableReference c n]
    with ([_Literal (default num_zero (R !! b))] ++ [_VariableReference c n]).
  rewrite (bindM_Ok _ _ _ _ _ (popStack_reference_default _ _ _ _ _ Hn)).
  change [_Literal (default num_zero (R !! b))]
    with ([] ++ [_Literal (default num_zero (R !! b))]).
  rewrite (bindM_Ok _ _ _ _ _ (popStack_default _ _ _ _ _ Hn)).
  reflexivity.
Qed.

End Chain_facts.

(** X15. Assignment groups from left to right like the other operators, so a
    chain [a = b = c] compiles to a, b, assign, c, assign: execution writes
    the value of [b] to [a], then finds the literal that the first
    assignment left as the target of the second and throws; [a] stays
    written. *)
Theorem chained_assignment_throws :
  forall (N : JSNumber) (h : heap) (n : ctx_ref) (R : gmap string num)
         (a b c : string),
    n < length h ->
    let tokens := [operand_token identifier a; symbol_token opAssign;
                   operand_token identifier b; symbol_token opAssign;
                   operand_token identifier c] in
    let ops := [Identifier a; Identifier b; Operator opAssign;
                Identifier c; Operator opAssign] in
    _parseTokens [] tokens 0 = Ok (ops, tokens, 5)
    /\ execute {| _ops := ops |} (Some n)
         (<[n := Default {| default_stack := []; _registers := R |}]> h)
       = (Throw (CalculationException "You can't set a value to a literal"),
          <[n := Default {| default_stack := [];
                            _registers := <[a := default num_zero (R !! b)]> R |}]> h).
Proof.
  intros N h n R a b c Hn tokens ops. split; [reflexivity|].
  now apply chained_assignment.
Qed.

Lemma chained_assignment_throws_witness :
  let h : @heap binary64_nan :=
    [Default {| default_stack := []; _registers := {[ "y" := 2%float ]} |}] in
  execute {| _ops := [Identifier "x"; Identifier "y"; Operator opAssign;
                      Identifier "z"; Operator opAssign] |} (Some 0) h
  = (Throw (CalculationException "You can't set a value to a literal"),
     [Default {| default_stack := [];
                 _registers := <[ "x" := 2%float ]> {[ "y" := 2%float ]} |}]).
Proof.
  intros h.
  exact (proj2 (chained_assignment_throws binary64_nan h 0 {[ "y" := 2%float ]}
                  "x" "y" "z" ltac:(cbn; lia))).
Defined.

(** ** The optimizer *)

(** *** More facts about the optimizer *)

Section Optimizer_more_facts.
Context {N : JSNumber}.
Local Open Scope exec_scope.

Lemma bindM_inv {A B} (m : M A) (k : A -> M B) h b h' :
  bindM m k h = (Ok b, h') ->
  exists a h1, m h = (Ok a, h1) /\ k a h1 = (Ok b, h').
Proof.
  unfold bindM. destruct (m h) as [[a| |] h1]; intros H; try discriminate. eauto.
Qed.

(** What [optimize] returns is a single number, a program with fewer
    opcodes, or the program itself. *)
Lemma optimize_with_cases (c : ctx_ref) (p p' : Program) (h h' : heap) :
  optimize_with c p h = (Ok p', h') ->
  (exists v, p' = {| _ops := [Number v] |})
  \/ numOpcodes p' < numOpcodes p \/ p' = p.
Proof.
  unfold optimize_with. intros H.
  apply bindM_inv in H as ([newOps bound] & h1 & _ & H).
  apply bindM_inv in H as (literal & h2 & _ & H).
  destruct literal.
  - apply bindM_inv in H as (value & h3 & _ & H). injection H as <- _. eauto.
  - destruct (length newOps <? length (_ops p)) eqn:Hlt; injection H as <- _; auto.
    right. left. now apply Nat.ltb_lt in Hlt.
Qed.

End Optimizer_more_facts.

(** X16. [optimize] never makes a program longer: it returns the program itself
    or a program with fewer opcodes. *)
Theorem optimize_returns_the_program_or_a_shorter_one :
  forall (N : JSNumber) (p p' : Program),
    optimize p = Ok p' -> p' = p \/ numOpcodes p' < numOpcodes p.
Proof.
  intros N [[|op [|op2 ops]]] p' H.
  - cbv in H. injection H as <-. now left.
  - left. destruct op as [[] [|v|s]]; cbv in H; try discriminate;
      now injection H as <-.
  - unfold optimize in H.
    destruct ((let! context := new_OptimizationContext in
               optimize_with context {| _ops := op :: op2 :: ops |})%exec [])
      as [r h'] eqn:Hrun.
    cbn [fst] in H. subst r. apply bindM_inv in Hrun as (c & h1 & _ & Hrun).
    apply optimize_with_cases in Hrun as [[v ->] | [Hlt | ->]]; auto.
    right. cbn. lia.
Qed.

Lemma optimize_returns_the_program_or_a_shorter_one_witness :
  let p : @Program binary64_nan :=
    {| _ops := [@Number binary64_nan 2%float; @Number binary64_nan 3%float;
                Operator opMultiply] |} in
  let p' : @Program binary64_nan := {| _ops := [@Number binary64_nan 6%float] |} in
  p' = p \/ numOpcodes p' < numOpcodes p.
Proof.
  intros p p'.
  exact (optimize_returns_the_program_or_a_shorter_one binary64_nan p p' eq_refl).
Defined.

Section Reference_stack_facts.
Context {N : JSNumber}.
Local Open Scope exec_scope.

Ltac store_simpl Hc :=
  repeat first
    [ rewrite (@heap_insert N)
    | rewrite (@heap_lookup N) by (rewrite ?length_insert; exact Hc)
    | progress cbn [with_stack _stack default_stack optimization_stack
                    _popped _registerAccess _registers] ].

Lemma popStack_optimization_empty h c P b : c < length h ->
  popStack c (<[c := Optimization {| optimization_stack := []; _popped := P;
                                     _registerAccess := b |}]> h)
  = (Ok None, <[c := Optimization {| optimization_stack := []; _popped := P;
                                     _registerAccess := b |}]> h).
Proof.
  intros Hc. unfold popStack. rewrite (@heap_lookup N) by exact Hc.
  unfold bindM, super_popStack. now rewrite (@heap_lookup N) by exact Hc.
Qed.

Lemma popStack_value_optimization_empty h c P b : c < length h ->
  popStack_value c (<[c := Optimization {| optimization_stack := []; _popped := P;
                                           _registerAccess := b |}]> h)
  = (Throw TypeError,
     <[c := Optimization {| optimization_stack := []; _popped := P;
                            _registerAccess := b |}]> h).
Proof.
  intros Hc. unfold popStack_value.
  now rewrite (bindM_Ok _ _ _ _ _ (popStack_optimization_empty _ _ _ _ Hc)).
Qed.

Lemma setRegister_optimization h c s P b name v : c < length h ->
  setRegister c name v
    (<[c := Optimization {| optimization_stack := s; _popped := P;
                            _registerAccess := b |}]> h)
  = (Ok tt, <[c := Optimization {| optimization_stack := s; _popped := P;
                                   _registerAccess := true |}]> h).
Proof.
  intros Hc. unfold setRegister. rewrite (@heap_lookup N) by exact Hc.
  unfold set_registerAccess. now store_simpl Hc.
Qed.

(** Reading a reference in an optimization context gives 1 and notes the
    access. *)
Lemma popStack_value_optimization_reference h c s name P b : c < length h ->
  popStack_value c
    (<[c := Optimization {| optimization_stack := s ++ [_VariableReference name c];
                            _popped := P; _registerAccess := b |}]> h)
  = (Ok num_one,
     <[c := Optimization {| optimization_stack := s;
                            _popped := P ++ [_VariableReference name c];
                            _registerAccess := true |}]> h).
Proof.
  intros Hc. unfold popStack_value.
  rewrite (bindM_Ok _ _ _ _ _ (popStack_optimization _ _ _ _ _ _ Hc)).
  cbn [get_value]. unfold bindM, getRegister. rewrite (@heap_lookup N) by exact Hc.
  unfold bindM, set_registerAccess, ret. now store_simpl Hc.
Qed.

(** After an access to a register the next push stores an unknown
    reference in place of the element. *)
Lemma pushStack_optimization_tainted h c s e P : c < length h ->
  pushStack c e (<[c := Optimization {| optimization_stack := s; _popped := P;
                                        _registerAccess := true |}]> h)
  = (Ok tt,
     <[c := Optimization {| optimization_stack :=
                              s ++ [_VariableReference "**unknown**" c];
                            _popped := []; _registerAccess := false |}]> h).
Proof.
  intros Hc. unfold pushStack. rewrite (@heap_lookup N) by exact Hc.
  cbn [_registerAccess]. unfold bindM, ret, set_registerAccess, set_popped,
    super_pushStack.
  now store_simpl Hc.
Qed.

Lemma references_snoc c (s : list _StackElement) :
  Forall (refers_to c) s ->
  s = [] \/ exists s' name, s = s' ++ [_VariableReference name c]
                            /\ Forall (refers_to c) s'.
Proof.
  intros Hs. destruct s as [|e s _] using rev_ind; [now left|]. right.
  apply Forall_app in Hs as [Hs He]. inversion He as [|? ? [name ->] _]. eauto.
Qed.

(** On a stack of references every rule that returns leaves a stack of
    references that is not empty, and no access noted. *)
Lemma perform_on_references op h c s P h' :
  c < length h -> opcode_kind op <> numberLiteral -> Forall (refers_to c) s ->
  Opcode_perform op c
    (<[c := Optimization {| optimization_stack := s; _popped := P;
                            _registerAccess := false |}]> h) = (Ok tt, h') ->
  exists s' name P',
    h' = <[c := Optimization {| optimization_stack := s' ++ [_VariableReference name c];
                                _popped := P'; _registerAccess := false |}]> h
    /\ Forall (refers_to c) s'.
Proof.
  intros Hc Hkind Hs. rewrite Opcode_perform_eq.
  assert (Hbinary : forall f,
    binary f c
      (<[c := Optimization {| optimization_stack := s; _popped := P;
                              _registerAccess := false |}]> h) = (Ok tt, h') ->
    exists s' name P',
      h' = <[c := Optimization {| optimization_stack :=
                                    s' ++ [_VariableReference name c];
                                  _popped := P'; _registerAccess := false |}]> h
      /\ Forall (refers_to c) s').
  { intros f. unfold binary.
    destruct (references_snoc c s Hs) as [-> | (s1 & name1 & -> & Hs1)].
    { unfold bindM at 1.
      rewrite popStack_value_optimization_empty by exact Hc. discriminate. }
    rewrite (bindM_Ok _ _ _ _ _
               (popStack_value_optimization_reference _ _ _ _ _ _ Hc)).
    destruct (references_snoc c s1 Hs1) as [-> | (s2 & name2 & -> & Hs2)].
    { unfold bindM at 1.
      rewrite popStack_value_optimization_empty by exact Hc. discriminate. }
    rewrite (bindM_Ok _ _ _ _ _
               (popStack_value_optimization_reference _ _ _ _ _ _ Hc)).
    rewrite pushStack_optimization_tainted by exact Hc.
    intros [= <-]. eauto. }
  destruct (opcode_kind op); try contradiction; try apply Hbinary.
  - destruct (opcode_value op) as [|v|name]; try discriminate.
    rewrite pushStack_optimization by exact Hc. intros [= <-]. eauto.
  - destruct (references_snoc c s Hs) as [-> | (s1 & name1 & -> & Hs1)].
    { unfold bindM at 1.
      rewrite popStack_value_optimization_empty by exact Hc. discriminate. }
    rewrite (bindM_Ok _ _ _ _ _
               (popStack_value_optimization_reference _ _ _ _ _ _ Hc)).
    destruct (references_snoc c s1 Hs1) as [-> | (s2 & name2 & -> & Hs2)].
    { rewrite (bindM_Ok _ _ _ _ _ (popStack_optimization_empty _ _ _ _ Hc)).
      discriminate. }
    rewrite (bindM_Ok _ _ _ _ _ (popStack_optimization _ _ _ _ _ _ Hc)).
    cbn [set_value].
    rewrite (bindM_Ok _ _ _ _ _ (setRegister_optimization _ _ _ _ _ _ _ Hc)).
    rewrite pushStack_optimization_tainted by exact Hc.
    intros [= <-]. eauto.
  - discriminate.
  - discriminate.
Qed.

(** A turn of the loop that returns has performed the opcode. *)
Lemma optimize_turn_performs h c op o newOps stackBound x h' : c < length h ->
  optimize_turn c op newOps stackBound (<[c := Optimization o]> h) = (Ok x, h') ->
  exists h1, Opcode_perform op c (<[c := Optimization o]> h) = (Ok tt, h1).
Proof.
  intros Hc. unfold optimize_turn.
  rewrite (bindM_Ok _ _ _ _ _ (stackIsNotEmpty_optimization h c o Hc)).
  assert (Hrest : forall (stackSave : option (list _StackElement)) k,
            (do! Opcode_perform op c in k)%exec (<[c := Optimization o]> h) = (Ok x, h') ->
            exists h1, Opcode_perform op c (<[c := Optimization o]> h) = (Ok tt, h1)).
  { intros _ k H. apply bindM_inv in H as ([] & h1 & H & _). eauto. }
  destruct (negb (length (optimization_stack o) =? 0)).
  - rewrite (bindM_Ok _ _ _ _ _ (topIsLiteral_optimization h c o Hc)).
    destruct (last (optimization_stack o)) as [[]|]; cbn [andb].
    + rewrite (bindM_Ok _ _ _ _ _
                 (bindM_Ok _ _ _ _ _ (stackSince_optimization h c o stackBound Hc))).
      apply (Hrest None).
    + unfold ret at 1. unfold bindM at 1. apply (Hrest None).
    + unfold ret at 1. unfold bindM at 1. apply (Hrest None).
  - unfold ret at 1. unfold bindM at 1. cbn [andb]. unfold ret at 1.
    unfold bindM at 1. apply (Hrest None).
Qed.

(** On a program without number opcodes the loop emits every opcode. *)
Lemma optimize_loop_references ops : forall h c s P newOps stackBound r h',
  c < length h -> Forall (fun op => opcode_kind op <> numberLiteral) ops ->
  Forall (refers_to c) s ->
  optimize_loop c ops newOps stackBound
    (<[c := Optimization {| optimization_stack := s; _popped := P;
                            _registerAccess := false |}]> h) = (Ok r, h') ->
  exists s' P' stackBound',
    r = (newOps ++ ops, stackBound')
    /\ h' = <[c := Optimization {| optimization_stack := s'; _popped := P';
                                   _registerAccess := false |}]> h
    /\ Forall (refers_to c) s'.
Proof.
  induction ops as [|op ops IH]; intros h c s P newOps stackBound r h' Hc Hops Hs H;
    cbn [optimize_loop] in H.
  - injection H as <- <-. exists s, P, stackBound. now rewrite app_nil_r.
  - inversion Hops as [|? ? Hop Hops']; subst.
    apply bindM_inv in H as ([newOps1 bound1] & h1 & Hturn & H).
    destruct (optimize_turn_performs _ _ _ _ _ _ _ _ Hc Hturn) as [h2 Hperform].
    destruct (perform_on_references _ _ _ _ _ _ Hc Hop Hs Hperform)
      as (s1 & name & P1 & -> & Hs1).
    rewrite (optimize_turn_eq _ _ _ _ _ _ _ Hc Hperform) in Hturn.
    cbn [optimization_stack] in Hturn. rewrite last_snoc in Hturn.
    injection Hturn as <- <- <-.
    assert (Hs2 : Forall (refers_to c) (s1 ++ [_VariableReference name c]))
      by (apply Forall_app; split;
          [exact Hs1 | repeat constructor; eexists; reflexivity]).
    destruct (IH _ _ _ _ _ _ _ _ Hc Hops' Hs2 H)
      as (s' & P' & bound' & -> & -> & Hs').
    exists s', P', bound'. now rewrite <- app_assoc.
Qed.

End Reference_stack_facts.

(** X17. A program without number opcodes has nothing to fold: when [optimize]
    returns, it returns the program itself. *)
Theorem optimize_keeps_a_program_without_numbers :
  forall (N : JSNumber) (p p' : Program),
    Forall (fun op => opcode_kind op <> numberLiteral) (_ops p) ->
    optimize p = Ok p' -> p' = p.
Proof.
  intros N p p' Hops H. unfold optimize in H.
  destruct ((let! context := new_OptimizationContext in optimize_with context p)%exec [])
    as [r h'] eqn:Hrun.
  cbn [fst] in H. subst r. unfold bindM at 1 in Hrun.
  cbn [new_OptimizationContext length app] in Hrun. unfold optimize_with in Hrun.
  apply bindM_inv in Hrun as ([newOps bound] & h1 & Hloop & Hrun).
  set (empty := Optimization {| optimization_stack := []; _popped := [];
                                _registerAccess := false |}) in *.
  change [empty] with (<[0 := empty]> [empty]) in Hloop.
  assert (H0 : 0 < length [empty]) by (cbn; lia).
  destruct (optimize_loop_references _ _ _ _ _ _ _ _ _ H0 Hops (Forall_nil_2 _) Hloop)
    as (s' & P' & bound' & [= -> ->] & -> & Hs').
  rewrite (bindM_Ok _ _ _ _ _ (topIsLiteral_optimization _ _ _ H0)) in Hrun.
  cbn [optimization_stack app] in Hrun.
  destruct (last s') as [[v|name c]|] eqn:Hl.
  - apply last_Some in Hl as [s1 ->]. apply Forall_app in Hs' as [_ Hv].
    inversion Hv as [|? ? [name Hname] _]. discriminate.
  - rewrite Nat.ltb_irrefl in Hrun. now injection Hrun as <- _.
  - rewrite Nat.ltb_irrefl in Hrun. now injection Hrun as <- _.
Qed.

Lemma optimize_keeps_a_program_without_numbers_witness :
  let p : @Program binary64_nan :=
    {| _ops := [Identifier "a"; Identifier "b"; Operator opAdd] |} in
  exists p', optimize p = Ok p' /\ p' = p.
Proof.
  intros p. eexists. split; [reflexivity|].
  refine (optimize_keeps_a_program_without_numbers binary64_nan p _ _ eq_refl).
  repeat constructor; discriminate.
Defined.

(** ** Expressions: from the source to the value *)

(** *** Facts about the compiler and expressions *)

Section Expression_facts.
Context {N : JSNumber}.
Local Open Scope parse_scope.

Lemma expression_term_eq fuel g ops tokens cursor lastTokenOp :
  expression (S fuel) g ops tokens cursor lastTokenOp =
  (let! (ops, tokens, afterTerm) := term fuel g ops tokens cursor in
   let! ops :=
     match lastTokenOp with
     | Some lastTokenOp => let! op := Token_toOpcode lastTokenOp in Ok (ops ++ [op])
     | None => Ok ops
     end in
   if afterTerm <? length tokens
   then halfExpression (expression fuel g) (kinds_of g) ops tokens afterTerm
   else Ok (ops, tokens, afterTerm)).
Proof. destruct g as [kinds parent]. apply expression_eq. Qed.

Lemma operator_token (o : _Kind) :
  is_operator o = true -> Token_toOpcode (symbol_token o) = Ok (Operator o).
Proof. destruct o; try discriminate; reflexivity. Qed.

Lemma tokens_of_length (e : expr) : 1 <= length (tokens_of e).
Proof. destruct e; cbn [tokens_of length]; rewrite ?length_app; cbn; lia. Qed.

Lemma chain_tokens_snoc rest : forall first o r,
  chain_tokens first (rest ++ [(o, r)])
  = chain_tokens first rest ++ symbol_token o :: tokens_of r.
Proof.
  induction rest as [|[o' next] rest IH]; intros first o r; cbn [chain_tokens app].
  - now rewrite !app_nil_r.
  - rewrite IH. now rewrite <- !app_assoc.
Qed.

Lemma chain_postfix_snoc rest : forall last first o r,
  chain_postfix last first (rest ++ [(o, r)])
  = chain_postfix last first rest ++ postfix r ++ [Operator o].
Proof.
  induction rest as [|[o' next] rest IH]; intros last first o r;
    cbn [chain_postfix app operator_opcode].
  - now rewrite !app_nil_r, <- !app_assoc.
  - rewrite IH. now rewrite <- !app_assoc.
Qed.

(** The chain of a well-formed expression: the same tokens and opcodes;
    terms that bind more tightly than the chain and are no longer than the
    expression; operators of the chain's looseness. *)
Lemma chain_of_spec d : forall e,
  well_formed e -> rank e <= S d ->
  match chain_of d e with
  | (first, rest) =>
      tokens_of e = chain_tokens first rest
      /\ postfix e = chain_postfix None first rest
      /\ Forall (fun T => well_formed T /\ rank T <= d
                          /\ (if rest is [] then T = e
                              else length (tokens_of T) < length (tokens_of e)))
           (first :: rest.*2)
      /\ Forall (fun o => is_operator o = true /\ looseness o = d) rest.*1
  end.
Proof.
  assert (Hself : forall e, well_formed e -> rank e <= d ->
            tokens_of e = chain_tokens e []
            /\ postfix e = chain_postfix None e []
            /\ Forall (fun T => well_formed T /\ rank T <= d /\ T = e) [e]
            /\ Forall (fun o => is_operator o = true /\ looseness o = d) []).
  { intros e Hwf Hr. cbn [chain_tokens chain_postfix operator_opcode].
    rewrite !app_nil_r. repeat split; auto. }
  induction e as [k text|o l IHl r IHr|e IH]; intros Hwf Hrank;
    cbn [chain_of]; try (apply Hself; [exact Hwf | cbn; lia]).
  destruct (looseness o =? d) eqn:Ho.
  2:{ apply Nat.eqb_neq in Ho. apply Hself; [exact Hwf | cbn in *; lia]. }
  apply Nat.eqb_eq in Ho. destruct Hwf as (Hop & Hl & Hr & Hrl & Hrr).
  specialize (IHl Hl ltac:(lia)). destruct (chain_of d l) as [first rest].
  destruct IHl as (Ht & Hp & Hterms & Hops).
  rewrite chain_tokens_snoc, chain_postfix_snoc. cbn [tokens_of postfix].
  rewrite Ht, Hp, app_assoc. repeat split.
  - rewrite fmap_app. cbn [fmap list_fmap snd]. rewrite app_comm_cons.
    apply Forall_app. split.
    + eapply Forall_impl; [exact Hterms|]. intros T (HT & HTr & HTl).
      repeat split; auto. destruct (rest ++ [(o, r)]) eqn:E;
        [now destruct rest|].
      rewrite <- Ht, length_app. cbn [length].
      destruct rest; [subst T|]; lia.
    + repeat constructor; auto; try lia.
      destruct (rest ++ [(o, r)]) eqn:E; [now destruct rest|].
      rewrite <- Ht, length_app. cbn [length]. pose proof (tokens_of_length l). lia.
  - rewrite fmap_app. apply Forall_app. split; [exact Hops|].
    repeat constructor; auto.
Qed.

(** *** The groups of [_expression] *)

Lemma ancestors_cases (g : _PrecedenceGroup) :
  g ∈ ancestors _expression ->
  g = _expression
  \/ g = over (over (PrecedenceGroup [opPower] None) [opMultiply; opDivide])
              [opAdd; opSubtract]
  \/ g = over (PrecedenceGroup [opPower] None) [opMultiply; opDivide]
  \/ g = PrecedenceGroup [opPower] None.
Proof.
  intros H. apply list_elem_of_In in H. cbn in H. intuition.
Qed.

Lemma ancestors_parent kinds parent :
  PrecedenceGroup kinds (Some parent) ∈ ancestors _expression ->
  parent ∈ ancestors _expression.
Proof.
  intros H. apply ancestors_cases in H as [H|[H|[H|H]]];
    cbv [_expression over] in H; inversion H; subst;
    apply list_elem_of_In; cbn; auto.
Qed.

(** The operators of a group are those of its looseness. *)
Lemma ancestors_kinds (g : _PrecedenceGroup) (o : _Kind) :
  g ∈ ancestors _expression -> is_operator o = true ->
  looseness o = group_depth g -> kinds_has (kinds_of g) o = true.
Proof.
  intros H Ho. apply ancestors_cases in H as [ -> | [ -> | [ -> | -> ] ] ];
    destruct o; try discriminate Ho; cbn; try discriminate; reflexivity.
Qed.

(** They are not among the kinds of the groups further in. *)
Lemma ancestors_inner (g : _PrecedenceGroup) (o : _Kind) :
  g ∈ ancestors _expression -> is_operator o = true ->
  looseness o = group_depth g -> o ∉ inner_kinds g.
Proof.
  intros H Ho. apply ancestors_cases in H as [ -> | [ -> | [ -> | -> ] ] ];
    destruct o; try discriminate Ho; cbn; try discriminate; intros _ Hin;
    repeat (apply elem_of_cons in Hin as [Hin|Hin]; [discriminate|]);
    now apply elem_of_nil in Hin.
Qed.

Lemma group_kinds_split (g : _PrecedenceGroup) :
  group_kinds g = kinds_of g ++ inner_kinds g.
Proof. now destruct g as [kinds [parent|]]. Qed.

Lemma follows_split (g : _PrecedenceGroup) (post : list _Token) :
  follows (group_kinds g) post ->
  follows (kinds_of g) post /\ follows (inner_kinds g) post.
Proof.
  rewrite group_kinds_split. destruct post as [|t post]; cbn [follows]; [auto|].
  intros H. split; intros Hin; apply H, elem_of_app; auto.
Qed.

Lemma looseness_bound (o : _Kind) : looseness o <= 3.
Proof. destruct o; apply Nat.leb_le; reflexivity. Qed.

(** *** A chain *)

Lemma parse_chain (g : _PrecedenceGroup) : forall rest first fuel ops post last,
  Forall (term_compiles g) (first :: rest.*2) ->
  Forall (fun o => kinds_has (kinds_of g) o = true /\ is_operator o = true
                   /\ o ∉ inner_kinds g) rest.*1 ->
  (forall o, last = Some o -> is_operator o = true) ->
  follows (group_kinds g) post ->
  length (chain_tokens first rest) < S fuel ->
  expression (S fuel) g ops (chain_tokens first rest ++ post) 0 (symbol_token <$> last)
  = Ok (ops ++ chain_postfix last first rest, chain_tokens first rest ++ post,
        length (chain_tokens first rest)).
Proof.
  induction rest as [|[o next] rest IH]; intros first fuel ops post last Hterms Hops
    Hlast Hpost Hfuel; rewrite expression_term_eq;
    inversion Hterms as [|? ? Hfirst Hterms']; subst;
    destruct (follows_split g post Hpost) as [Hkinds Hinner];
    assert (Hpush : match symbol_token <$> last with
                    | Some lastTokenOp =>
                        let! op := Token_toOpcode lastTokenOp in
                        Ok ((ops ++ postfix first) ++ [op])
                    | None => Ok (ops ++ postfix first)
                    end = Ok (ops ++ postfix first ++ operator_opcode last))
      by (destruct last as [o'|]; cbn [fmap option_fmap option_map operator_opcode];
          [rewrite (operator_token o') by auto; cbn [bindO]; now rewrite <- app_assoc
          | now rewrite app_nil_r]).
  - cbn [chain_tokens chain_postfix] in *. rewrite !app_nil_r in *.
    rewrite (Hfirst fuel ops post Hinner Hfuel). cbn [bindO].
    rewrite Hpush. cbn [bindO]. rewrite length_app.
    destruct post as [|t post].
    + cbn [length]. replace (length (tokens_of first) <? length (tokens_of first) + 0)
        with false by (symmetry; apply Nat.ltb_ge; lia).
      reflexivity.
    + replace (length (tokens_of first) <? length (tokens_of first) + length (t :: post))
        with true by (symmetry; apply Nat.ltb_lt; cbn [length]; lia).
      unfold halfExpression. rewrite list_lookup_middle by reflexivity.
      cbn [follows] in Hkinds. unfold kinds_has.
      now rewrite bool_decide_eq_false_2 by exact Hkinds.
  - cbn [fmap list_fmap fst snd] in *.
    inversion Hops as [|? ? (Ho & Hop & Hoin) Hops']; subst.
    cbn [chain_tokens chain_postfix] in *. rewrite <- !app_assoc.
    rewrite length_app in *. cbn [length] in *.
    rewrite (Hfirst fuel ops) by (cbn [follows token_kind symbol_token]; auto; lia).
    cbn [bindO]. rewrite Hpush. cbn [bindO]. rewrite length_app. cbn [app length].
    replace (length (tokens_of first)
             <? length (tokens_of first)
                + S (length (chain_tokens next rest ++ post)))
      with true by (symmetry; apply Nat.ltb_lt; lia).
    unfold halfExpression. rewrite list_lookup_middle by reflexivity.
    cbn [symbol_token token_kind]. rewrite Ho.
    destruct fuel as [|fuel]; [lia|].
    change (tokens_of first ++ symbol_token o :: chain_tokens next rest ++ post)
      with (tokens_of first ++ [symbol_token o] ++ (chain_tokens next rest ++ post)).
    rewrite (app_assoc (tokens_of first)).
    replace (length (tokens_of first) + 1)
      with (length (tokens_of first ++ [symbol_token o]) + 0)
      by (rewrite length_app; cbn [length]; lia).
    rewrite expression_shift.
    change (Some (symbol_token o)) with (symbol_token <$> Some o).
    rewrite (IH next fuel _ post (Some o) Hterms' Hops'
               ltac:(now intros ? [= <-]) Hpost ltac:(lia)).
    cbn [shifted]. rewrite !length_app. cbn [length].
    rewrite <- !app_assoc.
    replace (length (tokens_of first) + 1 + length (chain_tokens next rest))
      with (length (tokens_of first) + S (length (chain_tokens next rest))) by lia.
    reflexivity.
Qed.

(** *** Operands and brackets *)

Lemma parse_operand k text top ops post :
  operand_kind k ->
  _valueExpression top ops (operand_token k text :: post) 0
  = Ok (ops ++ [operand_of k text], operand_token k text :: post, 1).
Proof. intros [-> | ->]; reflexivity. Qed.

Lemma parse_bracketed (e : expr) fuel ops post :
  expression fuel _expression ops (tokens_of e ++ symbol_token closeBracket :: post)
    0 None
  = Ok (ops ++ postfix e, tokens_of e ++ symbol_token closeBracket :: post,
        length (tokens_of e)) ->
  _valueExpression
    (fun ops tokens cursor => expression fuel _expression ops tokens cursor None)
    ops (tokens_of (Bracketed e) ++ post) 0
  = Ok (ops ++ postfix (Bracketed e), tokens_of (Bracketed e) ++ post,
        length (tokens_of (Bracketed e))).
Proof.
  intros H. cbn [tokens_of postfix]. unfold _valueExpression.
  cbn [app lookup list_lookup symbol_token token_kind].
  destruct (decide (openBracket = openBracket)) as [_|]; [|contradiction].
  rewrite <- app_assoc. cbn [app].
  change (symbol_token openBracket :: tokens_of e ++ symbol_token closeBracket :: post)
    with ([symbol_token openBracket]
          ++ (tokens_of e ++ symbol_token closeBracket :: post)).
  change (0 + 1) with (length [symbol_token openBracket] + 0).
  rewrite expression_shift, H. cbn [shifted bindO].
  rewrite app_assoc, list_lookup_middle by (rewrite length_app; cbn [length]; lia).
  cbn [symbol_token token_kind].
  destruct (decide (closeBracket <> closeBracket)) as [|_]; [contradiction|].
  rewrite <- app_assoc. cbn [length app]. rewrite !length_app. cbn [length].
  repeat f_equal.
Qed.

(** *** Well-formed expressions *)

Lemma compile_expr : forall n e,
  length (tokens_of e) <= n -> well_formed e ->
  forall g, g ∈ ancestors _expression -> rank e <= S (group_depth g) ->
  forall fuel ops post,
    follows (group_kinds g) post -> length (tokens_of e) < S fuel ->
    expression (S fuel) g ops (tokens_of e ++ post) 0 None
    = Ok (ops ++ postfix e, tokens_of e ++ post, length (tokens_of e)).
Proof.
  induction n as [|n IHn]; intros e Hn Hwf;
    [pose proof (tokens_of_length e); lia|].
  assert (Hchain : forall g, g ∈ ancestors _expression ->
            rank e <= S (group_depth g) ->
            (forall T, well_formed T -> rank T <= group_depth g ->
               T = e \/ length (tokens_of T) < length (tokens_of e) ->
               term_compiles g T) ->
            forall fuel ops post,
              follows (group_kinds g) post -> length (tokens_of e) < S fuel ->
              expression (S fuel) g ops (tokens_of e ++ post) 0 None
              = Ok (ops ++ postfix e, tokens_of e ++ post, length (tokens_of e))).
  { intros g Hg Hrank Hterm fuel ops post Hpost Hfuel.
    pose proof (chain_of_spec (group_depth g) e Hwf Hrank) as Hspec.
    destruct (chain_of (group_depth g) e) as [first rest].
    destruct Hspec as (Ht & Hp & Hterms & Hops). rewrite Ht, Hp.
    change (@None _Token) with (symbol_token <$> @None _Kind).
    apply parse_chain; auto; try discriminate; [| |now rewrite <- Ht].
    - eapply Forall_impl; [exact Hterms|]. intros T (HT & HTr & HTl).
      apply Hterm; auto. destruct rest; auto.
    - eapply Forall_impl; [exact Hops|]. intros o [Ho Hl].
      repeat split; auto using ancestors_kinds, ancestors_inner. }
  induction g as [kinds|kinds parent IHg] using group_induction; intros Hg Hrank;
    apply Hchain; auto; intros T HT HTr HTl fuel ops post Hpost Hfuel; cbn [term].
  - destruct T as [k text|o l r|e']; cbn [rank group_depth] in HTr; [| lia |].
    + now apply parse_operand.
    + apply parse_bracketed. destruct fuel as [|fuel]; [cbn in Hfuel; lia|].
      assert (Hlen : length (tokens_of (Bracketed e')) = S (S (length (tokens_of e'))))
        by (cbn [tokens_of length]; rewrite length_app; cbn [length]; lia).
      apply IHn; auto.
      * destruct HTl as [<-|HTl]; lia.
      * apply list_elem_of_In. cbn. auto.
      * change (group_depth _expression) with 3.
        destruct e' as [| o ? ? |]; cbn [rank]; try lia.
        pose proof (looseness_bound o). lia.
      * cbn. intros Hin.
        repeat (apply elem_of_cons in Hin as [Hin|Hin]; [discriminate|]).
        now apply elem_of_nil in Hin.
      * lia.
  - cbn [group_depth] in HTr. cbn [inner_kinds] in Hpost.
    destruct HTl as [->|HTl].
    + apply IHg; auto. now apply ancestors_parent in Hg.
    + apply IHn; auto; [lia|]. now apply ancestors_parent in Hg.
Qed.

End Expression_facts.

(** *** Running the opcodes of an expression *)

Section Evaluation_facts.
Context {N : JSNumber}.
Local Open Scope exec_scope.

Variable h : list CalculationContext.
Variable n : nat.
Hypothesis Hn : n < length h.
Variable R : gmap string num.

Lemma get_value_result (e : expr) (s : list _StackElement) :
  arithmetic e ->
  get_value (result_element n R e)
    (<[n := Default {| default_stack := s; _registers := R |}]> h)
  = (Ok (eval R e), <[n := Default {| default_stack := s; _registers := R |}]> h).
Proof.
  induction e as [k text|o l IHl r IHr|e IH]; cbn [arithmetic result_element eval];
    try reflexivity; [|exact IH].
  intros [-> | ->].
  - now destruct (decide (numberLiteral = numberLiteral)).
  - destruct (decide (identifier = numberLiteral)) as [|_]; [discriminate|].
    cbn [get_value].
    now rewrite (bindM_Ok _ _ _ _ _ (getRegister_default _ _ _ _ _ Hn)).
Qed.

Lemma perform_all_snoc (ops : list _Opcode) (op : _Opcode) (c : ctx_ref) h0 h1 :
  perform_all ops c h0 = (Ok tt, h1) ->
  perform_all (ops ++ [op]) c h0 = Opcode_perform op c h1.
Proof.
  intros H. rewrite perform_all_app, (bindM_Ok _ _ _ _ _ H). cbn [perform_all].
  unfold bindM, ret. now destruct (Opcode_perform op c h1) as [[[]| |] h2].
Qed.

Lemma perform_all_compose (ops1 ops2 : list _Opcode) (c : ctx_ref) h0 h1 :
  perform_all ops1 c h0 = (Ok tt, h1) ->
  perform_all (ops1 ++ ops2) c h0 = perform_all ops2 c h1.
Proof. intros H. now rewrite perform_all_app, (bindM_Ok _ _ _ _ _ H). Qed.

Lemma binary_result f (l r : expr) (s : list _StackElement) :
  arithmetic l -> arithmetic r ->
  binary f n
    (<[n := Default {| default_stack :=
                         (s ++ [result_element n R l]) ++ [result_element n R r];
                       _registers := R |}]> h)
  = (Ok tt,
     <[n := Default {| default_stack := s ++ [_Literal (f (eval R r) (eval R l))];
                       _registers := R |}]> h).
Proof.
  intros Hl Hr. unfold binary.
  assert (H1 : popStack_value n
                 (<[n := Default {| default_stack :=
                                      (s ++ [result_element n R l])
                                      ++ [result_element n R r];
                                    _registers := R |}]> h)
               = (Ok (eval R r),
                  <[n := Default {| default_stack := s ++ [result_element n R l];
                                    _registers := R |}]> h))
    by (rewrite popStack_value_default by exact Hn; now apply get_value_result).
  assert (H2 : popStack_value n
                 (<[n := Default {| default_stack := s ++ [result_element n R l];
                                    _registers := R |}]> h)
               = (Ok (eval R l),
                  <[n := Default {| default_stack := s; _registers := R |}]> h))
    by (rewrite popStack_value_default by exact Hn; now apply get_value_result).
  rewrite (bindM_Ok _ _ _ _ _ H1), (bindM_Ok _ _ _ _ _ H2).
  now rewrite pushStack_default by exact Hn.
Qed.

(** The opcodes of an arithmetic expression leave one element more on the
    stack, whose value is the value of the expression, and change nothing
    else. *)
Lemma run_postfix : forall (e : expr) (s : list _StackElement),
  arithmetic e ->
  perform_all (postfix e) n
    (<[n := Default {| default_stack := s; _registers := R |}]> h)
  = (Ok tt, <[n := Default {| default_stack := s ++ [result_element n R e];
                              _registers := R |}]> h).
Proof.
  induction e as [k text|o l IHl r IHr|e IH]; intros s He;
    cbn [arithmetic postfix result_element] in *; [| |now apply IH].
  - cbn [perform_all]. unfold bindM. rewrite Opcode_perform_eq.
    destruct He as [-> | ->]; cbn [operand_of opcode_kind opcode_value];
      [destruct (decide (numberLiteral = numberLiteral)) as [_|]; [|contradiction]
      |destruct (decide (identifier = numberLiteral)) as [|_]; [discriminate|]];
      now rewrite pushStack_default by exact Hn.
  - destruct He as (Ho & Hl & Hr).
    rewrite (perform_all_compose _ _ _ _ _ (IHl s Hl)).
    rewrite (perform_all_snoc _ _ _ _ _ (IHr _ Hr)).
    rewrite Opcode_perform_eq. cbn [Operator opcode_kind eval].
    repeat (apply elem_of_cons in Ho as [->|Ho];
            [first [ now apply binary_result
                   | now apply (binary_result (fun a b => num_div b a))
                   | now apply (binary_result (fun a b => num_pow b a)) ]|]).
    now apply elem_of_nil in Ho.
Qed.

Lemma execute_postfix (e : expr) (s : list _StackElement) :
  arithmetic e ->
  execute {| _ops := postfix e |} (Some n)
    (<[n := Default {| default_stack := s; _registers := R |}]> h)
  = (Ok (eval R e), <[n := Default {| default_stack := s; _registers := R |}]> h).
Proof.
  intros He. rewrite execute_in. cbn [_ops].
  rewrite (bindM_Ok _ _ _ _ _ (run_postfix e s He)).
  rewrite popStack_value_default by exact Hn. now apply get_value_result.
Qed.

End Evaluation_facts.

(** X18. The compiler is right on every expression that needs no more brackets
    than it has: its tokens compile, all of them, to the opcodes of the
    expression in postfix order: the left side, the right side, the
    operator. *)
Theorem well_formed_expression_compiles_to_postfix :
  forall (N : JSNumber) (e : expr),
    well_formed e ->
    _parseTokens [] (tokens_of e) 0
    = Ok (postfix e, tokens_of e, length (tokens_of e)).
Proof.
  intros N e Hwf. unfold _parseTokens.
  pose proof (compile_expr (length (tokens_of e)) e (le_n _) Hwf _expression
                ltac:(apply list_elem_of_In; cbn; auto)) as H.
  specialize (H ltac:(change (group_depth _expression) with 3;
                      destruct e as [| o ? ? |]; cbn [rank]; try lia;
                      pose proof (looseness_bound o); lia)).
  specialize (H (length (tokens_of e)) [] [] I ltac:(lia)).
  now rewrite !app_nil_r in H.
Qed.

Lemma well_formed_expression_compiles_to_postfix_witness :
  let two := Operand numberLiteral "2" in
  let x := Operand identifier "x" in
  let e := Binary opSubtract
             (Binary opMultiply two (Bracketed (Binary opAdd x two)))
             (Binary opPower x two) in
  @_parseTokens binary64_nan [] (tokens_of e) 0
  = Ok ([Number (num_of_string "2"); Identifier "x"; Number (num_of_string "2");
         Operator opAdd; Operator opMultiply; Identifier "x";
         Number (num_of_string "2"); Operator opPower; Operator opSubtract],
        tokens_of e, 11).
Proof.
  intros two x e.
  refine (well_formed_expression_compiles_to_postfix binary64_nan e _).
  cbn [well_formed].
  repeat split;
    first [reflexivity | now left | now right | apply Nat.leb_le; reflexivity].
Defined.

(** *** Facts about sources with spaces *)

Section Source_facts.
Context {N : JSNumber}.
Local Open Scope parse_scope.

Lemma tokenize_space (buffer : string) (i fuel : nat) :
  String.get i buffer = Some " "%char ->
  tokenize_from (S fuel) buffer i = tokenize_from fuel buffer (i + 1).
Proof. intros H. cbn [tokenize_from]. now rewrite H. Qed.

(** A symbol before a space is taken whole and alone. *)
Lemma tokenize_symbol (k : _Kind) (def : _KindDefinition) (sym pre t : string) fuel :
  _kindDefs k = Some def -> symbol def = Some sym ->
  tokenize_from (S fuel) (pre +:+ sym +:+ " " +:+ t) (String.length pre)
  = (let! rest := tokenize_from fuel (pre +:+ sym +:+ " " +:+ t)
                    (String.length pre + (String.length sym - 1) + 1) in
     Ok (symbol_token k :: rest)).
Proof.
  intros Hdef Hsym. cbn [tokenize_from]. rewrite string_get_app.
  unfold _findToken, startsWith.
  destruct k; cbn in Hdef; injection Hdef as <-; cbn in Hsym;
    try discriminate; injection Hsym as <-;
    cbn [_startCharacterTokens]; rewrite ?string_drop_app; reflexivity.
Qed.

Lemma tokenize_spaced : forall (tokens : list _Token) (pre : string) (fuel : nat),
  Forall token_ok tokens ->
  tokenize_from (2 * length tokens + fuel) (pre +:+ spaced tokens) (String.length pre)
  = Ok tokens.
Proof.
  induction tokens as [|t tokens IH]; intros pre fuel Hok.
  - cbn [spaced foldr]. rewrite append_empty_r. apply tokenize_end.
  - inversion Hok as [|? ? Ht Hoks]; subst.
    replace (2 * length (t :: tokens) + fuel)
      with (S (S (2 * length tokens + fuel))) by (cbn [length]; lia).
    cbn [spaced foldr]. fold (spaced tokens).
    assert (Hnext : forall text, token_text t = text ->
              tokenize_from (S (2 * length tokens + fuel))
                (pre +:+ text +:+ " " +:+ spaced tokens)
                (String.length pre + String.length text)
              = Ok tokens).
    { intros text _. rewrite tokenize_space.
      - specialize (IH (pre +:+ text +:+ " ") fuel Hoks).
        rewrite !append_assoc in IH. rewrite !string_length_app in IH.
        cbn [String.length] in IH. now rewrite Nat.add_assoc in IH.
      - rewrite <- string_length_app, <- append_assoc. now rewrite string_get_app. }
    destruct t as [k [text|]]; unfold token_ok in Ht; cbn [token_value token_kind] in Ht.
    + unfold token_text. cbn [token_value].
      rewrite (tokenize_operand k pre text (" " +:+ spaced tokens) _ Ht eq_refl eq_refl).
      now rewrite (Hnext text eq_refl).
    + destruct Ht as (def & sym & Hdef & Hsym).
      assert (Htext : token_text {| token_kind := k; token_value := None |} = sym)
        by (unfold token_text; cbn [token_value token_kind]; now rewrite Hdef, Hsym).
      rewrite Htext.
      rewrite (tokenize_symbol k def sym pre _ _ Hdef Hsym).
      assert (Hlen : 1 <= String.length sym).
      { destruct sym; [|cbn; lia]. exfalso.
        apply (symbols_not_empty def); [|exact Hsym].
        unfold _kindDefs in Hdef. apply find_some in Hdef as [Hin _].
        now apply list_elem_of_In. }
      replace (String.length pre + (String.length sym - 1) + 1)
        with (String.length pre + String.length sym) by lia.
      now rewrite (Hnext sym Htext).
Qed.

Lemma spaced_length (tokens : list _Token) :
  Forall token_ok tokens -> 2 * length tokens <= String.length (spaced tokens).
Proof.
  induction 1 as [|t tokens Ht _ IH]; [cbn; lia|].
  cbn [spaced foldr length]. fold (spaced tokens).
  rewrite !string_length_app. cbn [String.length].
  assert (1 <= String.length (token_text t)); [|lia].
  destruct t as [k [text|]]; unfold token_ok, token_text in *;
    cbn [token_value token_kind] in *.
  - destruct (operand_first k text Ht) as (c & rest & -> & _). cbn. lia.
  - destruct Ht as (def & sym & Hdef & Hsym). rewrite Hdef, Hsym.
    destruct sym; [|cbn; lia]. exfalso.
    apply (symbols_not_empty def); [|exact Hsym].
    unfold _kindDefs in Hdef. apply find_some in Hdef as [Hin _].
    now apply list_elem_of_In.
Qed.

Lemma tokens_of_ok (e : expr) :
  well_formed e -> spelled e -> Forall token_ok (tokens_of e).
Proof.
  induction e as [k text|o l IHl r IHr|e IH]; cbn [well_formed spelled tokens_of].
  - intros _ H. repeat constructor. exact H.
  - intros (Ho & Hl & Hr & _) [Hsl Hsr]. apply Forall_app. split; [auto|].
    constructor; [|auto]. unfold token_ok. cbn [symbol_token token_value token_kind].
    destruct o; try discriminate Ho; do 2 eexists; split; reflexivity.
  - intros Hwf Hs. constructor; [do 2 eexists; split; reflexivity|].
    apply Forall_app. split; [auto|]. repeat constructor.
    do 2 eexists; split; reflexivity.
Qed.

(** The source of a well-formed expression compiles to its opcodes. *)
Lemma compile_source (e : expr) :
  well_formed e -> spelled e ->
  newProgram (spaced (tokens_of e)) = Ok {| _ops := postfix e |}.
Proof.
  intros Hwf Hs. unfold newProgram, _tokenize.
  pose proof (tokens_of_ok e Hwf Hs) as Hok.
  pose proof (spaced_length _ Hok) as Hlen.
  replace (String.length (spaced (tokens_of e)))
    with (2 * length (tokens_of e)
          + (String.length (spaced (tokens_of e)) - 2 * length (tokens_of e)))
    by lia.
  rewrite (tokenize_spaced (tokens_of e) EmptyString _ Hok). cbn [bindO].
  unfold _parseTokens.
  pose proof (compile_expr (length (tokens_of e)) e (le_n _) Hwf _expression
                ltac:(apply list_elem_of_In; cbn; auto)) as H.
  specialize (H ltac:(change (group_depth _expression) with 3;
                      destruct e as [| o ? ? |]; cbn [rank]; try lia;
                      pose proof (looseness_bound o); lia)).
  specialize (H (length (tokens_of e)) [] [] I ltac:(lia)).
  rewrite !app_nil_r in H. now rewrite H.
Qed.

End Source_facts.

(** X19. Writing tokens out with spaces and tokenizing the text gives the
    tokens back. *)
Theorem spaced_tokens_are_read_back :
  forall (N : JSNumber) (tokens : list _Token),
    Forall token_ok tokens -> _tokenize (spaced tokens) = Ok tokens.
Proof.
  intros N tokens Hok. unfold _tokenize.
  pose proof (spaced_length tokens Hok) as Hlen.
  replace (String.length (spaced tokens))
    with (2 * length tokens + (String.length (spaced tokens) - 2 * length tokens))
    by lia.
  exact (tokenize_spaced tokens EmptyString _ Hok).
Qed.

Lemma spaced_tokens_are_read_back_witness :
  @_tokenize binary64_nan "12.5 * ( rate + 1 ) "
  = Ok [operand_token numberLiteral "12.5"; symbol_token opMultiply;
        symbol_token openBracket; operand_token identifier "rate";
        symbol_token opAdd; operand_token numberLiteral "1";
        symbol_token closeBracket].
Proof.
  refine (spaced_tokens_are_read_back binary64_nan
            [operand_token numberLiteral "12.5"; symbol_token opMultiply;
             symbol_token openBracket; operand_token identifier "rate";
             symbol_token opAdd; operand_token numberLiteral "1";
             symbol_token closeBracket] _).
  repeat constructor; first [reflexivity | do 2 eexists; split; reflexivity].
Defined.

(** X20. From the source to the value: the source of a well-formed arithmetic
    expression, written with a space after every token, compiles, and the
    program, executed in a default context, returns the value of the
    expression with the registers of the context and leaves the context as
    it was. *)
Theorem arithmetic_source_returns_its_value :
  forall (N : JSNumber) (e : expr),
    well_formed e -> arithmetic e -> spelled e ->
    exists p,
      newProgram (spaced (tokens_of e)) = Ok p
      /\ forall (h : heap) (n : ctx_ref) (s : list _StackElement)
                (R : gmap string num),
           n < length h ->
           execute p (Some n)
             (<[n := Default {| default_stack := s; _registers := R |}]> h)
           = (Ok (eval R e),
              <[n := Default {| default_stack := s; _registers := R |}]> h).
Proof.
  intros N e Hwf He Hs. exists {| _ops := postfix e |}. split.
  - now apply compile_source.
  - intros h n s R Hn. now apply execute_postfix.
Qed.

Lemma arithmetic_source_returns_its_value_witness :
  let e := Binary opAdd (Operand numberLiteral "2")
             (Binary opMultiply (Operand numberLiteral "3")
                (Operand identifier "x")) in
  let c : @CalculationContext binary64_nan :=
    Default {| default_stack := []; _registers := {[ "x" := 4%float ]} |} in
  exists p : @Program binary64_nan,
    newProgram "2 + 3 * x " = Ok p
    /\ execute p (Some 0) [c] = (Ok 14%float, [c]).
Proof.
  intros e c.
  destruct (arithmetic_source_returns_its_value binary64_nan e) as (p & Hc & Hrun).
  - cbn [well_formed].
    repeat split;
      first [reflexivity | now left | now right | apply Nat.leb_le; reflexivity].
  - cbn [arithmetic].
    repeat split; first [now left | now right | set_solver].
  - repeat split.
  - exists p. split; [exact Hc|].
    exact (Hrun [c] 0 [] {[ "x" := 4%float ]} ltac:(cbn; lia)).
Defined.

(** ** Assignment of an expression *)

Section Assignment_facts.
Context {N : JSNumber}.
Local Open Scope exec_scope.

Lemma arithmetic_rank (e : expr) : arithmetic e -> rank e <= 3.
Proof.
  destruct e as [k text|o l r|e]; cbn [rank arithmetic]; try lia.
  intros (Ho & _).
  repeat (apply elem_of_cons in Ho as [->|Ho]; [apply Nat.leb_le; reflexivity|]).
  now apply elem_of_nil in Ho.
Qed.

Lemma execute_assignment h n (s : list _StackElement) (R : gmap string num)
  (x : string) (e : expr) :
  n < length h -> arithmetic e ->
  execute {| _ops := postfix (Binary opAssign (Operand identifier x) e) |} (Some n)
    (<[n := Default {| default_stack := s; _registers := R |}]> h)
  = (Ok (eval R e),
     <[n := Default {| default_stack := s;
                       _registers := <[x := eval R e]> R |}]> h).
Proof.
  intros Hn He. rewrite execute_in. cbn [_ops postfix].
  assert (Hrun : perform_all
                   ([operand_of identifier x] ++ postfix e ++ [Operator opAssign]) n
                   (<[n := Default {| default_stack := s; _registers := R |}]> h)
                 = (Ok tt,
                    <[n := Default {| default_stack := s ++ [_Literal (eval R e)];
                                      _registers := <[x := eval R e]> R |}]> h)).
  { rewrite (perform_all_compose _ _ _ _ _
               (run_postfix h n Hn R (Operand identifier x) s (or_intror eq_refl))).
    cbn [result_element].
    destruct (decide (identifier = numberLiteral)) as [|_]; [discriminate|].
    rewrite (perform_all_snoc _ _ _ _ _ (run_postfix h n Hn R e _ He)).
    rewrite Opcode_perform_eq. cbn [Operator opcode_kind].
    assert (H1 : popStack_value n
                   (<[n := Default {| default_stack :=
                                        (s ++ [_VariableReference x n])
                                        ++ [result_element n R e];
                                      _registers := R |}]> h)
                 = (Ok (eval R e),
                    <[n := Default {| default_stack := s ++ [_VariableReference x n];
                                      _registers := R |}]> h))
      by (rewrite popStack_value_default by exact Hn; now apply get_value_result).
    rewrite (bindM_Ok _ _ _ _ _ H1).
    rewrite (bindM_Ok _ _ _ _ _ (popStack_default _ _ _ _ _ Hn)). cbn [set_value].
    rewrite (bindM_Ok _ _ _ _ _ (setRegister_default _ _ _ _ _ _ Hn)).
    now rewrite pushStack_default by exact Hn. }
  rewrite (bindM_Ok _ _ _ _ _ Hrun).
  now rewrite popStack_literal_default by exact Hn.
Qed.

End Assignment_facts.

(** X21. Assignment of an expression: the source [x = e], for an identifier [x]
    and a well-formed arithmetic expression [e], written with a space after
    every token, compiles, and the program, executed in a default context,
    returns the value of [e] with the registers as they were before, and
    leaves the context as it was but for the register [x], which holds that
    value. *)
Theorem assignment_source_writes_the_value :
  forall (N : JSNumber) (x : string) (e : expr),
    is_operand identifier x -> well_formed e -> arithmetic e -> spelled e ->
    exists p,
      newProgram (spaced (tokens_of (Binary opAssign (Operand identifier x) e)))
      = Ok p
      /\ forall (h : heap) (n : ctx_ref) (s : list _StackElement)
                (R : gmap string num),
           n < length h ->
           execute p (Some n)
             (<[n := Default {| default_stack := s; _registers := R |}]> h)
           = (Ok (eval R e),
              <[n := Default {| default_stack := s;
                                _registers := <[x := eval R e]> R |}]> h).
Proof.
  intros N x e Hx Hwf He Hs.
  exists {| _ops := postfix (Binary opAssign (Operand identifier x) e) |}. split.
  - apply compile_source; [|now split].
    cbn [well_formed rank]. pose proof (arithmetic_rank e He).
    repeat split; auto; try (now right); try lia.
  - intros h n s R Hn. now apply execute_assignment.
Qed.

Lemma assignment_source_writes_the_value_witness :
  let c (R : gmap string (@num binary64_nan)) : @CalculationContext binary64_nan :=
    Default {| default_stack := []; _registers := R |} in
  exists p : @Program binary64_nan,
    newProgram "x = x + 1 " = Ok p
    /\ execute p (Some 0) [c {[ "x" := 2%float ]}]
       = (Ok 3%float, [c (<[ "x" := 3%float ]> {[ "x" := 2%float ]})]).
Proof.
  intros c.
  destruct (assignment_source_writes_the_value binary64_nan "x"
              (Binary opAdd (Operand identifier "x") (Operand numberLiteral "1")))
    as (p & Hc & Hrun).
  - reflexivity.
  - cbn [well_formed].
    repeat split;
      first [reflexivity | now left | now right | apply Nat.leb_le; reflexivity].
  - cbn [arithmetic]. repeat split; first [now left | now right | set_solver].
  - repeat split.
  - exists p. split; [exact Hc|].
    exact (Hrun [c {[ "x" := 2%float ]}] 0 [] {[ "x" := 2%float ]} ltac:(cbn; lia)).
Defined.

(** ** The page and its last result *)

Section Page_facts.
Context {N : JSNumber}.
Local Open Scope exec_scope.

Lemma on_enter_value h n (s : list _StackElement) (R : gmap string num) (e : expr) :
  n < length h -> well_formed e -> arithmetic e -> spelled e ->
  on_enter n (spaced (tokens_of e))
    (<[n := Default {| default_stack := s; _registers := R |}]> h)
  = (Ok (eval R e),
     <[n := Default {| default_stack := s;
                       _registers := <["last" := eval R e]> R |}]> h).
Proof.
  intros Hn Hwf He Hs. unfold on_enter. rewrite (compile_source e Hwf Hs).
  rewrite (bindM_Ok _ _ _ _ _ (execute_postfix h n Hn R e s He)).
  now rewrite (bindM_Ok _ _ _ _ _ (setRegister_default _ _ _ _ _ _ Hn)).
Qed.

End Page_facts.

(** X22. The page keeps the last result: after Enter on the source of a
    well-formed arithmetic expression the handler has shown the value of
    the expression and the register [last] of the page's context holds it;
    the input [last] then gives the same value again. *)
Theorem the_page_keeps_the_last_result :
  forall (N : JSNumber) (h : heap) (n : ctx_ref) (s : list _StackElement)
         (R : gmap string num) (e : expr),
    n < length h -> well_formed e -> arithmetic e -> spelled e ->
    let before := <[n := Default {| default_stack := s; _registers := R |}]> h in
    let after := <[n := Default {| default_stack := s;
                                   _registers := <["last" := eval R e]> R |}]> h in
    on_enter n (spaced (tokens_of e)) before = (Ok (eval R e), after)
    /\ on_enter n "last " after = (Ok (eval R e), after).
Proof.
  intros N h n s R e Hn Hwf He Hs before after. split.
  - now apply on_enter_value.
  - pose proof (on_enter_value h n s (<["last" := eval R e]> R)
                  (Operand identifier "last") Hn (or_intror eq_refl)
                  (or_intror eq_refl) eq_refl) as H.
    cbn [eval] in H. destruct (decide (identifier = numberLiteral)) as [|_];
      [discriminate|].
    rewrite lookup_insert_eq in H. cbn [default] in H. rewrite insert_insert_eq in H.
    exact H.
Qed.

Lemma the_page_keeps_the_last_result_witness :
  let c (R : gmap string (@num binary64_nan)) : @CalculationContext binary64_nan :=
    Default {| default_stack := []; _registers := R |} in
  on_enter 0 "6 * 7 " [c ∅] = (Ok 42%float, [c (<["last" := 42%float]> ∅)])
  /\ on_enter 0 "last " [c (<["last" := 42%float]> ∅)]
     = (Ok 42%float, [c (<["last" := 42%float]> ∅)]).
Proof.
  intros c.
  refine (the_page_keeps_the_last_result binary64_nan [c ∅] 0 [] ∅
            (Binary opMultiply (Operand numberLiteral "6") (Operand numberLiteral "7"))
            _ _ _ _).
  - cbn. lia.
  - cbn [well_formed].
    repeat split;
      first [reflexivity | now left | now right | apply Nat.leb_le; reflexivity].
  - cbn [arithmetic]. repeat split; first [now left | now right | set_solver].
  - repeat split.
Defined.
